(** * Range analysis of QONNX graphs: a shallow embedding of
      [src/qonnx/util/range_analysis.py]

    Floating-point numbers are modelled by exact rationals ([Q]); numpy
    arrays by a shape and a row-major list of elements; Python exceptions
    by an error result; the range table and the effects of a run (model
    loading, graph rewrites, node executions, warnings) by a state that the
    functions thread.

    Range records are stored by value. The analysis only assigns to the
    fields of records that it has just created, one object per tensor name
    (the outputs of the node being processed, the initializers); the one
    object that may be shared, a range record passed in by the caller and
    stored for every graph input, is never assigned to. *)

From Stdlib Require Import QArith Qround Qminmax Qabs Lqa Psatz.
From stdpp Require Import gmap strings list.

Open Scope string_scope.

(** ** Python exceptions *)

Inductive PyError :=
| AssertionError (msg : string)
| KeyError (key : string)
| TypeError
| ValueError
| AttributeError
| IndexError
| NotModelled.

Inductive result (A : Type) :=
| Ok (a : A)
| Raise (e : PyError).
Arguments Ok {A} a.
Arguments Raise {A} e.

#[export] Instance result_ret : MRet result := fun _ a => Ok a.
#[export] Instance result_bind : MBind result := fun _ _ f m =>
  match m with Ok a => f a | Raise e => Raise e end.

Definition is_Ok {A} (r : result A) : bool :=
  match r with Ok _ => true | Raise _ => false end.

(** ** numpy arrays and Python values *)

Module Np.

Record ndarray := mk_ndarray { shape : list nat; data : list Q }.

(** Values that occur as range bounds and in execution contexts:
    [None], a Python or numpy scalar, a Python list of numbers, an
    [np.ndarray]. *)
Inductive value :=
| VNone
| VScalar (q : Q)
| VList (l : list Q)
| VArray (a : ndarray).

Definition size (s : list nat) : nat := fold_right Nat.mul 1%nat s.

Definition zeros (s : list nat) : ndarray := mk_ndarray s (replicate (size s) 0%Q).
Definition zeros_like (a : ndarray) : ndarray := zeros (shape a).

(** How numpy reads a value as an array operand. *)
Definition as_array (v : value) : result ndarray :=
  match v with
  | VNone => Raise TypeError
  | VScalar q => Ok (mk_ndarray [] [q])
  | VList l => Ok (mk_ndarray [length l] l)
  | VArray a => Ok a
  end.

(** The [.shape] attribute; plain Python numbers and lists have none, numpy
    scalars have [()]. Only used for reading the shape of a bound. *)
Definition shape_of (v : value) : option (list nat) :=
  match v with
  | VNone => None
  | VScalar _ => Some []
  | VList l => Some [length l]
  | VArray a => Some (shape a)
  end.

(** A ufunc result of rank 0 is a numpy scalar, not an [ndarray]. *)
Definition wrap (a : ndarray) : value :=
  match shape a with
  | [] => VScalar (hd 0%Q (data a))
  | _ => VArray a
  end.

(** Broadcasting: shapes are aligned at their last dimension; two
    dimensions are compatible when they are equal or one of them is 1. *)
Fixpoint broadcast_rev (r1 r2 : list nat) : option (list nat) :=
  match r1, r2 with
  | [], r => Some r
  | r, [] => Some r
  | d1 :: t1, d2 :: t2 =>
      match broadcast_rev t1 t2 with
      | None => None
      | Some t =>
          if (d1 =? d2)%nat then Some (d1 :: t)
          else if (d1 =? 1)%nat then Some (d2 :: t)
          else if (d2 =? 1)%nat then Some (d1 :: t)
          else None
      end
  end.

Definition broadcast_shapes (s1 s2 : list nat) : option (list nat) :=
  match broadcast_rev (rev s1) (rev s2) with
  | Some r => Some (rev r)
  | None => None
  end.

(** All multi-indices of a shape, in row-major order. *)
Fixpoint indices (s : list nat) : list (list nat) :=
  match s with
  | [] => [[]]
  | d :: t => flat_map (fun i => map (cons i) (indices t)) (seq 0 d)
  end.

(** Offset, in the row-major data of an array of shape [s], of the element
    that a multi-index of a broadcast shape reads. *)
Definition offset (s : list nat) (idx : list nat) : nat :=
  fold_left (fun acc '(i, d) => (acc * d + (if (d =? 1)%nat then 0 else i))%nat)
            (combine (drop (length idx - length s) idx) s) 0%nat.

(** [offset] on a multi-index of full rank, with its accumulator. *)
Definition offset_from (acc : nat) (s idx : list nat) : nat :=
  fold_left (fun acc '(i, d) => (acc * d + (if (d =? 1)%nat then 0 else i))%nat)
            (combine idx s) acc.

Definition broadcast_to (a : ndarray) (s : list nat) : list Q :=
  map (fun idx => nth (offset (shape a) idx) (data a) 0%Q) (indices s).

Definition map2 (f : Q -> Q -> Q) (x y : ndarray) : result ndarray :=
  match broadcast_shapes (shape x) (shape y) with
  | None => Raise ValueError
  | Some s => Ok (mk_ndarray s (zip_with f (broadcast_to x s) (broadcast_to y s)))
  end.

Definition ufunc2 (f : Q -> Q -> Q) (x y : value) : result value :=
  a ← as_array x; b ← as_array y; c ← map2 f a b; mret (wrap c).

Definition add := ufunc2 Qplus.
Definition sub := ufunc2 Qminus.
Definition mul := ufunc2 Qmult.
Definition minimum := ufunc2 Qmin.
Definition maximum := ufunc2 Qmax.

Definition map1 (f : Q -> Q) (x : value) : result value :=
  a ← as_array x; mret (wrap (mk_ndarray (shape a) (map f (data a)))).

Definition abs := map1 Qabs.

(** numpy arrays hold as many elements as their shape says. *)
Definition well_formed (a : ndarray) : Prop := length (data a) = size (shape a).

(** [x % 1 == 0] on one element. *)
Definition is_integral (q : Q) : bool :=
  Qeq_bool (q - inject_Z (Qfloor q)) 0.

(** [((a % 1) == 0).all()] *)
Definition all_integral (a : ndarray) : bool := forallb is_integral (data a).

(** [np.matmul] on two-dimensional operands; operands of another rank are
    outside this model. *)
Definition row (k : nat) (d : list Q) (i : nat) : list Q := take k (drop (i * k) d).
Definition col (k m : nat) (d : list Q) (j : nat) : list Q :=
  map (fun l => nth (l * m + j) d 0%Q) (seq 0 k).
Definition dot (u v : list Q) : Q := fold_left Qplus (zip_with Qmult u v) 0%Q.

Definition matmul (x y : value) : result value :=
  a ← as_array x; b ← as_array y;
  match shape a, shape b with
  | [n; k], [k'; m] =>
      if (k =? k')%nat then
        Ok (VArray (mk_ndarray [n; m]
              (flat_map (fun i => map (fun j => dot (row k (data a) i) (col k m (data b) j))
                                      (seq 0 m))
                        (seq 0 n))))
      else Raise ValueError
  | _, _ => Raise NotModelled
  end.

End Np.

Import Np.

(** ** The graph model (boundary library) *)

(** Modelled from the spec: the value-info of a tensor, of which the analysis
    only reads the declared shape. *)
Record ValueInfo := mk_vi { vi_name : string; vi_shape : list nat }.

(** Modelled from the spec: a datatype annotation with its numeric
    [.min()] and [.max()] bounds. *)
Record DataType := mk_dt { dt_name : string; dt_min : Q; dt_max : Q }.

Record Node := mk_node {
  name : string;
  op_type : string;
  input : list string;
  output : list string }.

(** Modelled from the spec: what the analysis queries of a [ModelWrapper]. *)
Record ModelWrapper := mk_model {
  opset_version : Z;
  graph_input : list ValueInfo;
  graph_node : list Node;
  all_tensor_names : list string;
  initializers : gmap string ndarray;
  value_infos : gmap string ValueInfo;
  datatypes : gmap string DataType }.

Definition get_initializer (model : ModelWrapper) (x : string) : option ndarray :=
  initializers model !! x.
Definition get_tensor_valueinfo (model : ModelWrapper) (x : string) : option ValueInfo :=
  value_infos model !! x.
Definition get_tensor_datatype (model : ModelWrapper) (x : string) : option DataType :=
  datatypes model !! x.

(** Modelled from the spec: [valueinfo_to_tensor] allocates an array of the
    declared shape (zero filled); it fails on a missing value-info. *)
Definition valueinfo_to_tensor (vi : option ValueInfo) : result ndarray :=
  match vi with
  | None => Raise AttributeError
  | Some v => Ok (zeros (vi_shape v))
  end.

(** ** RangeInfo *)

Record RangeInfo := mk_ri {
  range : option (value * value);
  int_range : option (value * value);
  scale : option ndarray;
  bias : option ndarray;
  is_initializer : bool }.

(** [RangeInfo()] *)
Definition RangeInfo_default : RangeInfo := mk_ri None None None None false.

Definition has_integer_info (r : RangeInfo) : bool :=
  forallb (fun x => x)
    [bool_decide (int_range r <> None); bool_decide (scale r <> None);
     bool_decide (bias r <> None)].

Definition is_dyn_input (x : string) (model : ModelWrapper) : bool :=
  bool_decide (get_initializer model x = None) && negb (String.eqb x "").

(** [isinstance(v, np.ndarray) and v.shape == s] *)
Definition is_ndarray_of_shape (v : value) (s : list nat) : bool :=
  match v with
  | VArray a => bool_decide (shape a = s)
  | _ => false
  end.

Definition promote_range_shape (tensor_range : option (value * value))
    (tensor_vi : option ValueInfo) : result (value * value) :=
  proto_tensor ← valueinfo_to_tensor tensor_vi;
  let tensor_shape := shape proto_tensor in
  match tensor_range with
  | None => Raise TypeError
  | Some (lo, hi) =>
      if is_ndarray_of_shape lo tensor_shape then Ok (lo, hi)
      else
        range_min ← Np.add lo (VArray (zeros_like proto_tensor));
        range_max ← Np.add hi (VArray (zeros_like proto_tensor));
        mret (range_min, range_max)
  end.

(** ** Interval matrix multiplication *)

Definition range_to_midpoint_radius (matrix_range : option (value * value))
    : result (value * value) :=
  match matrix_range with
  | None => Raise TypeError
  | Some (matrix_min, matrix_max) =>
      d ← Np.sub matrix_max matrix_min;
      h ← Np.mul (VScalar (1 # 2)) d;
      midpoint ← Np.add matrix_min h;
      radius ← Np.sub midpoint matrix_min;
      mret (midpoint, radius)
  end.

Definition calc_matmul_range (range_A range_B : option (value * value))
    : result (value * value) :=
  '(midpoint_A, radius_A) ← range_to_midpoint_radius range_A;
  '(midpoint_B, radius_B) ← range_to_midpoint_radius range_B;
  abs_B ← Np.abs midpoint_B;
  s ← Np.add abs_B radius_B;
  t1 ← Np.matmul radius_A s;
  abs_A ← Np.abs midpoint_A;
  t2 ← Np.matmul abs_A radius_B;
  radius ← Np.add t1 t2;
  out_base ← Np.matmul midpoint_A midpoint_B;
  out_max ← Np.add out_base radius;
  out_min ← Np.sub out_base radius;
  mret (out_min, out_max).


(** ** Python dictionaries: insertion-ordered association lists *)

Fixpoint dict_get {V} (k : string) (d : list (string * V)) : option V :=
  match d with
  | [] => None
  | (k', v) :: r => if decide (k = k') then Some v else dict_get k r
  end.

(** [d[k] = v]: an existing key keeps its position, a new key goes last. *)
Fixpoint dict_set {V} (k : string) (v : V) (d : list (string * V)) : list (string * V) :=
  match d with
  | [] => [(k, v)]
  | (k', v') :: r => if decide (k = k') then (k, v) :: r else (k', v') :: dict_set k v r
  end.

Definition dict_mem {V} (k : string) (d : list (string * V)) : bool :=
  bool_decide (dict_get k d <> None).

(** [enumerate(l)] *)
Definition enumerate {A} (l : list A) : list (nat * A) := zip (seq 0 (length l)) l.

(** [itertools.product] of pairs: the leftmost pair varies slowest. *)
Fixpoint product (ps : list (value * value)) : list (list value) :=
  match ps with
  | [] => [[]]
  | (lo, hi) :: rest => map (cons lo) (product rest) ++ map (cons hi) (product rest)
  end.

(** ** State of one analysis run and its effects *)

Inductive Transformation :=
| CleanupModel (preserve_qnt_ops : option bool)
| LowerConvsToMatMul
| GemmToMatMul
| InferShapes
| FoldConstants
| InferDataTypes.

Inductive event :=
| EvLoadModel (path : string)
| EvTransform (t : Transformation)
| EvSaveModel (path : string) (model : ModelWrapper)
| EvExecuteNode (node : Node) (ctx : gmap string value)
| EvWarn (msg : string).

Record state := mk_state {
  range_dict : list (string * RangeInfo);
  events : list event }.

Definition M (A : Type) : Type := state -> result A * state.

#[export] Instance M_ret : MRet M := fun _ a st => (Ok a, st).
#[export] Instance M_bind : MBind M := fun _ _ f m st =>
  match m st with
  | (Ok a, st') => f a st'
  | (Raise e, st') => (Raise e, st')
  end.

Definition lift {A} (r : result A) : M A := fun st => (r, st).
Definition raise {A} (e : PyError) : M A := lift (Raise e).
Definition emit (e : event) : M unit :=
  fun st => (Ok tt, mk_state (range_dict st) (events st ++ [e])).

Definition get_range_dict : M (list (string * RangeInfo)) :=
  fun st => (Ok (range_dict st), st).

(** [range_dict = {}] *)
Definition new_range_dict : M unit :=
  fun st => (Ok tt, mk_state [] (events st)).

(** [assert cond, msg] *)
Definition py_assert (cond : bool) (msg : string) : M unit :=
  if cond then mret tt else raise (AssertionError msg).

(** [range_dict[k]] *)
Definition rd_get (k : string) : M RangeInfo :=
  fun st => match dict_get k (range_dict st) with
            | Some r => (Ok r, st)
            | None => (Raise (KeyError k), st)
            end.

(** [range_dict[k] = r] *)
Definition rd_set (k : string) (r : RangeInfo) : M unit :=
  fun st => (Ok tt, mk_state (dict_set k r (range_dict st)) (events st)).

Definition set_range (rng : option (value * value)) (r : RangeInfo) : RangeInfo :=
  mk_ri rng (int_range r) (scale r) (bias r) (is_initializer r).
Definition set_is_initializer (b : bool) (r : RangeInfo) : RangeInfo :=
  mk_ri (range r) (int_range r) (scale r) (bias r) b.
Definition set_int_range (ir : option (value * value)) (r : RangeInfo) : RangeInfo :=
  mk_ri (range r) ir (scale r) (bias r) (is_initializer r).
Definition set_scale (s : option ndarray) (r : RangeInfo) : RangeInfo :=
  mk_ri (range r) (int_range r) s (bias r) (is_initializer r).
Definition set_bias (b : option ndarray) (r : RangeInfo) : RangeInfo :=
  mk_ri (range r) (int_range r) (scale r) b (is_initializer r).

(** [range_dict[k].field = ...]: attribute assignment on the stored record. *)
Definition rd_update (k : string) (f : RangeInfo -> RangeInfo) : M unit :=
  r ← rd_get k; rd_set k (f r).

Fixpoint for_each {A} (f : A -> M unit) (l : list A) : M unit :=
  match l with
  | [] => mret tt
  | x :: r => _ ← f x; for_each f r
  end.

(** A loop that threads local variables of type [B]. *)
Fixpoint foldM {A B} (f : B -> A -> M B) (b : B) (l : list A) : M B :=
  match l with
  | [] => mret b
  | x :: r => b' ← f b x; foldM f b' r
  end.

Fixpoint foldM_result {A B} (f : B -> A -> result B) (b : B) (l : list A) : result B :=
  match l with
  | [] => Ok b
  | x :: r => match f b x with Ok b' => foldM_result f b' r | Raise e => Raise e end
  end.

Fixpoint mapM {A B} (f : A -> M B) (l : list A) : M (list B) :=
  match l with
  | [] => mret []
  | x :: r => y ← f x; ys ← mapM f r; mret (y :: ys)
  end.

(** [v is None] *)
Definition is_none (v : value) : bool :=
  match v with VNone => true | _ => false end.

(** [l[i]] *)
Definition list_get (l : list string) (i : nat) : M string :=
  match l !! i with
  | Some x => mret x
  | None => raise IndexError
  end.

(** [ctx[k]] *)
Definition ctx_get (ctx : gmap string value) (k : string) : M value :=
  match ctx !! k with
  | Some v => mret v
  | None => raise (KeyError k)
  end.

Definition init_value (model : ModelWrapper) (x : string) : value :=
  match get_initializer model x with
  | Some a => VArray a
  | None => VNone
  end.

(** [{x: model.get_initializer(x) for x in node.input}] *)
Definition init_context (model : ModelWrapper) (node : Node) : gmap string value :=
  fold_left (fun c x => <[x := init_value model x]> c) (input node) ∅.

(** [for i in range(n_dyn_inp): ctx[dyn_inps[i]] = inps[i]] *)
Definition substitute (ctx : gmap string value) (dyn_inps : list string)
    (inps : list value) : gmap string value :=
  fold_left (fun c '(x, v) => <[x := v]> c) (zip dyn_inps inps) ctx.

Definition write_outputs (ctx : gmap string value) (onames : list string)
    (outs : list value) : gmap string value :=
  fold_left (fun c '(x, v) => <[x := v]> c) (zip onames outs) ctx.

Definition str_bool (b : bool) : string := if b then "True" else "False".

Definition REPORT_MODE_RANGE := "range".
Definition REPORT_MODE_STUCKCHANNEL := "stuck_channel".
Definition REPORT_MODE_ZEROSTUCKCHANNEL := "zerostuck_channel".

Definition report_modes : list string :=
  [REPORT_MODE_RANGE; REPORT_MODE_STUCKCHANNEL; REPORT_MODE_ZEROSTUCKCHANNEL].

Inductive range_calc := Monotonic | MatMulRange | OutDtype.

Definition optype_to_range_calc : list (string * range_calc) :=
  [ ("Transpose", Monotonic); ("MatMul", MatMulRange); ("QuantMaxNorm", OutDtype);
    ("Flatten", Monotonic); ("Reshape", Monotonic); ("Quant", Monotonic);
    ("BipolarQuant", Monotonic); ("Mul", Monotonic); ("Sub", Monotonic);
    ("Div", Monotonic); ("Add", Monotonic); ("BatchNormalization", Monotonic);
    ("Relu", Monotonic); ("Pad", Monotonic); ("AveragePool", Monotonic);
    ("Trunc", Monotonic); ("MaxPool", Monotonic); ("Resize", Monotonic);
    ("Upsample", Monotonic); ("GlobalAveragePool", Monotonic);
    ("QuantizeLinear", Monotonic); ("DequantizeLinear", Monotonic);
    ("Clip", Monotonic); ("Sigmoid", Monotonic); ("Concat", Monotonic);
    ("Split", Monotonic); ("Im2Col", Monotonic) ].

(** The [irange] argument. *)
Inductive irange_arg :=
| IStr (s : string)
| ITuple (range_min range_max : value)
| IRangeInfo (r : RangeInfo)
| IOther.

(** Entries of a report: a range record, a set of (channel, value) pairs, or
    a set of channels. *)
Inductive entry :=
| ERange (r : RangeInfo)
| EStuck (s : list (Z * Q))
| EZero (s : list Z).

Inductive report :=
| RDict (d : list (string * entry))
| RText (s : string).

Record options := mk_options {
  irange : irange_arg;
  key_filter : string;
  save_modified_model : string;
  report_mode : string;
  lower_ops : bool;
  prettyprint : bool;
  do_cleanup : bool;
  strip_initializers_from_report : bool }.

(** [key_filter in k] *)
Definition contains (key_filter k : string) : bool :=
  bool_decide (String.index 0 key_filter k <> None).

(** ** The analysis, over the boundary library *)

Section Analysis.

(** Modelled from the spec: the operator semantics behind [execute_node],
    which reads the context and yields the values of the node's outputs. *)
Variable op_semantics : Node -> gmap string value -> ModelWrapper -> Z -> result (list value).
(** Modelled from the spec: the graph-rewrite passes and model loading. *)
Variable transform : Transformation -> ModelWrapper -> result ModelWrapper.
Variable load_model : string -> result ModelWrapper.
(** [eval] of the textual [irange], unpacked into its two components. *)
Variable py_eval : string -> result (value * value).
(** [pprint.pformat(_, sort_dicts=False)] and [str(report_modes)]. *)
Variable pformat : list (string * entry) -> string.
Variable str_report_modes : string.

(** Modelled from the spec: [execute_node] evaluates the node once and
    produces the context's output entries in place. *)
Definition execute_node (node : Node) (ctx : gmap string value) (model : ModelWrapper)
    (opset : Z) : M (gmap string value) :=
  _ ← emit (EvExecuteNode node ctx);
  outs ← lift (op_semantics node ctx model opset);
  mret (write_outputs ctx (output node) outs).

(** The value that one evaluation of the node in [ctx] yields for the
    output [oname]. *)
Definition output_value (node : Node) (model : ModelWrapper) (ctx : gmap string value)
    (oname : string) : option value :=
  match op_semantics node ctx model (opset_version model) with
  | Ok outs => write_outputs ctx (output node) outs !! oname
  | Raise _ => None
  end.

(** One pass of [for oind, oname in enumerate(node.output)] updating the
    running minima and maxima. *)
Definition update_running (ctx : gmap string value)
    (acc : list value * list value) (o : nat * string)
    : M (list value * list value) :=
  let '(running_min, running_max) := acc in
  let '(oind, oname) := o in
  out ← ctx_get ctx oname;
  new_min ← match running_min !! oind with
            | None => raise IndexError
            | Some m => if is_none m then mret out else lift (Np.minimum out m)
            end;
  new_max ← match running_max !! oind with
            | None => raise IndexError
            | Some m => if is_none m then mret out else lift (Np.maximum out m)
            end;
  mret (<[oind := new_min]> running_min, <[oind := new_max]> running_max).

(** The body of [for inps in itertools.product( *proto_vectors)]. *)
Definition corner_step (node : Node) (model : ModelWrapper) (dyn_inps : list string)
    (acc : gmap string value * (list value * list value))
    (inps : list value)
    : M (gmap string value * (list value * list value)) :=
  let '(ctx, running) := acc in
  let ctx := substitute ctx dyn_inps inps in
  ctx ← execute_node node ctx model (opset_version model);
  running ← foldM (update_running ctx) running (enumerate (output node));
  mret (ctx, running).

Definition assign_running (running : list value * list value)
    (o : nat * string) : M unit :=
  let '(oind, oname) := o in
  match fst running !! oind, snd running !! oind with
  | Some lo, Some hi => rd_update oname (set_range (Some (lo, hi)))
  | _, _ => raise IndexError
  end.

Definition calc_monotonic_range (node : Node) (model : ModelWrapper) : M unit :=
  let opset := opset_version model in
  _ ← list_get (output node) 0;
  let dyn_inps := filter (fun x => is_dyn_input x model = true) (input node) in
  let n_dyn_inp := length dyn_inps in
  let ctx := init_context model node in
  ctx ← foldM (fun c oname =>
                 t ← lift (valueinfo_to_tensor (get_tensor_valueinfo model oname));
                 mret (<[oname := VArray t]> c))
              ctx (output node);
  if (n_dyn_inp =? 0)%nat then
    ctx ← execute_node node ctx model opset;
    for_each (fun oname =>
                v ← ctx_get ctx oname;
                _ ← rd_update oname (set_range (Some (v, v)));
                rd_update oname (set_is_initializer true))
             (output node)
  else
    proto_vectors ← mapM (fun inp =>
                            r ← rd_get inp;
                            lift (promote_range_shape (range r)
                                    (get_tensor_valueinfo model inp)))
                         dyn_inps;
    let running_min := replicate (length (output node)) VNone in
    let running_max := replicate (length (output node)) VNone in
    '(_, running) ← foldM (corner_step node model dyn_inps)
                          (ctx, (running_min, running_max)) (product proto_vectors);
    for_each (assign_running running) (enumerate (output node)).

Definition calc_matmul_node_range (node : Node) (model : ModelWrapper) : M unit :=
  i0 ← list_get (input node) 0;
  r0 ← rd_get i0;
  i1 ← list_get (input node) 1;
  r1 ← rd_get i1;
  rng ← lift (calc_matmul_range (range r0) (range r1));
  o0 ← list_get (output node) 0;
  rd_update o0 (set_range (Some rng)).

Definition calc_range_outdtype (node : Node) (model : ModelWrapper) : M unit :=
  oname ← list_get (output node) 0;
  match get_tensor_datatype model oname with
  | None => raise (AssertionError ("Cannot infer " ++ oname ++ " range, dtype annotation is missing"))
  | Some odt => rd_update oname (set_range (Some (VScalar (dt_min odt), VScalar (dt_max odt))))
  end.

Definition seed_initializer (model : ModelWrapper) (tensor_name : string) : M unit :=
  match get_initializer model tensor_name with
  | None => mret tt
  | Some tensor_init =>
      let v := VArray tensor_init in
      _ ← rd_set tensor_name (mk_ri (Some (v, v)) None None None true);
      if all_integral tensor_init then
        _ ← rd_update tensor_name (set_int_range (Some (v, v)));
        _ ← rd_update tensor_name (set_scale (Some (mk_ndarray [1%nat] [1%Q])));
        rd_update tensor_name (set_bias (Some (mk_ndarray [1%nat] [0%Q])))
      else mret tt
  end.

Definition calc_range_all_initializers (model : ModelWrapper) : M unit :=
  for_each (seed_initializer model) (all_tensor_names model).

Definition run_range_calc (c : range_calc) : Node -> ModelWrapper -> M unit :=
  match c with
  | Monotonic => calc_monotonic_range
  | MatMulRange => calc_matmul_node_range
  | OutDtype => calc_range_outdtype
  end.

Definition skip_message (node : Node) (inprange_ok op_ok : bool) : string :=
  "Skipping " ++ name node ++ " : inp_range? " ++ str_bool inprange_ok
    ++ " op_ok? (" ++ op_type node ++ ") " ++ str_bool op_ok.

(** The body of [for node in model.graph.node]. *)
Definition walk_node (model : ModelWrapper) (node : Node) : M unit :=
  let dyn_inputs := filter (fun x => is_dyn_input x model = true) (input node) in
  range_table ← get_range_dict;
  let inprange_ok := forallb (fun x => dict_mem x range_table) dyn_inputs in
  let op_ok := dict_mem (op_type node) optype_to_range_calc in
  match inprange_ok && op_ok, dict_get (op_type node) optype_to_range_calc with
  | true, Some range_calc_fxn =>
      _ ← for_each (fun node_out => rd_set node_out RangeInfo_default) (output node);
      _ ← run_range_calc range_calc_fxn node model;
      for_each (fun node_out =>
                  r ← rd_get node_out;
                  p ← lift (promote_range_shape (range r) (get_tensor_valueinfo model node_out));
                  rd_update node_out (set_range (Some p)))
               (output node)
  | _, _ => emit (EvWarn (skip_message node inprange_ok op_ok))
  end.

(** The body of [for inp in model.graph.input]; [range_min] and [range_max]
    are variables of the enclosing function. *)
Definition seed_input (model : ModelWrapper) (ir : option RangeInfo)
    (bounds : value * value) (inp : ValueInfo) : M (value * value) :=
  let iname := vi_name inp in
  match ir with
  | Some r => _ ← rd_set iname r; mret bounds
  | None =>
      let '(range_min, range_max) := bounds in
      '(range_min, range_max) ←
        (if is_none range_min || is_none range_max then
           match get_tensor_datatype model iname with
           | None => raise (AssertionError "Could not infer irange, please specify")
           | Some idt => mret (VScalar (dt_min idt), VScalar (dt_max idt))
           end
         else mret (range_min, range_max));
      _ ← rd_set iname (mk_ri (Some (range_min, range_max)) None None None false);
      mret (range_min, range_max)
  end.

(** [np.asarray(x, dtype=np.float32)] when [x] is a list. *)
Definition list_to_array (v : value) : value :=
  match v with
  | VList l => VArray (mk_ndarray [length l] l)
  | _ => v
  end.

(** Resolution of [irange] into [(range_min, range_max)]; the third
    component is the range record when one was passed. *)
Definition resolve_irange (ir : irange_arg) : M (value * value * option RangeInfo) :=
  match ir with
  | IStr s =>
      if decide (s = "") then mret (VNone, VNone, None)
      else '(range_min, range_max) ← lift (py_eval s);
           mret (list_to_array range_min, list_to_array range_max, None)
  | ITuple range_min range_max => mret (range_min, range_max, None)
  | IRangeInfo r => mret (VNone, VNone, Some r)
  | IOther => raise (AssertionError "Unknown irange type")
  end.

Definition apply_transform (t : Transformation) (model : ModelWrapper) : M ModelWrapper :=
  _ ← emit (EvTransform t); lift (transform t model).

Definition when_model (b : bool) (f : ModelWrapper -> M ModelWrapper) (model : ModelWrapper)
    : M ModelWrapper :=
  if b then f model else mret model.

Definition filter_keys {V} (key_filter : string) (d : list (string * V)) : list (string * V) :=
  if decide (key_filter = "") then d
  else filter (fun kv => contains key_filter (fst kv) = true) d.

(** [set([x[0] for x in schans if x[1] == 0])] *)
Definition only_zero (schans : list (Z * Q)) : list Z :=
  remove_dups (map fst (filter (fun x => Qeq_bool (snd x) 0 = true) schans)).

(** The [zerostuck_channel] reduction; its entries are sets of
    (channel, value) pairs. *)
Definition zero_stuck (ret : list (string * entry)) : result (list (string * entry)) :=
  foldM_result (fun new_ret '(tname, e) =>
                  match e with
                  | EStuck schans =>
                      let schans_only_zero := only_zero schans in
                      if (0 <? length schans_only_zero)%nat
                      then Ok (dict_set tname (EZero schans_only_zero) new_ret)
                      else Ok new_ret
                  | _ => Raise TypeError
                  end)
               [] ret.

Definition entry_is_initializer (e : entry) : bool :=
  match e with
  | ERange r => is_initializer r
  | _ => false
  end.

(** Report assembly: filters and formatting once the range table is
    complete. *)
Definition make_report (o : options) (range_table : list (string * RangeInfo))
    (stuck_chans : list (string * list (Z * Q))) : result report :=
  let ret :=
    if bool_decide (report_mode o ∈ [REPORT_MODE_ZEROSTUCKCHANNEL; REPORT_MODE_STUCKCHANNEL])
    then map (fun kv => (fst kv, EStuck (snd kv))) stuck_chans
    else
      let ret := map (fun kv => (fst kv, ERange (snd kv))) range_table in
      if strip_initializers_from_report o
      then filter (fun kv => entry_is_initializer (snd kv) = false) ret
      else ret in
  let ret := filter_keys (key_filter o) ret in
  let ret := filter_keys (key_filter o) ret in
  ret ← (if decide (report_mode o = REPORT_MODE_RANGE) then Ok ret
         else if decide (report_mode o = REPORT_MODE_ZEROSTUCKCHANNEL) then zero_stuck ret
         else Ok ret);
  if prettyprint o then Ok (RText (pformat ret)) else Ok (RDict ret).

(** Everything after the entry check on [report_mode]. *)
Definition range_analysis_body (model_filename_or_wrapper : string + ModelWrapper)
    (o : options) : M report :=
  model ← match model_filename_or_wrapper with
          | inr w => mret w
          | inl path => _ ← emit (EvLoadModel path); lift (load_model path)
          end;
  '(range_min, range_max, ir) ← resolve_irange (irange o);
  model ← when_model (do_cleanup o) (apply_transform (CleanupModel (Some false))) model;
  model ← when_model (lower_ops o)
            (fun m => m ← apply_transform LowerConvsToMatMul m;
                      m ← apply_transform GemmToMatMul m;
                      apply_transform (CleanupModel None) m) model;
  model ← apply_transform InferShapes model;
  model ← apply_transform FoldConstants model;
  model ← apply_transform InferDataTypes model;
  _ ← (if decide (save_modified_model o = "") then mret tt
       else emit (EvSaveModel (save_modified_model o) model));
  _ ← new_range_dict;
  let stuck_chans : list (string * list (Z * Q)) := [] in
  _ ← foldM (seed_input model ir) (range_min, range_max) (graph_input model);
  _ ← calc_range_all_initializers model;
  _ ← for_each (walk_node model) (graph_node model);
  range_table ← get_range_dict;
  lift (make_report o range_table stuck_chans).

Definition report_mode_message : string :=
  "Unrecognized report_mode, must be " ++ str_report_modes.

Definition range_analysis (model_filename_or_wrapper : string + ModelWrapper)
    (o : options) : M report :=
  _ ← py_assert (bool_decide (report_mode o ∈ report_modes)) report_mode_message;
  range_analysis_body model_filename_or_wrapper o.

End Analysis.

(** Elementwise extreme of a sequence of evaluation results: the first one
    starts the running value, each later one is combined into it. *)
Definition running_step (f : value -> value -> result value) (acc : value)
    (out : value) : result value :=
  if is_none acc then Ok out else f out acc.

Definition running_extreme (f : value -> value -> result value) (acc : value)
    (outs : list value) : result value :=
  foldM_result (running_step f) acc outs.

Definition elementwise_min (outs : list value) : result value :=
  running_extreme Np.minimum VNone outs.
Definition elementwise_max (outs : list value) : result value :=
  running_extreme Np.maximum VNone outs.

(** Every constant input of the node that is not also one of its outputs
    holds its initializer in [ctx]. *)
Definition constants_fixed (node : Node) (model : ModelWrapper)
    (ctx : gmap string value) : Prop :=
  forall x, x ∈ input node -> is_dyn_input x model = false -> x ∉ output node ->
            ctx !! x = Some (init_value model x).

(** Every dynamic input holds in [ctx] the bound that [corner] chooses for
    it; when a name occupies several input slots, its last slot decides. *)
Definition corner_substituted (dyn_inps : list string) (corner : list value)
    (ctx : gmap string value) : Prop :=
  forall i x v, dyn_inps !! i = Some x -> corner !! i = Some v ->
                (forall j, (i < j)%nat -> dyn_inps !! j <> Some x) ->
                ctx !! x = Some v.

(** The record that initializer seeding is specified to create for a
    constant [c]. *)
Definition seeded_record (c : ndarray) : RangeInfo :=
  if all_integral c
  then mk_ri (Some (VArray c, VArray c)) (Some (VArray c, VArray c))
             (Some (mk_ndarray [1%nat] [1%Q])) (Some (mk_ndarray [1%nat] [0%Q])) true
  else mk_ri (Some (VArray c, VArray c)) None None None true.

(** What the all-constant case of monotonic propagation makes of a record:
    a point range and the initializer flag, the other fields as they were. *)
Definition degenerate (v : value) (r0 : RangeInfo) : RangeInfo :=
  mk_ri (Some (v, v)) (int_range r0) (scale r0) (bias r0) true.

(** A record that carries no integer information and whose range is a point
    when it is flagged as an initializer. *)
Definition fresh_ok (r : RangeInfo) : Prop :=
  int_range r = None /\ scale r = None /\ bias r = None
  /\ (is_initializer r = true -> exists v, range r = Some (v, v)).

(** What holds of the flagged records of the range table: a flagged record
    is one that initializer seeding created, or a point range without
    integer information. *)
Definition flagged_ok (r : RangeInfo) : Prop :=
  is_initializer r = true ->
  (exists c, r = seeded_record c)
  \/ (exists v, r = mk_ri (Some (v, v)) None None None true).

Definition table_ok (rd : list (string * RangeInfo)) : Prop :=
  forall k r, dict_get k rd = Some r -> flagged_ok r.

(** The relation between a record and its shape-promoted version. *)
Definition promoted (r0 r' : RangeInfo) : Prop :=
  is_initializer r' = is_initializer r0 /\ (fresh_ok r0 -> fresh_ok r').

(** ** Fixtures: 1x1 matrices and brute-force corner enumeration *)

Definition mat11 (q : Q) : value := VArray (mk_ndarray [1%nat; 1%nat] [q]).

(** The four corner products of two intervals. *)
Definition corner_products (a_min a_max b_min b_max : Q) : list Q :=
  [a_min * b_min; a_min * b_max; a_max * b_min; a_max * b_max]%Q.

Definition corner_range (a_min a_max b_min b_max : Q) : Q * Q :=
  let c := corner_products a_min a_max b_min b_max in
  (fold_right Qmin (a_min * b_min)%Q c, fold_right Qmax (a_min * b_min)%Q c).

Definition exact_radius (r : Q * Q) : Q := ((1 # 2) * (snd r - fst r))%Q.

(** ** Fixtures: a small executor and graphs for concrete runs *)

Module Fixture.

Definition arg (ctx : gmap string value) (node : Node) (i : nat) : result value :=
  match input node !! i with
  | None => Raise IndexError
  | Some x => match ctx !! x with Some v => Ok v | None => Raise (KeyError x) end
  end.

(** Rounding to the nearest integer. *)
Definition round (q : Q) : Q := inject_Z (Qfloor (q + (1 # 2))).

(** Operator semantics of [Add], [Mul], [Relu] and of a [Quant] weight
    quantizer of unit scale, [scale * round(x)]. *)
Definition semantics (node : Node) (ctx : gmap string value) (model : ModelWrapper)
    (opset : Z) : result (list value) :=
  if decide (op_type node = "Add") then
    a ← arg ctx node 0; b ← arg ctx node 1; c ← Np.add a b; mret [c]
  else if decide (op_type node = "Mul") then
    a ← arg ctx node 0; b ← arg ctx node 1; c ← Np.mul a b; mret [c]
  else if decide (op_type node = "Relu") then
    a ← arg ctx node 0; c ← Np.maximum a (VScalar 0); mret [c]
  else if decide (op_type node = "Quant") then
    a ← arg ctx node 0; sc ← arg ctx node 1; r ← Np.map1 round a;
    c ← Np.mul sc r; mret [c]
  else Raise NotModelled.

Definition no_transform (t : Transformation) (m : ModelWrapper) : result ModelWrapper := Ok m.
Definition no_load (path : string) : result ModelWrapper := Raise NotModelled.
Definition no_eval (s : string) : result (value * value) := Raise NotModelled.
Definition show (d : list (string * entry)) : string :=
  match d with [] => "{}" | _ => "{...}" end.
Definition modes_text : string := "{'range', 'stuck_channel', 'zerostuck_channel'}".

Definition run := range_analysis semantics no_transform no_load no_eval show modes_text.

Definition INT8 := mk_dt "INT8" (-128) 127.
Definition UINT4 := mk_dt "UINT4" 0 15.

Definition vi2 (x : string) : string * ValueInfo := (x, mk_vi x [2%nat]).

(** Two graph inputs of different datatypes and no node. *)
Definition two_inputs : ModelWrapper :=
  mk_model 11 [mk_vi "a" [2%nat]; mk_vi "b" [2%nat]] [] ["a"; "b"] ∅
    (list_to_map [vi2 "a"; vi2 "b"])
    (list_to_map [("a", INT8); ("b", UINT4)]).

Definition add_node : Node := mk_node "n0" "Add" ["a"; "b"] ["c"].
Definition foo_node : Node := mk_node "n1" "Foo" ["c"] ["d"].
Definition relu_node : Node := mk_node "n2" "Relu" ["d"] ["e"].
Definition quant_node : Node := mk_node "n3" "Quant" ["w"; "s"] ["g"].

(** [c = a + b], an unsupported node, a node fed by it, and a quantizer of
    the constant weights [w = [2.3, 3.7]] with scale [s = 1]. *)
Definition small_graph : ModelWrapper :=
  mk_model 11 [mk_vi "a" [2%nat]; mk_vi "b" [2%nat]]
    [add_node; foo_node; relu_node; quant_node]
    ["a"; "b"; "c"; "d"; "e"; "w"; "s"; "g"]
    (list_to_map [("w", mk_ndarray [2%nat] [23 # 10; 37 # 10]);
                  ("s", mk_ndarray [] [1%Q])])
    (list_to_map [vi2 "a"; vi2 "b"; vi2 "c"; vi2 "d"; vi2 "e"; vi2 "w";
                  ("s", mk_vi "s" []); vi2 "g"])
    (list_to_map [("a", INT8); ("b", UINT4)]).

Definition opts (mode : string) (pretty : bool) : options :=
  mk_options (IStr "") "" "" mode false pretty false false.

Definition st0 : state := mk_state [] [].

Definition input_range (lo hi : Q) : RangeInfo :=
  mk_ri (Some (VScalar lo, VScalar hi)) None None None false.

(** A range table in which [a] and [b] have ranges and the outputs [c] and
    [g] have fresh records. *)
Definition seeded : state :=
  mk_state [("a", input_range (-2) 3); ("b", input_range 0 15);
            ("c", RangeInfo_default); ("g", RangeInfo_default)] [].

End Fixture.

(** ** Elementwise midpoints and radii, row and column vectors *)

(** The data of [min + 0.5 * (max - min)] and of [midpoint - min] for two
    arrays of one shape. *)
Definition midpoints (dlo dhi : list Q) : list Q :=
  zip_with Qplus dlo
    (zip_with Qmult (replicate (length dlo) (1 # 2)) (zip_with Qminus dhi dlo)).

Definition radii (dlo dhi : list Q) : list Q :=
  zip_with Qminus (midpoints dlo dhi) dlo.

(** A [1 x k] and a [k x 1] matrix. *)
Definition row_vec (d : list Q) : value := VArray (mk_ndarray [1%nat; length d] d).
Definition col_vec (d : list Q) : value := VArray (mk_ndarray [length d; 1%nat] d).

(** [lo <= x <= hi] for a point and a pair of bounds. *)
Definition within (x : Q) (lh : Q * Q) : Prop := (fst lh <= x <= snd lh)%Q.

(** ** The passes of the preparation phase, the events of the graph walk,
       and the filters of the report *)

(** The graph rewrites that [range_analysis] applies before it walks the
    graph, in the order in which it applies them. *)
Definition preparation_passes (o : options) : list Transformation :=
  ((if do_cleanup o then [CleanupModel (Some false)] else [])
   ++ (if lower_ops o then [LowerConvsToMatMul; GemmToMatMul; CleanupModel None] else [])
   ++ [InferShapes; FoldConstants; InferDataTypes])%list.

Definition run_passes (transform : Transformation -> ModelWrapper -> result ModelWrapper)
    (passes : list Transformation) (model : ModelWrapper) : result ModelWrapper :=
  foldM_result (fun m t => transform t m) model passes.

Definition loading_events (mw : string + ModelWrapper) : list event :=
  match mw with inl path => [EvLoadModel path] | inr _ => [] end.

Definition saving_events (o : options) (model : ModelWrapper) : list event :=
  if decide (save_modified_model o = "") then []
  else [EvSaveModel (save_modified_model o) model].

Definition is_walk_event (e : event) : Prop :=
  match e with
  | EvExecuteNode _ _ | EvWarn _ => True
  | _ => False
  end.

(** Whether the range-mode report keeps the entry of a tensor. *)
Definition keep_in_report (o : options) (kv : string * RangeInfo) : bool :=
  negb (strip_initializers_from_report o && is_initializer (snd kv))
  && (bool_decide (key_filter o = "") || contains (key_filter o) (fst kv)).

(** The entries that the [zerostuck_channel] reduction keeps of a table of
    stuck channels. *)
Definition zero_entries (stuck : list (string * list (Z * Q))) : list (string * entry) :=
  flat_map (fun kv => if (0 <? length (only_zero (snd kv)))%nat
                      then [(fst kv, EZero (only_zero (snd kv)))] else [])
           stuck.

(** ** Fixtures: a matrix product followed by a datatype-bounded node *)

Module Layer.

Definition matmul_node : Node := mk_node "mm" "MatMul" ["x"; "W"] ["y"].
Definition norm_node : Node := mk_node "qn" "QuantMaxNorm" ["y"] ["z"].

Definition W : ndarray := mk_ndarray [2%nat; 1%nat] [1%Q; (-2)%Q].

(** [y = x W] with [x] of shape [1 x 2] and constant weights [W], then a
    node whose output [z] is annotated [UINT4]. *)
Definition graph : ModelWrapper :=
  mk_model 11 [mk_vi "x" [1%nat; 2%nat]] [matmul_node; norm_node] ["x"; "W"; "y"; "z"]
    (list_to_map [("W", W)])
    (list_to_map [("x", mk_vi "x" [1%nat; 2%nat]); ("W", mk_vi "W" [2%nat; 1%nat]);
                  ("y", mk_vi "y" [1%nat; 1%nat]); ("z", mk_vi "z" [1%nat; 1%nat])])
    (list_to_map [("x", Fixture.INT8); ("z", Fixture.UINT4)]).

Definition x_range : RangeInfo :=
  mk_ri (Some (VArray (mk_ndarray [1%nat; 2%nat] [(-1)%Q; 0%Q]),
               VArray (mk_ndarray [1%nat; 2%nat] [1%Q; 3%Q]))) None None None false.

(** A range table in which [x] has a range, [W] is seeded and [y] has a
    fresh record. *)
Definition table : state :=
  mk_state [("x", x_range); ("W", seeded_record W); ("y", RangeInfo_default)] [].

End Layer.

(** ** Elementwise order and monotone operators *)

(** [a <= b] elementwise, for two values of one shape. *)
Definition le_value (a b : value) : Prop :=
  exists x y, as_array a = Ok x /\ as_array b = Ok y /\ shape x = shape y
              /\ well_formed x /\ well_formed y /\ Forall2 Qle (data x) (data y).

(** With the node's constants in place, the output [k] grows (shrinks)
    elementwise with what the context holds for the input [x]. *)
Definition increasing_in
    (op_semantics : Node -> gmap string value -> ModelWrapper -> Z -> result (list value))
    (node : Node) (model : ModelWrapper) (x k : string) : Prop :=
  forall c c' a b oa ob,
    constants_fixed node model c -> constants_fixed node model c' ->
    c !! x = Some a -> c' !! x = Some b -> le_value a b ->
    output_value op_semantics node model c k = Some oa ->
    output_value op_semantics node model c' k = Some ob ->
    le_value oa ob.

Definition decreasing_in
    (op_semantics : Node -> gmap string value -> ModelWrapper -> Z -> result (list value))
    (node : Node) (model : ModelWrapper) (x k : string) : Prop :=
  forall c c' a b oa ob,
    constants_fixed node model c -> constants_fixed node model c' ->
    c !! x = Some a -> c' !! x = Some b -> le_value a b ->
    output_value op_semantics node model c k = Some oa ->
    output_value op_semantics node model c' k = Some ob ->
    le_value ob oa.

(** A range table for the [Relu] node of the small graph: its input [d] has
    a scalar range, its output [e] a fresh record. *)
Definition relu_table : state :=
  mk_state [("d", Fixture.input_range (-2) 3); ("e", RangeInfo_default)] [].

(** * Verification *)

(** ** Interval matrix multiplication on 1x1 operands *)

Section MatMul1x1.
Open Scope Q_scope.

Lemma add_mat11 x y : Np.add (mat11 x) (mat11 y) = Ok (mat11 (x + y)).
Proof. reflexivity. Qed.

Lemma sub_mat11 x y : Np.sub (mat11 x) (mat11 y) = Ok (mat11 (x - y)).
Proof. reflexivity. Qed.

Lemma abs_mat11 x : Np.abs (mat11 x) = Ok (mat11 (Qabs x)).
Proof. reflexivity. Qed.

Lemma matmul_mat11 x y : Np.matmul (mat11 x) (mat11 y) = Ok (mat11 (0 + x * y)).
Proof. reflexivity. Qed.

Lemma midpoint_radius_mat11 lo hi :
  range_to_midpoint_radius (Some (mat11 lo, mat11 hi))
  = Ok (mat11 (lo + (1 # 2) * (hi - lo)), mat11 (lo + (1 # 2) * (hi - lo) - lo)).
Proof. reflexivity. Qed.

Lemma calc_matmul_range_mat11 a_min a_max b_min b_max :
  let mA := a_min + (1 # 2) * (a_max - a_min) in
  let rA := mA - a_min in
  let mB := b_min + (1 # 2) * (b_max - b_min) in
  let rB := mB - b_min in
  let radius := (0 + rA * (Qabs mB + rB)) + (0 + Qabs mA * rB) in
  calc_matmul_range (Some (mat11 a_min, mat11 a_max)) (Some (mat11 b_min, mat11 b_max))
  = Ok (mat11 (0 + mA * mB - radius), mat11 (0 + mA * mB + radius)).
Proof. reflexivity. Qed.

(** A product of two points of the boxes stays within the radius of the
    product of the midpoints. *)
Lemma product_within_radius (m1 r1 m2 r2 a b : Q) :
  0 <= r1 -> 0 <= r2 -> m1 - r1 <= a <= m1 + r1 -> m2 - r2 <= b <= m2 + r2 ->
  Qabs (a * b - m1 * m2) <= r1 * (Qabs m2 + r2) + Qabs m1 * r2.
Proof.
  intros H1 H2 Ha Hb.
  apply Qabs_case; intros _; apply (Qabs_case m1); intros Hm1;
    apply (Qabs_case m2); intros Hm2; nra.
Qed.

Lemma fold_Qmin_ge (lo d : Q) (l : list Q) :
  lo <= d -> Forall (fun c => lo <= c) l -> lo <= fold_right Qmin d l.
Proof.
  intros Hd Hl. induction Hl as [|c l Hc _ IH]; simpl; [exact Hd|].
  apply Q.min_glb; assumption.
Qed.

Lemma fold_Qmax_le (hi d : Q) (l : list Q) :
  d <= hi -> Forall (fun c => c <= hi) l -> fold_right Qmax d l <= hi.
Proof.
  intros Hd Hl. induction Hl as [|c l Hc _ IH]; simpl; [exact Hd|].
  apply Q.max_lub; assumption.
Qed.

End MatMul1x1.

Section MatMul1x1Claims.
Open Scope Q_scope.

(** C4. For 1x1 input ranges with [a_min <= a_max] and [b_min <= b_max],
    under exact arithmetic [calc_matmul_range] returns a range whose
    midpoint is the product of the two input midpoints, which contains the
    four corner products, and whose radius is not smaller than the radius of
    the exact corner-enumeration range. *)
Theorem calc_matmul_range_1x1_sound (a_min a_max b_min b_max : Q) :
  a_min <= a_max -> b_min <= b_max ->
  exists mA rA mB rB lo hi mid rad,
    range_to_midpoint_radius (Some (mat11 a_min, mat11 a_max)) = Ok (mat11 mA, mat11 rA) /\
    range_to_midpoint_radius (Some (mat11 b_min, mat11 b_max)) = Ok (mat11 mB, mat11 rB) /\
    calc_matmul_range (Some (mat11 a_min, mat11 a_max)) (Some (mat11 b_min, mat11 b_max))
      = Ok (mat11 lo, mat11 hi) /\
    range_to_midpoint_radius (Some (mat11 lo, mat11 hi)) = Ok (mat11 mid, mat11 rad) /\
    mid == mA * mB /\
    Forall (fun c => lo <= c <= hi) (corner_products a_min a_max b_min b_max) /\
    exact_radius (corner_range a_min a_max b_min b_max) <= rad.
Proof.
  intros HA HB.
  do 8 eexists.
  split; [apply midpoint_radius_mat11|].
  split; [apply midpoint_radius_mat11|].
  split; [apply calc_matmul_range_mat11|].
  split; [apply midpoint_radius_mat11|].
  set (mA := a_min + (1 # 2) * (a_max - a_min)).
  set (mB := b_min + (1 # 2) * (b_max - b_min)).
  set (rA := mA - a_min). set (rB := mB - b_min).
  assert (HrA : 0 <= rA) by (unfold rA, mA; lra).
  assert (HrB : 0 <= rB) by (unfold rB, mB; lra).
  set (R := 0 + rA * (Qabs mB + rB) + (0 + Qabs mA * rB)).
  assert (Hc : Forall (fun c => 0 + mA * mB - R <= c <= 0 + mA * mB + R)
                      (corner_products a_min a_max b_min b_max)).
  { assert (Hp : forall a b, mA - rA <= a <= mA + rA -> mB - rB <= b <= mB + rB ->
                             0 + mA * mB - R <= a * b <= 0 + mA * mB + R).
    { intros a b Ha Hb.
      pose proof (product_within_radius mA rA mB rB a b HrA HrB Ha Hb) as Hab.
      apply Qabs_Qle_condition in Hab. unfold R. lra. }
    unfold corner_products.
    repeat constructor; apply Hp; unfold rA, rB, mA, mB; lra. }
  split; [lra|]. split; [exact Hc|].
  unfold exact_radius, corner_range; cbn [fst snd].
  assert (Hlo : 0 + mA * mB - R
                <= fold_right Qmin (a_min * b_min) (corner_products a_min a_max b_min b_max)).
  { apply fold_Qmin_ge.
    - inversion Hc as [|? ? [H _] _]; exact H.
    - eapply Forall_impl; [exact Hc|]. intros c [H _]; exact H. }
  assert (Hhi : fold_right Qmax (a_min * b_min) (corner_products a_min a_max b_min b_max)
                <= 0 + mA * mB + R).
  { apply fold_Qmax_le.
    - inversion Hc as [|? ? [_ H] _]; exact H.
    - eapply Forall_impl; [exact Hc|]. intros c [_ H]; exact H. }
  lra.
Qed.

Lemma calc_matmul_range_1x1_sound_witness :
  1 <= 3 /\ 1 <= 3 /\
  exists mA rA mB rB lo hi mid rad,
    range_to_midpoint_radius (Some (mat11 1, mat11 3)) = Ok (mat11 mA, mat11 rA) /\
    range_to_midpoint_radius (Some (mat11 1, mat11 3)) = Ok (mat11 mB, mat11 rB) /\
    calc_matmul_range (Some (mat11 1, mat11 3)) (Some (mat11 1, mat11 3)) = Ok (mat11 lo, mat11 hi) /\
    range_to_midpoint_radius (Some (mat11 lo, mat11 hi)) = Ok (mat11 mid, mat11 rad) /\
    mid == mA * mB /\
    Forall (fun c => lo <= c <= hi) (corner_products 1 3 1 3) /\
    exact_radius (corner_range 1 3 1 3) <= rad.
Proof.
  assert (H : 1 <= 3) by (vm_compute; discriminate).
  split; [exact H|]. split; [exact H|].
  exact (calc_matmul_range_1x1_sound 1 3 1 3 H H).
Defined.

End MatMul1x1Claims.

(** ** Broadcasting *)

Section Broadcasting.
Import Np.

Lemma length_indices s : length (indices s) = size s.
Proof.
  induction s as [|d t IH]; [reflexivity|].
  cbn [indices size fold_right]. fold (size t).
  generalize 0%nat. induction d as [|d IHd]; intros n; [reflexivity|].
  cbn [seq flat_map]. rewrite length_app, length_map, IH, IHd. lia.
Qed.

Lemma Forall_indices_length s : Forall (fun idx => length idx = length s) (indices s).
Proof.
  induction s as [|d t IH]; [repeat constructor|].
  cbn [indices]. apply Forall_flat_map. apply Forall_forall. intros i _.
  apply Forall_map. eapply Forall_impl; [exact IH|]. intros idx H. cbn. congruence.
Qed.

Lemma seq_blocks (m b d k: nat) :
  flat_map (fun i => seq ((b + i) * m) m) (seq k d) = seq ((b + k) * m) (d * m).
Proof.
  revert k. induction d as [|d IH]; intros k; [reflexivity|].
  cbn [seq flat_map]. rewrite IH. replace (S d * m)%nat with (m + d * m)%nat by lia.
  rewrite seq_app. f_equal. f_equal. lia.
Qed.

Lemma map_offset_from s : forall acc,
  map (offset_from acc s) (indices s) = seq (acc * size s) (size s).
Proof.
  induction s as [|d t IH]; intros acc.
  - cbn. f_equal. lia.
  - cbn [indices size fold_right]. fold (size t).
    assert (Hl : forall l, Forall (fun i => (i < d)%nat) l ->
               map (offset_from acc (d :: t)) (flat_map (fun i => map (cons i) (indices t)) l)
               = flat_map (fun i => seq ((acc * d + i) * size t) (size t)) l).
    { induction 1 as [|i l Hi _ IHl]; [reflexivity|].
      cbn [flat_map]. rewrite map_app, IHl. f_equal.
      rewrite map_map. rewrite <- IH. apply map_ext. intros idx.
      unfold offset_from. cbn [combine fold_left].
      destruct (Nat.eqb_spec d 1) as [->|Hd]; [|reflexivity].
      replace i with 0%nat by lia. reflexivity. }
    rewrite Hl.
    + rewrite (seq_blocks (size t) (acc * d) d 0). f_equal; lia.
    + apply Forall_forall. intros i Hi. apply list_elem_of_In, in_seq in Hi. lia.
Qed.

Lemma offset_full s idx : length idx = length s -> offset s idx = offset_from 0 s idx.
Proof. intros H. unfold offset, offset_from. rewrite H, Nat.sub_diag. reflexivity. Qed.

Lemma map_nth_seq (d : list Q) : map (fun i => nth i d 0%Q) (seq 0 (length d)) = d.
Proof.
  induction d as [|x d IH]; [reflexivity|].
  cbn [length seq map nth]. f_equal. rewrite <- seq_shift, map_map. exact IH.
Qed.

Lemma broadcast_to_self (a : ndarray) :
  length (data a) = size (shape a) -> broadcast_to a (shape a) = data a.
Proof.
  intros Hwf. unfold broadcast_to.
  transitivity (map (fun i => nth i (data a) 0%Q)
                    (map (offset_from 0 (shape a)) (indices (shape a)))).
  - rewrite map_map. apply Forall_fmap_ext_1.
    eapply Forall_impl; [apply Forall_indices_length|].
    intros idx H. cbn beta. rewrite offset_full by exact H. reflexivity.
  - rewrite map_offset_from, Nat.mul_0_l, <- Hwf. apply map_nth_seq.
Qed.

Lemma broadcast_to_one (x : Q) (s : list nat) :
  broadcast_to (mk_ndarray [1%nat] [x]) s = replicate (size s) x.
Proof.
  unfold broadcast_to. cbn [shape data]. rewrite <- length_indices.
  induction (indices s) as [|idx l IH]; [reflexivity|].
  cbn [map length replicate]. f_equal; [|exact IH].
  unfold offset. destruct (drop (length idx - length [1%nat]) idx) as [|i r]; [reflexivity|].
  cbn. destruct r; reflexivity.
Qed.

Lemma rev_cons_inv (s : list nat) d t : rev s = d :: t -> s = rev (d :: t) /\ s <> [].
Proof.
  intros Hrev. split.
  - rewrite <- Hrev, rev_involutive. reflexivity.
  - intros ->. discriminate Hrev.
Qed.

Lemma broadcast_shapes_one_l (s : list nat) :
  broadcast_shapes [1%nat] s = Some (match s with [] => [1%nat] | _ => s end).
Proof.
  unfold broadcast_shapes. cbn [rev app].
  destruct (rev s) as [|d t] eqn:Hrev.
  - apply (f_equal (@rev nat)) in Hrev. rewrite rev_involutive in Hrev. subst s. reflexivity.
  - destruct (rev_cons_inv _ _ _ Hrev) as [Hs Hne].
    cbn [broadcast_rev].
    destruct (Nat.eqb_spec 1 d) as [<-|Hd]; [|rewrite Nat.eqb_refl];
      rewrite <- Hs; destruct s; done.
Qed.

Lemma broadcast_shapes_one_r (s : list nat) :
  s <> [] -> broadcast_shapes s [1%nat] = Some s.
Proof.
  intros Hne. unfold broadcast_shapes. cbn [rev app].
  destruct (rev s) as [|d t] eqn:Hrev.
  - apply (f_equal (@rev nat)) in Hrev. rewrite rev_involutive in Hrev. done.
  - destruct (rev_cons_inv _ _ _ Hrev) as [Hs _].
    cbn [broadcast_rev].
    assert (Ht : broadcast_rev t [] = Some t) by (destruct t; reflexivity).
    rewrite Ht.
    destruct (Nat.eqb_spec d 1) as [->|Hd]; [rewrite <- Hs; reflexivity|].
    destruct (Nat.eqb_spec d 1) as [->|_]; [done|].
    rewrite Nat.eqb_refl, <- Hs. reflexivity.
Qed.

Lemma broadcast_shapes_same (s : list nat) : broadcast_shapes s s = Some s.
Proof.
  unfold broadcast_shapes.
  assert (H : forall r, broadcast_rev r r = Some r).
  { induction r as [|d t IH]; [reflexivity|]. cbn [broadcast_rev].
    rewrite IH, Nat.eqb_refl. reflexivity. }
  rewrite H, rev_involutive. reflexivity.
Qed.

(** [scale * c + bias] with [scale = [1.0]] and [bias = [0.0]] gives back [c]
    elementwise. *)
Lemma affine_identity (c : ndarray) :
  well_formed c ->
  exists p v a,
    Np.mul (VArray (mk_ndarray [1%nat] [1%Q])) (VArray c) = Ok p /\
    Np.add p (VArray (mk_ndarray [1%nat] [0%Q])) = Ok v /\
    as_array v = Ok a /\
    Forall2 Qeq (data a) (data c).
Proof.
  intros Hwf. unfold Np.mul, Np.add, ufunc2, map2. cbn [as_array mbind result_bind shape].
  rewrite broadcast_shapes_one_l, broadcast_to_one.
  destruct (shape c) as [|d t] eqn:Hs.
  - (* rank 0 *)
    unfold well_formed in Hwf. rewrite Hs in Hwf. cbn in Hwf.
    destruct (data c) as [|q [|? ?]] eqn:Hd; try discriminate Hwf.
    do 3 eexists. split; [reflexivity|]. 
    unfold broadcast_to. rewrite Hs, Hd. cbn.
    split; [reflexivity|]. split; [reflexivity|].
    cbn. constructor; [|constructor]. ring.
  - rewrite <- Hs. rewrite broadcast_to_self by exact Hwf.
    assert (Hw : forall dd, wrap (mk_ndarray (shape c) dd) = VArray (mk_ndarray (shape c) dd)).
    { intros dd. unfold wrap. cbn [shape]. rewrite Hs. reflexivity. }
    do 3 eexists. split; [cbn [mbind result_bind mret result_ret]; reflexivity|].
    rewrite Hw. cbn [as_array mbind result_bind shape].
    rewrite broadcast_shapes_one_r by (rewrite Hs; discriminate).
    cbn [mbind result_bind mret result_ret]. rewrite Hw.
    split; [reflexivity|]. split; [reflexivity|]. cbn [data].
    rewrite broadcast_to_one.
    rewrite (broadcast_to_self (mk_ndarray (shape c) _)).
    2:{ cbn [data shape]. rewrite length_zip_with, length_replicate. unfold well_formed in Hwf. lia. }
    cbn [data]. unfold well_formed in Hwf. rewrite <- Hwf.
    clear. induction (data c) as [|q l IH]; [constructor|].
    cbn. constructor; [ring|exact IH].
Qed.

(** On arrays of one shape a binary ufunc works element by element. *)
Lemma map2_same_shape (f : Q -> Q -> Q) (a b : ndarray) :
  shape b = shape a -> well_formed a -> well_formed b ->
  map2 f a b = Ok (mk_ndarray (shape a) (zip_with f (data a) (data b))).
Proof.
  intros Hs Ha Hb. unfold map2. rewrite Hs, broadcast_shapes_same.
  rewrite (broadcast_to_self a Ha). rewrite <- Hs, (broadcast_to_self b Hb). reflexivity.
Qed.

Lemma is_integral_spec (q : Q) :
  is_integral q = true <-> exists z : Z, (q == inject_Z z)%Q.
Proof.
  unfold is_integral. rewrite Qeq_bool_iff. split.
  - intros H. exists (Qfloor q). lra.
  - intros [z Hz]. rewrite Hz at 2. rewrite Qfloor_Z. lra.
Qed.

End Broadcasting.

(** ** The state-and-error monad *)

Lemma bind_Ok {A B} (m : M A) (f : A -> M B) (st st' : state) (b : B) :
  (m ≫= f) st = (Ok b, st') ->
  exists a st1, m st = (Ok a, st1) /\ f a st1 = (Ok b, st').
Proof.
  unfold mbind, M_bind. destruct (m st) as [[a|e] st1]; intros H.
  - exists a, st1. split; [reflexivity|exact H].
  - discriminate H.
Qed.

Lemma bind_run_Ok {A B} (m : M A) (f : A -> M B) (st st1 : state) (a : A) :
  m st = (Ok a, st1) -> (m ≫= f) st = f a st1.
Proof. intros H. unfold mbind, M_bind. rewrite H. reflexivity. Qed.

Lemma bind_run_Raise {A B} (m : M A) (f : A -> M B) (st st1 : state) (e : PyError) :
  m st = (Raise e, st1) -> (m ≫= f) st = (Raise e, st1).
Proof. intros H. unfold mbind, M_bind. rewrite H. reflexivity. Qed.

Lemma lift_Ok {A} (r : result A) (st st' : state) (a : A) :
  lift r st = (Ok a, st') -> r = Ok a /\ st' = st.
Proof. unfold lift. intros H. inversion H. auto. Qed.

Lemma ret_Ok {A} (x a : A) (st st' : state) :
  (mret x : M A) st = (Ok a, st') -> a = x /\ st' = st.
Proof. unfold mret, M_ret. intros H. inversion H. auto. Qed.

Lemma result_bind_Ok {A B} (m : result A) (f : A -> result B) (b : B) :
  m ≫= f = Ok b -> exists a, m = Ok a /\ f a = Ok b.
Proof. destruct m as [a|e]; intros H; [exists a; auto | discriminate H]. Qed.

(** Splits a successful run of a sequence of binds into its steps. *)
Ltac inv_bind H :=
  let a := fresh "a" in
  let st := fresh "st" in
  let H1 := fresh "Hrun" in
  apply bind_Ok in H; destruct H as (a & st & H1 & H).

(** ** Dictionaries and the range table *)

Lemma dict_get_set_eq {V} (k : string) (v : V) (d : list (string * V)) :
  dict_get k (dict_set k v d) = Some v.
Proof.
  induction d as [|[k' v'] d IH]; cbn.
  - rewrite decide_True by reflexivity. reflexivity.
  - destruct (decide (k = k')) as [->|Hne]; cbn.
    + rewrite decide_True by reflexivity. reflexivity.
    + rewrite decide_False by exact Hne. exact IH.
Qed.

Lemma dict_get_set_ne {V} (k k' : string) (v : V) (d : list (string * V)) :
  k <> k' -> dict_get k' (dict_set k v d) = dict_get k' d.
Proof.
  intros Hne. induction d as [|[k0 v0] d IH]; cbn.
  - rewrite decide_False by congruence. reflexivity.
  - destruct (decide (k = k0)) as [->|Hne0]; cbn.
    + rewrite !decide_False by congruence. reflexivity.
    + destruct (decide (k' = k0)); [reflexivity|exact IH].
Qed.

Lemma dict_set_set {V} (k : string) (v v' : V) (d : list (string * V)) :
  dict_set k v (dict_set k v' d) = dict_set k v d.
Proof.
  induction d as [|[k0 v0] d IH]; cbn.
  - rewrite decide_True by reflexivity. reflexivity.
  - destruct (decide (k = k0)) as [->|Hne]; cbn.
    + rewrite decide_True by reflexivity. reflexivity.
    + rewrite decide_False by exact Hne. rewrite IH. reflexivity.
Qed.

Lemma rd_get_run (k : string) (st : state) (r : RangeInfo) :
  dict_get k (range_dict st) = Some r -> rd_get k st = (Ok r, st).
Proof. intros H. unfold rd_get. rewrite H. reflexivity. Qed.

Lemma rd_get_Ok (k : string) (st st' : state) (r : RangeInfo) :
  rd_get k st = (Ok r, st') -> dict_get k (range_dict st) = Some r /\ st' = st.
Proof.
  unfold rd_get. destruct (dict_get k (range_dict st)); intros H; inversion H; auto.
Qed.

Lemma rd_update_run (k : string) (f : RangeInfo -> RangeInfo) (st : state) (r : RangeInfo) :
  dict_get k (range_dict st) = Some r ->
  rd_update k f st = (Ok tt, mk_state (dict_set k (f r) (range_dict st)) (events st)).
Proof.
  intros H. unfold rd_update, mbind, M_bind. rewrite (rd_get_run _ _ _ H). reflexivity.
Qed.

Lemma rd_update_Ok (k : string) (f : RangeInfo -> RangeInfo) (st st' : state) :
  rd_update k f st = (Ok tt, st') ->
  exists r, dict_get k (range_dict st) = Some r
            /\ st' = mk_state (dict_set k (f r) (range_dict st)) (events st).
Proof.
  intros H. unfold rd_update in H. inv_bind H. apply rd_get_Ok in Hrun.
  destruct Hrun as [Hget ->]. exists a. split; [exact Hget|].
  unfold rd_set in H. inversion H. reflexivity.
Qed.

Tactic Notation "split_bind" hyp(H) "as" ident(a) ident(st) ident(H1) :=
  apply bind_Ok in H; destruct H as (a & st & H1 & H).

Section Proofs.

#[local] Set Default Proof Using "Type".

Context (op_semantics : Node -> gmap string value -> ModelWrapper -> Z -> result (list value)).
Context (transform : Transformation -> ModelWrapper -> result ModelWrapper).
Context (load_model : string -> result ModelWrapper).
Context (py_eval : string -> result (value * value)).
Context (pformat : list (string * entry) -> string).
Context (str_report_modes : string).

Local Notation "'analysis'" := (range_analysis op_semantics transform load_model py_eval pformat
                        str_report_modes).
Local Notation "'analysis_body'" := (range_analysis_body op_semantics transform load_model py_eval
                             pformat).

(** C10. A [report_mode] outside the three enumerated values makes
    [range_analysis] fail with the descriptive assertion message and leaves
    the state untouched: no event (model loading, graph rewriting, node
    execution) has happened. For a value of the enumeration the entry check
    passes and the run continues with the rest of the function. *)
Theorem report_mode_checked_at_entry (mw : string + ModelWrapper) (o : options) (st : state) :
  (report_mode o ∉ report_modes ->
     analysis mw o st
     = (Raise (AssertionError ("Unrecognized report_mode, must be " ++ str_report_modes)), st))
  /\ (report_mode o ∈ report_modes ->
        py_assert (bool_decide (report_mode o ∈ report_modes))
                  (report_mode_message str_report_modes) st = (Ok tt, st)
        /\ analysis mw o st = analysis_body mw o st).
Proof.
  split; intros Hmode; unfold range_analysis, py_assert.
  - rewrite bool_decide_eq_false_2 by exact Hmode. reflexivity.
  - rewrite bool_decide_eq_true_2 by exact Hmode. split; reflexivity.
Qed.

Lemma filter_keys_nil {V} (kf : string) : filter_keys kf ([] : list (string * V)) = [].
Proof. unfold filter_keys. destruct (decide (kf = "")); reflexivity. Qed.

Lemma make_report_stuck (o : options) (range_table : list (string * RangeInfo)) :
  report_mode o = REPORT_MODE_STUCKCHANNEL \/ report_mode o = REPORT_MODE_ZEROSTUCKCHANNEL ->
  make_report pformat o range_table []
  = Ok (if prettyprint o then RText (pformat []) else RDict []).
Proof.
  intros Hmode. unfold make_report.
  rewrite bool_decide_eq_true_2
    by (destruct Hmode as [-> | ->]; [right; left | left]).
  cbn [map]. rewrite !filter_keys_nil.
  destruct Hmode as [-> | ->]; cbn; destruct (prettyprint o); reflexivity.
Qed.

(** C9. A run of [range_analysis] in [stuck_channel] or
    [zerostuck_channel] mode that completes returns the empty mapping, or
    its pretty-printed rendering when [prettyprint] is set. *)
Theorem stuck_channel_report_empty (mw : string + ModelWrapper) (o : options)
    (st st' : state) (rep : report) :
  report_mode o = REPORT_MODE_STUCKCHANNEL \/ report_mode o = REPORT_MODE_ZEROSTUCKCHANNEL ->
  analysis mw o st = (Ok rep, st') ->
  rep = if prettyprint o then RText (pformat []) else RDict [].
Proof.
  intros Hmode Hrun. unfold range_analysis in Hrun.
  inv_bind Hrun. unfold range_analysis_body in Hrun.
  inv_bind Hrun. inv_bind Hrun. destruct a1 as [[range_min range_max] ir].
  do 10 inv_bind Hrun.
  apply lift_Ok in Hrun. destruct Hrun as [Hrep _].
  rewrite make_report_stuck in Hrep by exact Hmode.
  inversion Hrep. reflexivity.
Qed.

Lemma dict_mem_true {V} (k : string) (d : list (string * V)) :
  dict_mem k d = true <-> is_Some (dict_get k d).
Proof.
  unfold dict_mem. rewrite bool_decide_eq_true.
  destruct (dict_get k d) as [v|]; split; intros H.
  - eexists; reflexivity.
  - discriminate.
  - exfalso; apply H; reflexivity.
  - destruct H as [v H]; discriminate H.
Qed.

Lemma dict_mem_false {V} (k : string) (d : list (string * V)) :
  dict_mem k d = false <-> dict_get k d = None.
Proof.
  unfold dict_mem. rewrite bool_decide_eq_false.
  destruct (dict_get k d) as [v|]; split; intros H.
  - exfalso. apply H. discriminate.
  - discriminate H.
  - reflexivity.
  - intros Hn. apply Hn. reflexivity.
Qed.

Lemma inprange_ok_true (model : ModelWrapper) (node : Node) (rd : list (string * RangeInfo)) :
  forallb (fun x => dict_mem x rd) (filter (fun x => is_dyn_input x model = true) (input node))
  = true
  <-> (forall x, x ∈ input node -> is_dyn_input x model = true -> is_Some (dict_get x rd)).
Proof.
  rewrite forallb_forall. split.
  - intros H x Hin Hdyn. apply dict_mem_true, H, list_elem_of_In.
    apply list_elem_of_filter. auto.
  - intros H x Hin. apply list_elem_of_In, list_elem_of_filter in Hin.
    destruct Hin as [Hdyn Hin]. apply dict_mem_true. auto.
Qed.

(** C8. A node whose operator type is not in the dispatch table, or one of
    whose dynamic inputs has no entry in the range table, is skipped: the
    step succeeds, its only effect is one warning that carries the node
    name, the operator type and the two precondition flags (at least one of
    them [False]), the range table is left as it was (so no entry is created
    for the node's outputs), and the walk goes on with the next node. *)
Theorem skipped_node_is_not_fatal (model : ModelWrapper) (node : Node) (rest : list Node)
    (st : state) :
  let dyn_inputs := filter (fun x => is_dyn_input x model = true) (input node) in
  let inprange_ok := forallb (fun x => dict_mem x (range_dict st)) dyn_inputs in
  let op_ok := dict_mem (op_type node) optype_to_range_calc in
  let st' := mk_state (range_dict st)
               (events st ++ [EvWarn ("Skipping " ++ name node ++ " : inp_range? "
                                        ++ str_bool inprange_ok ++ " op_ok? ("
                                        ++ op_type node ++ ") " ++ str_bool op_ok)]) in
  (dict_get (op_type node) optype_to_range_calc = None
   \/ exists x, x ∈ input node /\ is_dyn_input x model = true
                /\ dict_get x (range_dict st) = None) ->
  walk_node op_semantics model node st = (Ok tt, st')
  /\ (inprange_ok = false \/ op_ok = false)
  /\ (inprange_ok = true <->
      forall x, x ∈ input node -> is_dyn_input x model = true ->
                is_Some (dict_get x (range_dict st)))
  /\ (op_ok = true <-> is_Some (dict_get (op_type node) optype_to_range_calc))
  /\ (forall o, o ∈ output node ->
        dict_get o (range_dict st') = dict_get o (range_dict st))
  /\ for_each (walk_node op_semantics model) (node :: rest) st
     = for_each (walk_node op_semantics model) rest st'.
Proof.
  intros dyn_inputs inprange_ok op_ok st' Hskip.
  assert (Hflags : inprange_ok = false \/ op_ok = false).
  { destruct Hskip as [Hop | (x & Hin & Hdyn & Hx)].
    - right. apply dict_mem_false. exact Hop.
    - left. apply not_true_is_false. intros Hok.
      pose proof (proj1 (inprange_ok_true model node (range_dict st)) Hok x Hin Hdyn)
        as [r Hr].
      congruence. }
  assert (Hwalk : walk_node op_semantics model node st = (Ok tt, st')).
  { unfold walk_node, mbind, M_bind, get_range_dict.
    fold dyn_inputs. fold inprange_ok. fold op_ok. unfold st'.
    clearbody inprange_ok op_ok.
    destruct Hflags as [-> | ->]; [|rewrite andb_false_r]; reflexivity. }
  split; [exact Hwalk|]. split; [exact Hflags|].
  split; [apply inprange_ok_true|]. split; [apply dict_mem_true|].
  split; [reflexivity|].
  cbn [for_each]. unfold mbind at 1, M_bind at 1. rewrite Hwalk. reflexivity.
Qed.

(** *** Initializer seeding *)

Lemma seed_initializer_run (model : ModelWrapper) (tensor_name : string) (st : state) :
  seed_initializer model tensor_name st
  = (Ok tt, match get_initializer model tensor_name with
            | None => st
            | Some c => mk_state (dict_set tensor_name (seeded_record c) (range_dict st))
                                 (events st)
            end).
Proof.
  unfold seed_initializer, seeded_record.
  destruct (get_initializer model tensor_name) as [c|]; [|reflexivity].
  unfold mbind at 1, M_bind at 1, rd_set at 1.
  destruct (all_integral c); [|reflexivity].
  unfold mbind, M_bind.
  erewrite rd_update_run by (cbn [range_dict]; apply dict_get_set_eq).
  cbn [range_dict events]. rewrite dict_set_set.
  erewrite rd_update_run by (cbn [range_dict]; apply dict_get_set_eq).
  cbn [range_dict events]. rewrite dict_set_set.
  erewrite rd_update_run by (cbn [range_dict]; apply dict_get_set_eq).
  cbn [range_dict events]. rewrite dict_set_set. reflexivity.
Qed.

Lemma calc_range_all_initializers_run (model : ModelWrapper) (names : list string) :
  forall st, exists st',
    for_each (seed_initializer model) names st = (Ok tt, st')
    /\ events st' = events st
    /\ forall k,
         dict_get k (range_dict st')
         = match get_initializer model k with
           | Some c => if bool_decide (k ∈ names) then Some (seeded_record c)
                       else dict_get k (range_dict st)
           | None => dict_get k (range_dict st)
           end.
Proof.
  induction names as [|x names IH]; intros st.
  - exists st. split; [reflexivity|]. split; [reflexivity|].
    intros k. destruct (get_initializer model k); reflexivity.
  - cbn [for_each]. unfold mbind at 1, M_bind at 1. rewrite seed_initializer_run.
    set (st1 := match get_initializer model x with None => st | Some c => _ end).
    destruct (IH st1) as (st' & Hrun & Hev & Hget).
    exists st'. split; [exact Hrun|]. split.
    { rewrite Hev. unfold st1. destruct (get_initializer model x); reflexivity. }
    intros k. rewrite Hget. destruct (decide (k = x)) as [->|Hne].
    + unfold st1. destruct (get_initializer model x) as [c|] eqn:Hx; [|reflexivity].
      rewrite (bool_decide_eq_true_2 (x ∈ x :: names)) by left.
      cbn [range_dict]. rewrite dict_get_set_eq. destruct (bool_decide _); reflexivity.
    + assert (Hst1 : dict_get k (range_dict st1) = dict_get k (range_dict st)).
      { unfold st1. destruct (get_initializer model x); [|reflexivity].
        cbn [range_dict]. apply dict_get_set_ne. congruence. }
      rewrite Hst1. destruct (get_initializer model k); [|reflexivity].
      assert (Hin : bool_decide (k ∈ x :: names) = bool_decide (k ∈ names)).
      { apply bool_decide_ext. rewrite elem_of_cons.
        split; [intros [Heq|Hk]; [congruence|exact Hk] | intros Hk; right; exact Hk]. }
      rewrite Hin. reflexivity.
Qed.

(** C6. Initializer seeding always succeeds and, for every tensor name of
    the graph with a registered constant [c], leaves a record with range
    [(c, c)] and [is_initializer = true]. The record carries
    [int_range = (c, c)], [scale = [1.0]] and [bias = [0.0]] exactly when
    every element of [c] is an integer (its value modulo 1 is 0), and then
    [scale * int_range + bias] equals the range elementwise; otherwise the
    three fields stay absent. *)
Theorem initializer_seeding (model : ModelWrapper) (st : state) :
  exists st',
    calc_range_all_initializers model st = (Ok tt, st')
    /\ events st' = events st
    /\ forall tensor_name c,
         tensor_name ∈ all_tensor_names model ->
         get_initializer model tensor_name = Some c ->
         exists r,
           dict_get tensor_name (range_dict st') = Some r
           /\ range r = Some (VArray c, VArray c)
           /\ is_initializer r = true
           /\ ((Forall (fun q => exists z : Z, (q == inject_Z z)%Q) (data c) ->
                int_range r = Some (VArray c, VArray c)
                /\ scale r = Some (mk_ndarray [1%nat] [1%Q])
                /\ bias r = Some (mk_ndarray [1%nat] [0%Q])
                /\ has_integer_info r = true
                /\ (well_formed c ->
                    exists p v a,
                      Np.mul (VArray (mk_ndarray [1%nat] [1%Q])) (VArray c) = Ok p
                      /\ Np.add p (VArray (mk_ndarray [1%nat] [0%Q])) = Ok v
                      /\ as_array v = Ok a
                      /\ Forall2 Qeq (data a) (data c)))
               /\ (~ Forall (fun q => exists z : Z, (q == inject_Z z)%Q) (data c) ->
                   int_range r = None /\ scale r = None /\ bias r = None
                   /\ has_integer_info r = false)).
Proof.
  unfold calc_range_all_initializers.
  destruct (calc_range_all_initializers_run model (all_tensor_names model) st)
    as (st' & Hrun & Hev & Hget).
  exists st'. split; [exact Hrun|]. split; [exact Hev|].
  intros tensor_name c Hin Hc. exists (seeded_record c).
  rewrite Hget, Hc, bool_decide_eq_true_2 by exact Hin.
  split; [reflexivity|].
  assert (Hint : all_integral c = true
                 <-> Forall (fun q => exists z : Z, (q == inject_Z z)%Q) (data c)).
  { unfold all_integral. rewrite forallb_forall, Forall_forall.
    split; intros H q Hq.
    - apply is_integral_spec. apply H. apply list_elem_of_In. exact Hq.
    - apply is_integral_spec. apply H. apply list_elem_of_In. exact Hq. }
  unfold seeded_record. destruct (all_integral c) eqn:Hall; cbn.
  - split; [reflexivity|]. split; [reflexivity|]. split.
    + intros _. repeat (split; [reflexivity|]). apply affine_identity.
    + intros Hn. exfalso. apply Hn, Hint. reflexivity.
  - split; [reflexivity|]. split; [reflexivity|]. split.
    + intros Hall'. apply Hint in Hall'. discriminate Hall'.
    + intros _. repeat split.
Qed.

(** *** Monotonic propagation: the execution context *)

Lemma list_get_Ok (l : list string) (i : nat) (x : string) (st st' : state) :
  list_get l i st = (Ok x, st') -> l !! i = Some x /\ st' = st.
Proof.
  unfold list_get. destruct (l !! i); intros H; [|discriminate H].
  apply ret_Ok in H. destruct H as [-> ->]. auto.
Qed.


Lemma placeholders_Ok (model : ModelWrapper) (onames : list string) :
  forall (c c' : gmap string value) (st st' : state),
    foldM (fun c oname =>
             t ← lift (valueinfo_to_tensor (get_tensor_valueinfo model oname));
             mret (<[oname := VArray t]> c)) c onames st = (Ok c', st') ->
    st' = st
    /\ (forall x, x ∉ onames -> c' !! x = c !! x)
    /\ (forall x, x ∈ onames -> is_Some (c' !! x)).
Proof.
  induction onames as [|o onames IH]; intros c c' st st' H.
  - apply ret_Ok in H. destruct H as [-> ->].
    split; [reflexivity|]. split; [reflexivity|]. intros x Hx. inversion Hx.
  - cbn [foldM] in H. inv_bind H. inv_bind Hrun.
    apply lift_Ok in Hrun0. destruct Hrun0 as [_ ->].
    apply ret_Ok in Hrun. destruct Hrun as [-> ->].
    apply IH in H. destruct H as (-> & Hout & Hin).
    split; [reflexivity|]. split.
    + intros x Hx. rewrite Hout by (intros Hx'; apply Hx; right; exact Hx').
      apply lookup_insert_ne. intros ->. apply Hx. left.
    + intros x Hx. destruct (decide (x ∈ onames)) as [Hx'|Hx']; [apply Hin, Hx'|].
      rewrite Hout by exact Hx'. apply elem_of_cons in Hx.
      destruct Hx as [->|Hx]; [|contradiction].
      rewrite lookup_insert_eq. eauto.
Qed.

Lemma init_context_lookup (model : ModelWrapper) (node : Node) (x : string) :
  x ∈ input node -> init_context model node !! x = Some (init_value model x).
Proof.
  unfold init_context. generalize (∅ : gmap string value).
  induction (input node) as [|y l IH]; intros c Hx; [inversion Hx|].
  cbn [fold_left]. destruct (decide (x ∈ l)) as [Hl|Hl]; [apply IH, Hl|].
  apply elem_of_cons in Hx. destruct Hx as [->|Hx]; [|contradiction].
  assert (Hkeep : forall l (c : gmap string value) v, y ∉ l ->
            c !! y = Some v ->
            fold_left (fun c x => <[x := init_value model x]> c) l c !! y = Some v).
  { clear. induction l as [|z l IH]; intros c v Hy Hc; [exact Hc|].
    cbn [fold_left]. apply IH.
    - intros H. apply Hy. right. exact H.
    - rewrite lookup_insert_ne; [exact Hc|]. intros ->. apply Hy. left. }
  apply Hkeep; [exact Hl|]. apply lookup_insert_eq.
Qed.

Lemma write_outputs_other (onames : list string) (outs : list value) :
  forall (ctx : gmap string value) (x : string),
    x ∉ onames -> write_outputs ctx onames outs !! x = ctx !! x.
Proof.
  unfold write_outputs. revert outs.
  induction onames as [|o onames IH]; intros outs ctx x Hx; [reflexivity|].
  destruct outs as [|v outs]; [reflexivity|]. cbn [zip zip_with fold_left].
  change (zip_with pair onames outs) with (zip onames outs).
  rewrite IH by (intros H; apply Hx; right; exact H).
  apply lookup_insert_ne. intros ->. apply Hx. left.
Qed.

Lemma execute_node_Ok (node : Node) (ctx ctx' : gmap string value) (model : ModelWrapper)
    (opset : Z) (st st' : state) :
  execute_node op_semantics node ctx model opset st = (Ok ctx', st') ->
  exists outs,
    op_semantics node ctx model opset = Ok outs
    /\ ctx' = write_outputs ctx (output node) outs
    /\ st' = mk_state (range_dict st) (events st ++ [EvExecuteNode node ctx]).
Proof.
  intros H. unfold execute_node in H. inv_bind H. inv_bind H.
  unfold emit in Hrun. inversion Hrun; subst.
  apply lift_Ok in Hrun0. destruct Hrun0 as [Hop ->].
  apply ret_Ok in H. destruct H as [-> ->].
  exists a0. auto.
Qed.

(** *** Monotonic propagation: all inputs constant *)

Lemma degenerate_assign (ctx : gmap string value) (onames : list string) :
  forall st st',
    for_each (fun oname =>
                v ← ctx_get ctx oname;
                _ ← rd_update oname (set_range (Some (v, v)));
                rd_update oname (set_is_initializer true)) onames st = (Ok tt, st') ->
    events st' = events st
    /\ forall k,
         if bool_decide (k ∈ onames)
         then exists r0 v, dict_get k (range_dict st) = Some r0 /\ ctx !! k = Some v
                           /\ dict_get k (range_dict st') = Some (degenerate v r0)
         else dict_get k (range_dict st') = dict_get k (range_dict st).
Proof.
  induction onames as [|o onames IH]; intros st st' H.
  - apply ret_Ok in H. destruct H as [_ ->]. split; [reflexivity|].
    intros k. rewrite bool_decide_eq_false_2 by (intros Hk; inversion Hk). reflexivity.
  - cbn [for_each] in H. inv_bind H. inv_bind Hrun. inv_bind Hrun.
    unfold ctx_get in Hrun0. destruct (ctx !! o) as [v|] eqn:Hv; [|discriminate Hrun0].
    apply ret_Ok in Hrun0. destruct Hrun0 as [-> ->].
    destruct a1. apply rd_update_Ok in Hrun1. destruct Hrun1 as (r0 & Hr0 & ->).
    destruct a. apply rd_update_Ok in Hrun. destruct Hrun as (r1 & Hr1 & ->).
    cbn [range_dict events] in *. rewrite dict_get_set_eq in Hr1. inversion Hr1; subst r1.
    rewrite dict_set_set in H.
    change (set_is_initializer true (set_range (Some (v, v)) r0)) with (degenerate v r0) in H.
    apply IH in H. cbn [range_dict events] in H. destruct H as [Hev Hk].
    split; [exact Hev|]. intros k. specialize (Hk k).
    destruct (decide (k = o)) as [->|Hne].
    + rewrite bool_decide_eq_true_2 by left. exists r0, v.
      split; [exact Hr0|]. split; [exact Hv|].
      rewrite dict_get_set_eq in Hk. destruct (bool_decide (o ∈ onames)).
      * destruct Hk as (r0' & v' & Hr0' & Hv' & Hk). inversion Hr0'; subst r0'.
        rewrite Hv in Hv'. inversion Hv'; subst v'. exact Hk.
      * exact Hk.
    + rewrite dict_get_set_ne in Hk by congruence.
      assert (Hin : bool_decide (k ∈ o :: onames) = bool_decide (k ∈ onames)).
      { apply bool_decide_ext. rewrite elem_of_cons.
        split; [intros [Heq|Hk']; [congruence|exact Hk'] | intros Hk'; right; exact Hk']. }
      rewrite Hin. exact Hk.
Qed.

Lemma calc_monotonic_range_degenerate (node : Node) (model : ModelWrapper) (st st' : state) :
  filter (fun x => is_dyn_input x model = true) (input node) = [] ->
  calc_monotonic_range op_semantics node model st = (Ok tt, st') ->
  exists ctx outs,
    events st' = (events st ++ [EvExecuteNode node ctx])%list
    /\ (forall x, x ∈ input node -> x ∉ output node -> ctx !! x = Some (init_value model x))
    /\ op_semantics node ctx model (opset_version model) = Ok outs
    /\ forall k,
         if bool_decide (k ∈ output node)
         then exists r0 v,
                dict_get k (range_dict st) = Some r0
                /\ write_outputs ctx (output node) outs !! k = Some v
                /\ dict_get k (range_dict st') = Some (degenerate v r0)
         else dict_get k (range_dict st') = dict_get k (range_dict st).
Proof.
  intros Hdyn H. unfold calc_monotonic_range in H. rewrite Hdyn in H.
  cbn [length Nat.eqb] in H.
  split_bind H as o0 t0 Ho0. apply list_get_Ok in Ho0. destruct Ho0 as [_ ->].
  inv_bind H. inv_bind H.
  apply placeholders_Ok in Hrun. destruct Hrun as (-> & Hother & _).
  apply execute_node_Ok in Hrun0. destruct Hrun0 as (outs & Hop & -> & ->).
  apply degenerate_assign in H. cbn [range_dict events] in H. destruct H as [Hev Hk].
  exists a, outs. split; [exact Hev|]. split.
  { intros x Hin Hout. rewrite Hother by exact Hout. apply init_context_lookup, Hin. }
  split; [exact Hop|]. exact Hk.
Qed.

(** C5. When a node dispatched to monotonic propagation has no dynamic
    input and the propagation succeeds, the executor has been invoked
    exactly once (one [EvExecuteNode] event, in a context that holds the
    initializer of every input), and every output of the node holds the
    point range [(v, v)] of the value [v] that this evaluation produced for
    it, flagged [is_initializer = true]. *)
Theorem all_constant_node_evaluated_once (node : Node) (model : ModelWrapper)
    (st st' : state) :
  filter (fun x => is_dyn_input x model = true) (input node) = [] ->
  calc_monotonic_range op_semantics node model st = (Ok tt, st') ->
  exists ctx outs,
    events st' = (events st ++ [EvExecuteNode node ctx])%list
    /\ (forall x, x ∈ input node -> x ∉ output node -> ctx !! x = Some (init_value model x))
    /\ op_semantics node ctx model (opset_version model) = Ok outs
    /\ forall oname, oname ∈ output node ->
         exists r v,
           write_outputs ctx (output node) outs !! oname = Some v
           /\ dict_get oname (range_dict st') = Some r
           /\ range r = Some (v, v)
           /\ is_initializer r = true.
Proof.
  intros Hdyn H.
  destruct (calc_monotonic_range_degenerate node model st st' Hdyn H)
    as (ctx & outs & Hev & Hctx & Hop & Hk).
  exists ctx, outs. split; [exact Hev|]. split; [exact Hctx|]. split; [exact Hop|].
  intros oname Hin. specialize (Hk oname).
  rewrite bool_decide_eq_true_2 in Hk by exact Hin.
  destruct Hk as (r0 & v & _ & Hv & Hr).
  exists (degenerate v r0), v. auto.
Qed.

(** *** Monotonic propagation: corner enumeration *)

Lemma length_product (ps : list (value * value)) :
  length (product ps) = 2 ^ length ps.
Proof.
  induction ps as [|[lo hi] ps IH]; [reflexivity|].
  cbn [product length]. rewrite length_app, !length_map, IH, Nat.pow_succ_r'. lia.
Qed.

(** A corner picks, for every pair, its minimum or its maximum. *)
Lemma product_corners (ps : list (value * value)) (corner : list value) :
  corner ∈ product ps -> Forall2 (fun v p => v = fst p \/ v = snd p) corner ps.
Proof.
  revert corner. induction ps as [|[lo hi] ps IH]; intros corner Hin.
  - apply list_elem_of_singleton in Hin. subst. constructor.
  - cbn [product] in Hin. apply elem_of_app in Hin.
    destruct Hin as [Hin|Hin]; apply list_elem_of_fmap in Hin;
      destruct Hin as (c & -> & Hc); constructor; auto.
Qed.

Lemma elem_of_enumerate {A} (l : list A) (i : nat) (x : A) :
  (i, x) ∈ enumerate l <-> l !! i = Some x.
Proof.
  unfold enumerate. rewrite list_elem_of_lookup. split.
  - intros [j Hj]. apply lookup_zip_with_Some in Hj.
    destruct Hj as (a & b & Heq & Ha & Hb). inversion Heq; subst a b.
    apply lookup_seq in Ha. destruct Ha as [-> _]. exact Hb.
  - intros Hx. exists i. apply lookup_zip_with_Some. exists i, x.
    split; [reflexivity|]. split; [|exact Hx].
    apply lookup_seq. split; [reflexivity|]. eapply lookup_lt_Some, Hx.
Qed.

Lemma NoDup_enumerate {A} (l : list A) : NoDup (enumerate l).*1.
Proof.
  unfold enumerate. rewrite fst_zip by (rewrite length_seq; reflexivity).
  apply NoDup_seq.
Qed.

Lemma update_running_Ok (ctx : gmap string value) (rmin rmax rmin' rmax' : list value)
    (i : nat) (o : string) (st st' : state) :
  update_running ctx (rmin, rmax) (i, o) st = (Ok (rmin', rmax'), st') ->
  st' = st
  /\ exists out a a' b b',
       ctx !! o = Some out
       /\ rmin !! i = Some a /\ running_step Np.minimum a out = Ok b
       /\ rmax !! i = Some a' /\ running_step Np.maximum a' out = Ok b'
       /\ rmin' = <[i := b]> rmin /\ rmax' = <[i := b']> rmax.
Proof.
  intros H. unfold update_running in H.
  split_bind H as v0 s1 Hout. split_bind H as b s2 Hmin. split_bind H as b' s3 Hmax.
  unfold ctx_get in Hout. destruct (ctx !! o) as [out|] eqn:Hctx; [|discriminate Hout].
  apply ret_Ok in Hout. destruct Hout as [-> ->].
  apply ret_Ok in H. destruct H as [Heq ->]. inversion Heq; subst rmin' rmax'.
  assert (Hmin' : s2 = st /\ exists a, rmin !! i = Some a
                                       /\ running_step Np.minimum a out = Ok b).
  { destruct (rmin !! i) as [m|]; [|discriminate Hmin].
    unfold running_step. destruct (is_none m) eqn:Hn.
    - apply ret_Ok in Hmin. destruct Hmin as [-> ->].
      split; [reflexivity|]. exists m. rewrite Hn. split; reflexivity.
    - apply lift_Ok in Hmin. destruct Hmin as [Hm ->].
      split; [reflexivity|]. exists m. rewrite Hn. split; [reflexivity|exact Hm]. }
  destruct Hmin' as (-> & a & Ha & Hb).
  assert (Hmax' : s3 = st /\ exists a, rmax !! i = Some a
                                       /\ running_step Np.maximum a out = Ok b').
  { destruct (rmax !! i) as [m|]; [|discriminate Hmax].
    unfold running_step. destruct (is_none m) eqn:Hn.
    - apply ret_Ok in Hmax. destruct Hmax as [-> ->].
      split; [reflexivity|]. exists m. rewrite Hn. split; reflexivity.
    - apply lift_Ok in Hmax. destruct Hmax as [Hm ->].
      split; [reflexivity|]. exists m. rewrite Hn. split; [reflexivity|exact Hm]. }
  destruct Hmax' as (-> & a' & Ha' & Hb').
  split; [reflexivity|]. exists out, a, a', b, b'. auto 10.
Qed.

Lemma update_running_loop (ctx : gmap string value) (ios : list (nat * string)) :
  forall (rmin rmax rmin' rmax' : list value) (st st' : state),
    NoDup ios.*1 ->
    foldM (update_running ctx) (rmin, rmax) ios st = (Ok (rmin', rmax'), st') ->
    st' = st
    /\ length rmin' = length rmin /\ length rmax' = length rmax
    /\ forall i,
         (i ∉ ios.*1 -> rmin' !! i = rmin !! i /\ rmax' !! i = rmax !! i)
         /\ (forall o, (i, o) ∈ ios ->
               exists out a a' b b',
                 ctx !! o = Some out
                 /\ rmin !! i = Some a /\ running_step Np.minimum a out = Ok b
                 /\ rmax !! i = Some a' /\ running_step Np.maximum a' out = Ok b'
                 /\ rmin' !! i = Some b /\ rmax' !! i = Some b').
Proof.
  induction ios as [|[i0 o0] ios IH]; intros rmin rmax rmin' rmax' st st' Hnd H.
  - apply ret_Ok in H. destruct H as [Heq ->]. inversion Heq; subst.
    repeat (split; [reflexivity|]). intros i. split; [auto|].
    intros o Ho. inversion Ho.
  - cbn [foldM] in H. split_bind H as acc1 s1 Hstep. destruct acc1 as [rmin1 rmax1].
    apply update_running_Ok in Hstep.
    destruct Hstep as (-> & out & a & a' & b & b' & Hout & Ha & Hb & Ha' & Hb' & -> & ->).
    cbn [fmap list_fmap fst] in Hnd. apply NoDup_cons in Hnd. destruct Hnd as [Hi0 Hnd].
    apply (IH _ _ _ _ _ _ Hnd) in H. destruct H as (-> & Hlmin & Hlmax & Hall).
    rewrite length_insert in Hlmin, Hlmax.
    repeat (split; [assumption || reflexivity|]).
    intros i. destruct (Hall i) as [Hout_i Hin_i]. split.
    + intros Hi. cbn [fmap list_fmap fst] in Hi. apply not_elem_of_cons in Hi.
      destruct Hi as [Hne Hi]. destruct (Hout_i Hi) as [-> ->].
      rewrite !list_lookup_insert_ne by congruence. auto.
    + intros o Ho. apply elem_of_cons in Ho. destruct Ho as [Heq|Ho].
      * inversion Heq; subst i o. destruct (Hall i0) as [Hout0 _].
        destruct (Hout0 Hi0) as [-> ->].
        exists out, a, a', b, b'.
        rewrite !list_lookup_insert_eq by (eapply lookup_lt_Some; eassumption). auto 10.
      * assert (Hne : i0 <> i).
        { intros ->. apply Hi0. apply list_elem_of_fmap. exists (i, o). auto. }
        destruct (Hin_i o Ho) as (out1 & a1 & a1' & b1 & b1' & H1 & H2 & H3 & H4 & H5 & H6 & H7).
        rewrite list_lookup_insert_ne in H2, H4 by exact Hne.
        exists out1, a1, a1', b1, b1'. auto 10.
Qed.

Lemma corner_step_Ok (node : Node) (model : ModelWrapper) (dyn_inps : list string)
    (ctx ctx' : gmap string value) (rmin rmax rmin' rmax' : list value)
    (inps : list value) (st st' : state) :
  corner_step op_semantics node model dyn_inps (ctx, (rmin, rmax)) inps st
  = (Ok (ctx', (rmin', rmax')), st') ->
  let cin := substitute ctx dyn_inps inps in
  (exists outs, op_semantics node cin model (opset_version model) = Ok outs
                /\ ctx' = write_outputs cin (output node) outs)
  /\ st' = mk_state (range_dict st) (events st ++ [EvExecuteNode node cin])
  /\ length rmin' = length rmin /\ length rmax' = length rmax
  /\ forall i o, output node !! i = Some o ->
       exists out a a' b b',
         output_value op_semantics node model cin o = Some out
         /\ rmin !! i = Some a /\ running_step Np.minimum a out = Ok b
         /\ rmax !! i = Some a' /\ running_step Np.maximum a' out = Ok b'
         /\ rmin' !! i = Some b /\ rmax' !! i = Some b'.
Proof.
  intros H cin. unfold corner_step in H. fold cin in H.
  split_bind H as ctx1 s1 Hexec. split_bind H as running s2 Hloop.
  apply ret_Ok in H. destruct H as [Heq ->]. inversion Heq; subst ctx' running.
  apply execute_node_Ok in Hexec. destruct Hexec as (outs & Hop & -> & ->).
  apply update_running_loop in Hloop; [|apply NoDup_enumerate].
  destruct Hloop as (-> & Hlmin & Hlmax & Hall).
  split; [eauto|]. split; [reflexivity|]. split; [exact Hlmin|]. split; [exact Hlmax|].
  intros i o Ho. destruct (Hall i) as [_ Hin]. apply elem_of_enumerate in Ho.
  destruct (Hin o Ho) as (out & a & a' & b & b' & H1 & Hrest).
  exists out, a, a', b, b'. split; [|exact Hrest].
  unfold output_value. rewrite Hop. exact H1.
Qed.

Lemma substitute_other (dyn_inps : list string) (inps : list value) :
  forall (ctx : gmap string value) (x : string),
    x ∉ dyn_inps -> substitute ctx dyn_inps inps !! x = ctx !! x.
Proof. exact (write_outputs_other dyn_inps inps). Qed.

Lemma substitute_last (dyn_inps : list string) :
  forall (ctx : gmap string value) (inps : list value),
    corner_substituted dyn_inps inps (substitute ctx dyn_inps inps).
Proof.
  unfold corner_substituted.
  induction dyn_inps as [|y dyn_inps IH]; intros ctx inps i x v Hx Hv Hlast.
  - rewrite lookup_nil in Hx. discriminate Hx.
  - destruct inps as [|w inps]; [rewrite lookup_nil in Hv; discriminate Hv|].
    unfold substitute. cbn [zip zip_with fold_left].
    change (fold_left _ (zip_with pair dyn_inps inps) (<[y:=w]> ctx))
      with (substitute (<[y:=w]> ctx) dyn_inps inps).
    destruct i as [|i].
    + cbn in Hx, Hv. inversion Hx; subst y. inversion Hv; subst w.
      rewrite substitute_other; [apply lookup_insert_eq|].
      intros Hin. apply list_elem_of_lookup in Hin. destruct Hin as [j Hj].
      apply (Hlast (S j)); [lia|exact Hj].
    + cbn in Hx, Hv. apply (IH _ _ i x v Hx Hv).
      intros j Hj. apply (Hlast (S j)). lia.
Qed.

Lemma running_extreme_cons (f : value -> value -> result value) (a b : value)
    (out : value) (outs : list value) :
  running_step f a out = Ok b ->
  running_extreme f a (out :: outs) = running_extreme f b outs.
Proof. intros H. unfold running_extreme. cbn [foldM_result]. rewrite H. reflexivity. Qed.

Lemma corner_loop (node : Node) (model : ModelWrapper) (dyn_inps : list string)
    (combos : list (list value)) :
  (forall x, x ∈ dyn_inps -> is_dyn_input x model = true) ->
  forall (ctx ctx' : gmap string value) (rmin rmax rmin' rmax' : list value)
         (st st' : state),
    constants_fixed node model ctx ->
    foldM (corner_step op_semantics node model dyn_inps) (ctx, (rmin, rmax)) combos st
    = (Ok (ctx', (rmin', rmax')), st') ->
    exists ctxs,
      range_dict st' = range_dict st
      /\ events st' = (events st ++ map (EvExecuteNode node) ctxs)%list
      /\ Forall2 (fun corner c => constants_fixed node model c
                                  /\ corner_substituted dyn_inps corner c) combos ctxs
      /\ forall i o a a',
           output node !! i = Some o -> rmin !! i = Some a -> rmax !! i = Some a' ->
           exists outs b b',
             Forall2 (fun c out => output_value op_semantics node model c o = Some out)
                     ctxs outs
             /\ running_extreme Np.minimum a outs = Ok b
             /\ running_extreme Np.maximum a' outs = Ok b'
             /\ rmin' !! i = Some b /\ rmax' !! i = Some b'.
Proof.
  intros Hdyn.
  induction combos as [|corner combos IH];
    intros ctx ctx' rmin rmax rmin' rmax' st st' Hfix H.
  - apply ret_Ok in H. destruct H as [Heq ->]. inversion Heq; subst.
    exists []. split; [reflexivity|]. split; [cbn; rewrite app_nil_r; reflexivity|].
    split; [constructor|]. intros i o a a' _ Ha Ha'.
    exists [], a, a'. split; [constructor|]. auto.
  - cbn [foldM] in H. split_bind H as acc1 s1 Hstep.
    destruct acc1 as [ctx1 [rmin1 rmax1]].
    apply corner_step_Ok in Hstep. cbv zeta in Hstep.
    set (cin := substitute ctx dyn_inps corner) in *.
    destruct Hstep as ((outs & Hop & ->) & -> & Hlmin & Hlmax & Hstep).
    assert (Hcin : constants_fixed node model cin).
    { intros x Hin Hx Hout. unfold cin. rewrite substitute_other; [apply Hfix; assumption|].
      intros Hd. apply Hdyn in Hd. congruence. }
    assert (Hctx1 : constants_fixed node model (write_outputs cin (output node) outs)).
    { intros x Hin Hx Hout. rewrite write_outputs_other by exact Hout.
      apply Hcin; assumption. }
    apply (IH _ _ _ _ _ _ _ _ Hctx1) in H.
    destruct H as (ctxs & Hrd & Hev & Hall & Hrun).
    exists (cin :: ctxs). split; [exact Hrd|]. split.
    { rewrite Hev. cbn [events map]. rewrite <- app_assoc. reflexivity. }
    split.
    { constructor; [|exact Hall]. split; [exact Hcin|apply substitute_last]. }
    intros i o a a' Ho Ha Ha'.
    destruct (Hstep i o Ho) as (out & a0 & a0' & b & b' & Hout & Ha0 & Hb & Ha0' & Hb' & Hm & Hm').
    rewrite Ha in Ha0. inversion Ha0; subst a0.
    rewrite Ha' in Ha0'. inversion Ha0'; subst a0'.
    destruct (Hrun i o b b' Ho Hm Hm')
      as (outs' & c & c' & Houts & Hc & Hc' & Hfin & Hfin').
    exists (out :: outs'), c, c'. split; [constructor; assumption|].
    rewrite (running_extreme_cons _ _ _ _ _ Hb), (running_extreme_cons _ _ _ _ _ Hb').
    auto.
Qed.

Lemma proto_vectors_Ok (model : ModelWrapper) (dyn_inps : list string) :
  forall (protos : list (value * value)) (st st' : state),
    mapM (fun inp => r ← rd_get inp;
                     lift (promote_range_shape (range r) (get_tensor_valueinfo model inp)))
         dyn_inps st = (Ok protos, st') ->
    st' = st
    /\ Forall2 (fun inp p =>
                  exists r, dict_get inp (range_dict st) = Some r
                            /\ promote_range_shape (range r) (get_tensor_valueinfo model inp)
                               = Ok p)
               dyn_inps protos.
Proof.
  induction dyn_inps as [|inp dyn_inps IH]; intros protos st st' H.
  - apply ret_Ok in H. destruct H as [-> ->]. split; [reflexivity|constructor].
  - cbn [mapM] in H. split_bind H as p s1 Hp. split_bind H as ps s2 Hps.
    apply ret_Ok in H. destruct H as [-> ->].
    split_bind Hp as r s0 Hr. apply rd_get_Ok in Hr. destruct Hr as [Hr ->].
    apply lift_Ok in Hp. destruct Hp as [Hp ->].
    apply IH in Hps. destruct Hps as [-> Hall].
    split; [reflexivity|]. constructor; [eauto|exact Hall].
Qed.

Lemma assign_running_loop (running : list value * list value)
    (ios : list (nat * string)) :
  forall st st',
    for_each (assign_running running) ios st = (Ok tt, st') ->
    events st' = events st
    /\ forall k,
         if bool_decide (k ∈ ios.*2)
         then exists i lo hi r0,
                (i, k) ∈ ios
                /\ fst running !! i = Some lo /\ snd running !! i = Some hi
                /\ dict_get k (range_dict st) = Some r0
                /\ dict_get k (range_dict st') = Some (set_range (Some (lo, hi)) r0)
         else dict_get k (range_dict st') = dict_get k (range_dict st).
Proof.
  induction ios as [|[i0 o0] ios IH]; intros st st' H.
  - apply ret_Ok in H. destruct H as [_ ->]. split; [reflexivity|].
    intros k. rewrite bool_decide_eq_false_2 by (intros Hk; inversion Hk). reflexivity.
  - cbn [for_each] in H. split_bind H as u s1 Hstep. unfold assign_running in Hstep.
    destruct (fst running !! i0) as [lo|] eqn:Hlo;
      destruct (snd running !! i0) as [hi|] eqn:Hhi; try discriminate Hstep.
    destruct u. apply rd_update_Ok in Hstep. destruct Hstep as (r0 & Hr0 & ->).
    apply IH in H. cbn [range_dict events] in H. destruct H as [Hev Hk].
    split; [exact Hev|]. intros k. specialize (Hk k). cbn [fmap list_fmap snd].
    destruct (decide (k = o0)) as [->|Hne].
    + rewrite bool_decide_eq_true_2 by left.
      rewrite dict_get_set_eq in Hk. destruct (bool_decide (o0 ∈ ios.*2)).
      * destruct Hk as (i & lo' & hi' & r0' & Hin & Hlo' & Hhi' & Hr0' & Hfin).
        inversion Hr0'; subst r0'. exists i, lo', hi', r0.
        split; [right; exact Hin|]. auto.
      * exists i0, lo, hi, r0. split; [left|]. auto.
    + rewrite dict_get_set_ne in Hk by congruence.
      assert (Hin : bool_decide (k ∈ o0 :: ios.*2) = bool_decide (k ∈ ios.*2)).
      { apply bool_decide_ext. rewrite elem_of_cons.
        split; [intros [Heq|Hk']; [congruence|exact Hk'] | intros Hk'; right; exact Hk']. }
      rewrite Hin. destruct (bool_decide (k ∈ ios.*2)); [|exact Hk].
      destruct Hk as (i & lo' & hi' & r0' & Hin' & Hrest).
      exists i, lo', hi', r0'. split; [right; exact Hin'|exact Hrest].
Qed.

Lemma calc_monotonic_range_general (node : Node) (model : ModelWrapper) (st st' : state) :
  let dyn_inps := filter (fun x => is_dyn_input x model = true) (input node) in
  (1 <= length dyn_inps)%nat ->
  calc_monotonic_range op_semantics node model st = (Ok tt, st') ->
  exists (proto_vectors : list (value * value)) (ctxs : list (gmap string value)),
    Forall2 (fun inp p =>
               exists r, dict_get inp (range_dict st) = Some r
                         /\ promote_range_shape (range r) (get_tensor_valueinfo model inp)
                            = Ok p)
            dyn_inps proto_vectors
    /\ events st' = (events st ++ map (EvExecuteNode node) ctxs)%list
    /\ Forall2 (fun corner c => constants_fixed node model c
                                /\ corner_substituted dyn_inps corner c)
               (product proto_vectors) ctxs
    /\ forall k,
         if bool_decide (k ∈ output node)
         then exists r0 outs lo hi,
                Forall2 (fun c out => output_value op_semantics node model c k = Some out)
                        ctxs outs
                /\ elementwise_min outs = Ok lo
                /\ elementwise_max outs = Ok hi
                /\ dict_get k (range_dict st) = Some r0
                /\ dict_get k (range_dict st') = Some (set_range (Some (lo, hi)) r0)
         else dict_get k (range_dict st') = dict_get k (range_dict st).
Proof.
  intros dyn_inps Hk H. unfold calc_monotonic_range in H. fold dyn_inps in H.
  split_bind H as o0 t0 Ho0. apply list_get_Ok in Ho0. destruct Ho0 as [_ ->].
  split_bind H as ctx0 s0 Hctx0.
  apply placeholders_Ok in Hctx0. destruct Hctx0 as (-> & Hother & _).
  destruct (length dyn_inps =? 0)%nat eqn:Hlen; [apply Nat.eqb_eq in Hlen; lia|].
  split_bind H as protos s1 Hprotos.
  apply proto_vectors_Ok in Hprotos. destruct Hprotos as [-> Hprotos].
  split_bind H as acc s2 Hloop. destruct acc as [ctx' [rmin' rmax']].
  assert (Hfix : constants_fixed node model ctx0).
  { intros x Hin _ Hout. rewrite Hother by exact Hout. apply init_context_lookup, Hin. }
  apply corner_loop in Hloop;
    [|intros x Hx; apply list_elem_of_filter in Hx; exact (proj1 Hx)|exact Hfix].
  destruct Hloop as (ctxs & Hrd & Hev & Hall & Hrun).
  apply assign_running_loop in H. destruct H as [Hev' Hassign].
  exists protos, ctxs. split; [exact Hprotos|]. split; [congruence|]. split; [exact Hall|].
  intros k. specialize (Hassign k).
  assert (Hsnd : (enumerate (output node)).*2 = output node).
  { unfold enumerate. apply snd_zip. rewrite length_seq. reflexivity. }
  rewrite Hsnd in Hassign. destruct (bool_decide (k ∈ output node)); [|congruence].
  destruct Hassign as (i & lo & hi & r0 & Hin & Hlo & Hhi & Hr0 & Hfin).
  apply elem_of_enumerate in Hin. cbn [fst snd] in Hlo, Hhi.
  assert (Hi : (i < length (output node))%nat) by (eapply lookup_lt_Some; exact Hin).
  destruct (Hrun i k VNone VNone Hin) as (outs & b & b' & Houts & Hb & Hb' & Hm & Hm').
  { apply lookup_replicate_2. exact Hi. }
  { apply lookup_replicate_2. exact Hi. }
  rewrite Hlo in Hm. inversion Hm; subst b. rewrite Hhi in Hm'. inversion Hm'; subst b'.
  exists r0, outs, lo, hi. rewrite <- Hrd. auto.
Qed.

(** C2. When a node dispatched to monotonic propagation has [k >= 1]
    dynamic inputs and the propagation succeeds, the executor has been
    invoked exactly [2^k] times, once per element of the Cartesian product
    of the shape-promoted [(min, max)] pairs of the dynamic inputs; in each
    of these evaluations every constant input holds its initializer and
    every dynamic input holds the bound chosen by the corner; and each
    output is assigned the pair (elementwise minimum, elementwise maximum)
    of what these evaluations yield for it. (Constant inputs are meant up to
    names that the node also lists as outputs, which a well-formed graph
    does not have; when a tensor name fills several dynamic input slots the
    last slot decides its value.) *)
Theorem monotonic_range_over_corners (node : Node) (model : ModelWrapper) (st st' : state) :
  let dyn_inps := filter (fun x => is_dyn_input x model = true) (input node) in
  (1 <= length dyn_inps)%nat ->
  calc_monotonic_range op_semantics node model st = (Ok tt, st') ->
  exists (proto_vectors : list (value * value)) (ctxs : list (gmap string value)),
    Forall2 (fun inp p =>
               exists r, dict_get inp (range_dict st) = Some r
                         /\ promote_range_shape (range r) (get_tensor_valueinfo model inp)
                            = Ok p)
            dyn_inps proto_vectors
    /\ events st' = (events st ++ map (EvExecuteNode node) ctxs)%list
    /\ length ctxs = 2 ^ length dyn_inps
    /\ Forall2 (fun corner c => constants_fixed node model c
                                /\ corner_substituted dyn_inps corner c)
               (product proto_vectors) ctxs
    /\ forall oname, oname ∈ output node ->
         exists r outs lo hi,
           Forall2 (fun c out => output_value op_semantics node model c oname = Some out)
                   ctxs outs
           /\ elementwise_min outs = Ok lo
           /\ elementwise_max outs = Ok hi
           /\ dict_get oname (range_dict st') = Some r
           /\ range r = Some (lo, hi).
Proof.
  intros dyn_inps Hk H.
  destruct (calc_monotonic_range_general node model st st' Hk H)
    as (protos & ctxs & Hprotos & Hev & Hall & Hout).
  exists protos, ctxs. split; [exact Hprotos|]. split; [exact Hev|]. split.
  { rewrite <- (Forall2_length _ _ _ Hall), length_product.
    rewrite <- (Forall2_length _ _ _ Hprotos). reflexivity. }
  split; [exact Hall|]. intros oname Hin. specialize (Hout oname).
  rewrite bool_decide_eq_true_2 in Hout by exact Hin.
  destruct Hout as (r0 & outs & lo & hi & Houts & Hlo & Hhi & _ & Hfin).
  exists (set_range (Some (lo, hi)) r0), outs, lo, hi. auto 10.
Qed.

(** *** The graph walk and the initializer flag *)

Lemma fresh_ok_default : fresh_ok RangeInfo_default.
Proof. repeat split. intros H. discriminate H. Qed.

Lemma fresh_ok_flagged (r : RangeInfo) : fresh_ok r -> flagged_ok r.
Proof.
  intros (Hi & Hs & Hb & Hr) Hflag. right. destruct (Hr Hflag) as [v Hv].
  exists v. destruct r; cbn in *. subst. reflexivity.
Qed.

Lemma promote_degenerate (v a b : value) (vi : option ValueInfo) :
  promote_range_shape (Some (v, v)) vi = Ok (a, b) -> a = b.
Proof.
  unfold promote_range_shape. destruct (valueinfo_to_tensor vi) as [t|e]; [|discriminate].
  cbn [mbind result_bind]. destruct (is_ndarray_of_shape v (shape t)).
  - intros H. inversion H. reflexivity.
  - destruct (Np.add v (VArray (zeros_like t))) as [w|e]; [|discriminate].
    cbn. intros H. inversion H. reflexivity.
Qed.

Lemma for_each_records (f : string -> M unit) (R : RangeInfo -> RangeInfo -> Prop)
    (onames : list string) :
  (forall r1 r2 r3, R r1 r2 -> R r2 r3 -> R r1 r3) ->
  (forall o st st', f o st = (Ok tt, st') ->
     events st' = events st
     /\ exists r0 r1, dict_get o (range_dict st) = Some r0 /\ R r0 r1
                      /\ range_dict st' = dict_set o r1 (range_dict st)) ->
  forall st st',
    for_each f onames st = (Ok tt, st') ->
    events st' = events st
    /\ forall k,
         if bool_decide (k ∈ onames)
         then exists r0 r', dict_get k (range_dict st) = Some r0
                            /\ dict_get k (range_dict st') = Some r' /\ R r0 r'
         else dict_get k (range_dict st') = dict_get k (range_dict st).
Proof.
  intros Htrans Hstep. induction onames as [|o onames IH]; intros st st' H.
  - apply ret_Ok in H. destruct H as [_ ->]. split; [reflexivity|].
    intros k. rewrite bool_decide_eq_false_2 by (intros Hk; inversion Hk). reflexivity.
  - cbn [for_each] in H. split_bind H as u s1 Hf. destruct u.
    apply Hstep in Hf. destruct Hf as (Hev1 & r0 & r1 & Hr0 & HR & Hrd1).
    apply IH in H. destruct H as [Hev Hk]. split; [congruence|].
    intros k. specialize (Hk k). rewrite Hrd1 in Hk.
    destruct (decide (k = o)) as [->|Hne].
    + rewrite bool_decide_eq_true_2 by left. rewrite dict_get_set_eq in Hk.
      destruct (bool_decide (o ∈ onames)).
      * destruct Hk as (r0' & r' & Hr0' & Hr' & HR'). inversion Hr0'; subst r0'.
        exists r0, r'. eauto.
      * exists r0, r1. auto.
    + rewrite dict_get_set_ne in Hk by congruence.
      assert (Hin : bool_decide (k ∈ o :: onames) = bool_decide (k ∈ onames)).
      { apply bool_decide_ext. rewrite elem_of_cons.
        split; [intros [Heq|Hk']; [congruence|exact Hk'] | intros Hk'; right; exact Hk']. }
      rewrite Hin. exact Hk.
Qed.

Lemma reset_outputs (onames : list string) :
  forall st, exists st',
    for_each (fun node_out => rd_set node_out RangeInfo_default) onames st = (Ok tt, st')
    /\ events st' = events st
    /\ forall k, dict_get k (range_dict st')
                 = if bool_decide (k ∈ onames) then Some RangeInfo_default
                   else dict_get k (range_dict st).
Proof.
  induction onames as [|o onames IH]; intros st.
  - exists st. split; [reflexivity|]. split; [reflexivity|]. intros k.
    rewrite bool_decide_eq_false_2 by (intros Hk; inversion Hk). reflexivity.
  - cbn [for_each]. unfold mbind at 1, M_bind at 1, rd_set at 1.
    destruct (IH (mk_state (dict_set o RangeInfo_default (range_dict st)) (events st)))
      as (st' & Hrun & Hev & Hk).
    exists st'. split; [exact Hrun|]. split; [exact Hev|]. intros k. rewrite Hk.
    cbn [range_dict]. destruct (decide (k = o)) as [->|Hne].
    + rewrite (bool_decide_eq_true_2 (o ∈ o :: onames)) by left.
      rewrite dict_get_set_eq. destruct (bool_decide _); reflexivity.
    + rewrite dict_get_set_ne by congruence.
      assert (Hin : bool_decide (k ∈ o :: onames) = bool_decide (k ∈ onames)).
      { apply bool_decide_ext. rewrite elem_of_cons.
        split; [intros [Heq|Hk']; [congruence|exact Hk'] | intros Hk'; right; exact Hk']. }
      rewrite Hin. reflexivity.
Qed.

Lemma promote_outputs (model : ModelWrapper) (onames : list string) (st st' : state) :
  for_each (fun node_out =>
              r ← rd_get node_out;
              p ← lift (promote_range_shape (range r) (get_tensor_valueinfo model node_out));
              rd_update node_out (set_range (Some p))) onames st = (Ok tt, st') ->
  events st' = events st
  /\ forall k,
       if bool_decide (k ∈ onames)
       then exists r0 r', dict_get k (range_dict st) = Some r0
                          /\ dict_get k (range_dict st') = Some r' /\ promoted r0 r'
       else dict_get k (range_dict st') = dict_get k (range_dict st).
Proof.
  apply for_each_records.
  - intros r1 r2 r3 [H1 H1'] [H2 H2']. split; [congruence|auto].
  - clear st st'. intros o st st' H.
    split_bind H as r s1 Hr. apply rd_get_Ok in Hr. destruct Hr as [Hr ->].
    split_bind H as p s2 Hp. apply lift_Ok in Hp. destruct Hp as [Hp ->].
    apply rd_update_Ok in H. destruct H as (r0 & Hr0 & ->).
    rewrite Hr in Hr0. inversion Hr0; subst r0. cbn [events range_dict].
    split; [reflexivity|]. exists r, (set_range (Some p) r).
    split; [exact Hr|]. split; [|reflexivity].
    split; [reflexivity|]. intros (Hi & Hs & Hb & Hdeg).
    repeat (split; [assumption|]). cbn. intros Hflag.
    destruct (Hdeg Hflag) as [v Hv]. rewrite Hv in Hp. destruct p as [a b].
    apply promote_degenerate in Hp. subst b. eauto.
Qed.

Lemma calc_matmul_node_range_Ok (node : Node) (model : ModelWrapper) (st st' : state) :
  calc_matmul_node_range node model st = (Ok tt, st') ->
  events st' = events st
  /\ exists o0 r0 rng,
       o0 ∈ output node /\ dict_get o0 (range_dict st) = Some r0
       /\ range_dict st' = dict_set o0 (set_range (Some rng) r0) (range_dict st).
Proof.
  intros H. unfold calc_matmul_node_range in H.
  split_bind H as i0 s1 H1. apply list_get_Ok in H1. destruct H1 as [_ ->].
  split_bind H as r0 s2 H2. apply rd_get_Ok in H2. destruct H2 as [_ ->].
  split_bind H as i1 s3 H3. apply list_get_Ok in H3. destruct H3 as [_ ->].
  split_bind H as r1 s4 H4. apply rd_get_Ok in H4. destruct H4 as [_ ->].
  split_bind H as rng s5 H5. apply lift_Ok in H5. destruct H5 as [_ ->].
  split_bind H as o0 s6 H6. apply list_get_Ok in H6. destruct H6 as [Ho ->].
  apply rd_update_Ok in H. destruct H as (r & Hr & ->).
  split; [reflexivity|]. exists o0, r, rng.
  split; [eapply list_elem_of_lookup_2; exact Ho|]. auto.
Qed.

Lemma calc_range_outdtype_Ok (node : Node) (model : ModelWrapper) (st st' : state) :
  calc_range_outdtype node model st = (Ok tt, st') ->
  events st' = events st
  /\ exists o0 r0 rng,
       o0 ∈ output node /\ dict_get o0 (range_dict st) = Some r0
       /\ range_dict st' = dict_set o0 (set_range (Some rng) r0) (range_dict st).
Proof.
  intros H. unfold calc_range_outdtype in H.
  split_bind H as o0 s1 H1. apply list_get_Ok in H1. destruct H1 as [Ho ->].
  destruct (get_tensor_datatype model o0) as [odt|]; [|discriminate H].
  apply rd_update_Ok in H. destruct H as (r & Hr & ->).
  split; [reflexivity|]. exists o0, r, (VScalar (dt_min odt), VScalar (dt_max odt)).
  split; [eapply list_elem_of_lookup_2; exact Ho|]. auto.
Qed.

(** Each propagation strategy, run on freshly created output records, leaves
    them without integer information, with a point range when flagged, and
    touches no other record. *)
Lemma run_range_calc_fresh (c : range_calc) (node : Node) (model : ModelWrapper)
    (st st' : state) :
  (forall k, k ∈ output node -> dict_get k (range_dict st) = Some RangeInfo_default) ->
  run_range_calc op_semantics c node model st = (Ok tt, st') ->
  forall k,
    if bool_decide (k ∈ output node)
    then exists r', dict_get k (range_dict st') = Some r' /\ fresh_ok r'
    else dict_get k (range_dict st') = dict_get k (range_dict st).
Proof.
  intros Hfresh H k.
  assert (Hset : forall o0 r0 rng,
            o0 ∈ output node -> dict_get o0 (range_dict st) = Some r0 ->
            range_dict st' = dict_set o0 (set_range (Some rng) r0) (range_dict st) ->
            if bool_decide (k ∈ output node)
            then exists r', dict_get k (range_dict st') = Some r' /\ fresh_ok r'
            else dict_get k (range_dict st') = dict_get k (range_dict st)).
  { intros o0 r0 rng Ho Hr0 Hrd. rewrite Hrd.
    rewrite (Hfresh o0 Ho) in Hr0. inversion Hr0; subst r0.
    destruct (decide (k = o0)) as [->|Hne].
    - rewrite bool_decide_eq_true_2 by exact Ho. rewrite dict_get_set_eq.
      eexists. split; [reflexivity|]. repeat split. intros Hf. discriminate Hf.
    - rewrite dict_get_set_ne by congruence.
      destruct (bool_decide (k ∈ output node)) eqn:Hk; [|reflexivity].
      apply bool_decide_eq_true in Hk. rewrite (Hfresh k Hk).
      eexists. split; [reflexivity|apply fresh_ok_default]. }
  destruct c; cbn [run_range_calc] in H.
  - destruct (filter (fun x => is_dyn_input x model = true) (input node)) as [|x l] eqn:Hdyn.
    + destruct (calc_monotonic_range_degenerate node model st st' Hdyn H)
        as (ctx & outs & _ & _ & _ & Hk).
      specialize (Hk k). destruct (bool_decide (k ∈ output node)) eqn:Hin; [|exact Hk].
      destruct Hk as (r0 & v & Hr0 & _ & Hr'). apply bool_decide_eq_true in Hin.
      rewrite (Hfresh k Hin) in Hr0. inversion Hr0; subst r0.
      eexists. split; [exact Hr'|]. repeat split. intros _. exists v. reflexivity.
    + destruct (calc_monotonic_range_general node model st st') as (ps & cs & _ & _ & _ & Hk).
      { rewrite Hdyn. cbn. lia. }
      { exact H. }
      specialize (Hk k). destruct (bool_decide (k ∈ output node)) eqn:Hin; [|exact Hk].
      destruct Hk as (r0 & outs & lo & hi & _ & _ & _ & Hr0 & Hr').
      apply bool_decide_eq_true in Hin.
      rewrite (Hfresh k Hin) in Hr0. inversion Hr0; subst r0.
      eexists. split; [exact Hr'|]. repeat split. intros Hf. discriminate Hf.
  - apply calc_matmul_node_range_Ok in H. destruct H as (_ & o0 & r0 & rng & Ho & Hr0 & Hrd).
    eapply Hset; eassumption.
  - apply calc_range_outdtype_Ok in H. destruct H as (_ & o0 & r0 & rng & Ho & Hr0 & Hrd).
    eapply Hset; eassumption.
Qed.

Lemma walk_node_Ok (model : ModelWrapper) (node : Node) (st st' : state) :
  walk_node op_semantics model node st = (Ok tt, st') ->
  (forallb (fun x => dict_mem x (range_dict st))
           (filter (fun x => is_dyn_input x model = true) (input node))
   && dict_mem (op_type node) optype_to_range_calc = false
   /\ range_dict st' = range_dict st)
  \/ exists c s1 s2,
       dict_get (op_type node) optype_to_range_calc = Some c
       /\ (forall x, x ∈ input node -> is_dyn_input x model = true ->
                     is_Some (dict_get x (range_dict st)))
       /\ (forall k, dict_get k (range_dict s1)
                     = if bool_decide (k ∈ output node) then Some RangeInfo_default
                       else dict_get k (range_dict st))
       /\ events s1 = events st
       /\ run_range_calc op_semantics c node model s1 = (Ok tt, s2)
       /\ for_each (fun node_out =>
                      r ← rd_get node_out;
                      p ← lift (promote_range_shape (range r)
                                  (get_tensor_valueinfo model node_out));
                      rd_update node_out (set_range (Some p))) (output node) s2
          = (Ok tt, st').
Proof.
  intros H. unfold walk_node in H.
  split_bind H as rd s0 Hrd. unfold get_range_dict in Hrd. inversion Hrd; subst rd s0.
  destruct (forallb _ _ && dict_mem _ _) eqn:Hok.
  - destruct (dict_get (op_type node) optype_to_range_calc) as [c|] eqn:Hc.
    + right. apply andb_true_iff in Hok. destruct Hok as [Hinp _].
      split_bind H as u1 s1 Hreset. split_bind H as u2 s2 Hcalc. destruct u1, u2.
      destruct (reset_outputs (output node) st) as (s1' & Hreset' & Hev & Hk).
      rewrite Hreset' in Hreset. inversion Hreset; subst s1'.
      exists c, s1, s2. split; [reflexivity|].
      split; [apply inprange_ok_true; exact Hinp|]. auto.
    + exfalso. apply andb_true_iff in Hok. destruct Hok as [_ Hmem].
      apply dict_mem_true in Hmem. destruct Hmem as [c Hc']. congruence.
  - left. unfold emit in H. inversion H. auto.
Qed.

Lemma walk_node_table_ok (model : ModelWrapper) (node : Node) (st st' : state) :
  table_ok (range_dict st) ->
  walk_node op_semantics model node st = (Ok tt, st') ->
  table_ok (range_dict st').
Proof.
  intros Hok H. apply walk_node_Ok in H.
  destruct H as [[_ ->]|(c & s1 & s2 & _ & _ & Hs1 & _ & Hcalc & Hprom)]; [exact Hok|].
  assert (Hfresh1 : forall k, k ∈ output node ->
                              dict_get k (range_dict s1) = Some RangeInfo_default).
  { intros k Hk. rewrite Hs1, bool_decide_eq_true_2 by exact Hk. reflexivity. }
  pose proof (run_range_calc_fresh c node model s1 s2 Hfresh1 Hcalc) as Hcalc'.
  apply promote_outputs in Hprom. destruct Hprom as [_ Hprom].
  intros k r Hr. specialize (Hcalc' k). specialize (Hprom k). specialize (Hs1 k).
  rename Hcalc' into Hfr. clear Hcalc. rename Hfr into Hcalc.
  destruct (bool_decide (k ∈ output node)).
  - destruct Hcalc as (r2 & Hr2 & Hfresh).
    destruct Hprom as (r0 & r' & Hr0 & Hr' & _ & Hkeep).
    rewrite Hr2 in Hr0. inversion Hr0; subst r0. rewrite Hr in Hr'. inversion Hr'; subst r'.
    apply fresh_ok_flagged, Hkeep, Hfresh.
  - apply (Hok k r). congruence.
Qed.

Lemma table_ok_set (k : string) (r : RangeInfo) (rd : list (string * RangeInfo)) :
  table_ok rd -> flagged_ok r -> table_ok (dict_set k r rd).
Proof.
  intros Hrd Hr k' r' Hget. destruct (decide (k = k')) as [->|Hne].
  - rewrite dict_get_set_eq in Hget. inversion Hget; subst. exact Hr.
  - rewrite dict_get_set_ne in Hget by exact Hne. exact (Hrd k' r' Hget).
Qed.

Lemma seed_inputs_table_ok (model : ModelWrapper) (ir : option RangeInfo)
    (inputs : list ValueInfo) :
  (forall r0, ir = Some r0 -> is_initializer r0 = false) ->
  forall bounds bounds' st st',
    table_ok (range_dict st) ->
    foldM (seed_input model ir) bounds inputs st = (Ok bounds', st') ->
    table_ok (range_dict st').
Proof.
  intros Hir. induction inputs as [|inp inputs IH]; intros bounds bounds' st st' Hok H.
  - apply ret_Ok in H. destruct H as [_ ->]. exact Hok.
  - cbn [foldM] in H. split_bind H as b1 s1 Hseed.
    apply (IH b1 bounds' s1 st'); [|exact H]. clear H IH.
    unfold seed_input in Hseed. destruct ir as [r0|].
    + split_bind Hseed as u s2 Hset. unfold rd_set in Hset. inversion Hset; subst.
      apply ret_Ok in Hseed. destruct Hseed as [_ ->]. cbn [range_dict].
      apply table_ok_set; [exact Hok|]. intros Hf. rewrite (Hir r0) in Hf by reflexivity.
      discriminate Hf.
    + destruct bounds as [range_min range_max].
      split_bind Hseed as b2 s2 Hb. destruct b2 as [lo hi].
      assert (s2 = st) as ->.
      { destruct (is_none range_min || is_none range_max).
        - destruct (get_tensor_datatype model (vi_name inp)); [|discriminate Hb].
          apply ret_Ok in Hb. exact (proj2 Hb).
        - apply ret_Ok in Hb. exact (proj2 Hb). }
      split_bind Hseed as u s3 Hset. unfold rd_set in Hset. inversion Hset; subst.
      apply ret_Ok in Hseed. destruct Hseed as [_ ->]. cbn [range_dict].
      apply table_ok_set; [exact Hok|]. intros Hf. discriminate Hf.
Qed.

Lemma seed_initializers_table_ok (model : ModelWrapper) (st st' : state) :
  table_ok (range_dict st) ->
  calc_range_all_initializers model st = (Ok tt, st') ->
  table_ok (range_dict st').
Proof.
  intros Hok H. unfold calc_range_all_initializers in H.
  destruct (calc_range_all_initializers_run model (all_tensor_names model) st)
    as (st1 & Hrun & _ & Hget).
  rewrite Hrun in H. inversion H; subst st1.
  intros k r Hr. rewrite Hget in Hr.
  destruct (get_initializer model k) as [c|]; [|exact (Hok k r Hr)].
  destruct (bool_decide (k ∈ all_tensor_names model)); [|exact (Hok k r Hr)].
  inversion Hr. intros _. left. exists c. reflexivity.
Qed.

Lemma walk_table_ok (model : ModelWrapper) (nodes : list Node) :
  forall st st',
    table_ok (range_dict st) ->
    for_each (walk_node op_semantics model) nodes st = (Ok tt, st') ->
    table_ok (range_dict st').
Proof.
  induction nodes as [|node nodes IH]; intros st st' Hok H.
  - apply ret_Ok in H. destruct H as [_ ->]. exact Hok.
  - cbn [for_each] in H. split_bind H as u s1 Hnode. destruct u.
    apply (IH s1 st'); [|exact H]. eapply walk_node_table_ok; eassumption.
Qed.

(** A successful run of [range_analysis], cut at the steps that build the
    range table. *)
Lemma range_analysis_Ok (mw : string + ModelWrapper) (o : options) (st st' : state)
    (rep : report) :
  analysis mw o st = (Ok rep, st') ->
  exists model bounds bounds' s1 s2 s3,
    report_mode o ∈ report_modes
    /\ range_dict s1 = []
    /\ foldM (seed_input model (match irange o with IRangeInfo r => Some r | _ => None end))
             bounds (graph_input model) s1 = (Ok bounds', s2)
    /\ calc_range_all_initializers model s2 = (Ok tt, s3)
    /\ for_each (walk_node op_semantics model) (graph_node model) s3 = (Ok tt, st')
    /\ make_report pformat o (range_dict st') [] = Ok rep.
Proof.
  intros H. unfold range_analysis in H.
  split_bind H as u0 s0 Hmode. unfold py_assert in Hmode.
  destruct (bool_decide (report_mode o ∈ report_modes)) eqn:Hin; [|discriminate Hmode].
  apply bool_decide_eq_true in Hin. clear Hmode.
  unfold range_analysis_body in H.
  split_bind H as m0 t0 Hload. split_bind H as res t1 Hres.
  destruct res as [[range_min range_max] ir].
  split_bind H as m1 t2 H1. split_bind H as m2 t3 H2. split_bind H as m3 t4 H3.
  split_bind H as m4 t5 H4. split_bind H as model t6 H5. split_bind H as u1 t7 Hsave.
  split_bind H as u2 s1 Hnew. split_bind H as bounds' s2 Hseed.
  split_bind H as u3 s3 Hinit. split_bind H as u4 s4 Hwalk. split_bind H as rd s5 Hrd.
  destruct u3, u4. unfold get_range_dict in Hrd. inversion Hrd; subst rd s5.
  apply lift_Ok in H. destruct H as [Hrep ->].
  unfold new_range_dict in Hnew. inversion Hnew; subst s1.
  assert (Hir : ir = match irange o with IRangeInfo r => Some r | _ => None end).
  { unfold resolve_irange in Hres. destruct (irange o) as [s| | |].
    - destruct (decide (s = "")).
      + apply ret_Ok in Hres. destruct Hres as [Heq _]. inversion Heq. reflexivity.
      + split_bind Hres as pr t8 Hev. destruct pr.
        apply ret_Ok in Hres. destruct Hres as [Heq _]. inversion Heq. reflexivity.
    - apply ret_Ok in Hres. destruct Hres as [Heq _]. inversion Heq. reflexivity.
    - apply ret_Ok in Hres. destruct Hres as [Heq _]. inversion Heq. reflexivity.
    - discriminate Hres. }
  subst ir.
  exists model, (range_min, range_max), bounds', (mk_state [] (events t7)), s2, s3.
  split; [exact Hin|]. split; [reflexivity|]. split; [exact Hseed|]. auto.
Qed.

Lemma walk_node_all_constant (model : ModelWrapper) (node : Node) (st st' : state) :
  dict_get (op_type node) optype_to_range_calc = Some Monotonic ->
  filter (fun x => is_dyn_input x model = true) (input node) = [] ->
  walk_node op_semantics model node st = (Ok tt, st') ->
  forall oname, oname ∈ output node ->
    exists v, dict_get oname (range_dict st') = Some (mk_ri (Some (v, v)) None None None true).
Proof.
  intros Hop Hdyn H oname Hin. apply walk_node_Ok in H.
  destruct H as [[Hskip _]|(c & s1 & s2 & Hc & _ & Hs1 & _ & Hcalc & Hprom)].
  - exfalso. rewrite Hdyn in Hskip. cbn [forallb andb] in Hskip.
    apply dict_mem_false in Hskip. congruence.
  - rewrite Hop in Hc. inversion Hc; subst c. cbn [run_range_calc] in Hcalc.
    destruct (calc_monotonic_range_degenerate node model s1 s2 Hdyn Hcalc)
      as (ctx & outs & _ & _ & _ & Hk).
    specialize (Hk oname). rewrite bool_decide_eq_true_2 in Hk by exact Hin.
    destruct Hk as (r0 & v & Hr0 & _ & Hr2).
    rewrite Hs1, bool_decide_eq_true_2 in Hr0 by exact Hin. inversion Hr0; subst r0.
    apply promote_outputs in Hprom. destruct Hprom as [_ Hprom]. specialize (Hprom oname).
    rewrite bool_decide_eq_true_2 in Hprom by exact Hin.
    destruct Hprom as (r2 & r' & Hr2' & Hr' & Hflag & Hkeep).
    rewrite Hr2 in Hr2'. inversion Hr2'; subst r2.
    destruct Hkeep as (Hi & Hs & Hb & Hdeg).
    { repeat split. intros _. exists v. reflexivity. }
    cbn in Hflag. destruct (Hdeg Hflag) as [v' Hv'].
    exists v'. rewrite Hr'. f_equal. destruct r'; cbn in *. subst. reflexivity.
Qed.

Lemma seeded_record_fields (c : ndarray) :
  range (seeded_record c) = Some (VArray c, VArray c)
  /\ is_initializer (seeded_record c) = true
  /\ (all_integral c = true ->
      int_range (seeded_record c) = Some (VArray c, VArray c)
      /\ scale (seeded_record c) = Some (mk_ndarray [1%nat] [1%Q])
      /\ bias (seeded_record c) = Some (mk_ndarray [1%nat] [0%Q])
      /\ has_integer_info (seeded_record c) = true)
  /\ (all_integral c = false -> has_integer_info (seeded_record c) = false).
Proof.
  unfold seeded_record. destruct (all_integral c); cbn; repeat split;
    try discriminate; reflexivity.
Qed.

(** C3, as the code has it. In the range table that a completed run of
    [range_analysis] leaves (the caller not having passed a range record
    that is itself flagged), every record flagged [is_initializer] has a
    point range (minimum equal to maximum), and it is either a record as
    initializer seeding creates it for some constant [c] (carrying
    [int_range = (c, c)], [scale = [1.0]], [bias = [0.0]] when [c] is
    all-integral) or it carries no integer information at all. The second
    is what the graph walk leaves for every output of a node dispatched to
    monotonic propagation with no dynamic input. *)
Theorem initializer_flag_invariant (mw : string + ModelWrapper) (o : options)
    (st st' : state) (rep : report) :
  (forall r0, irange o = IRangeInfo r0 -> is_initializer r0 = false) ->
  analysis mw o st = (Ok rep, st') ->
  (forall k r,
     dict_get k (range_dict st') = Some r -> is_initializer r = true ->
     (exists v, range r = Some (v, v))
     /\ ((exists c, r = seeded_record c
                    /\ (all_integral c = true ->
                        int_range r = Some (VArray c, VArray c)
                        /\ scale r = Some (mk_ndarray [1%nat] [1%Q])
                        /\ bias r = Some (mk_ndarray [1%nat] [0%Q])
                        /\ has_integer_info r = true))
         \/ (int_range r = None /\ scale r = None /\ bias r = None
             /\ has_integer_info r = false)))
  /\ (forall model node s s',
        dict_get (op_type node) optype_to_range_calc = Some Monotonic ->
        filter (fun x => is_dyn_input x model = true) (input node) = [] ->
        walk_node op_semantics model node s = (Ok tt, s') ->
        forall oname, oname ∈ output node ->
          exists r v,
            dict_get oname (range_dict s') = Some r
            /\ range r = Some (v, v) /\ is_initializer r = true
            /\ int_range r = None /\ scale r = None /\ bias r = None
            /\ has_integer_info r = false).
Proof.
  intros Hir H. split.
  - apply range_analysis_Ok in H.
    destruct H as (model & bounds & bounds' & s1 & s2 & s3 & _ & Hnew & Hseed & Hinit & Hwalk & _).
    assert (Hok : table_ok (range_dict st')).
    { eapply walk_table_ok; [|exact Hwalk].
      eapply seed_initializers_table_ok; [|exact Hinit].
      eapply seed_inputs_table_ok; [| |exact Hseed].
      - intros r0 Hr0. apply Hir. destruct (irange o); try discriminate Hr0.
        inversion Hr0. reflexivity.
      - rewrite Hnew. intros k r Hr. discriminate Hr. }
    intros k r Hr Hflag. destruct (Hok k r Hr Hflag) as [[c ->]|[v ->]].
    + destruct (seeded_record_fields c) as (Hrange & _ & Hint & _).
      split; [eauto|]. left. exists c. auto.
    + split; [eauto|]. right. repeat split.
  - intros model node s s' Hop Hdyn Hwalk oname Hin.
    destruct (walk_node_all_constant model node s s' Hop Hdyn Hwalk oname Hin) as [v Hv].
    eexists _, v. split; [exact Hv|]. repeat split.
Qed.

End Proofs.

(** ** Shape promotion *)

(** A bound whose shape broadcasts to the declared shape is broadcast up to
    it. *)
Lemma add_zeros_shape (v w : value) (a : ndarray) (s : list nat) :
  as_array v = Ok a -> broadcast_shapes (shape a) s = Some s ->
  Np.add v (VArray (zeros s)) = Ok w -> shape_of w = Some s.
Proof.
  intros Ha Hs. unfold Np.add, ufunc2, map2. rewrite Ha. cbn. rewrite Hs. cbn.
  intros H. inversion H. unfold wrap. cbn. destruct s; reflexivity.
Qed.

Lemma promote_range_shape_broadcasts (lo hi lo' hi' : value) (a b : ndarray) (vi : ValueInfo) :
  is_ndarray_of_shape lo (vi_shape vi) = false ->
  as_array lo = Ok a -> broadcast_shapes (shape a) (vi_shape vi) = Some (vi_shape vi) ->
  as_array hi = Ok b -> broadcast_shapes (shape b) (vi_shape vi) = Some (vi_shape vi) ->
  promote_range_shape (Some (lo, hi)) (Some vi) = Ok (lo', hi') ->
  shape_of lo' = Some (vi_shape vi) /\ shape_of hi' = Some (vi_shape vi).
Proof.
  intros Hnot Ha Hsa Hb Hsb. unfold promote_range_shape. cbn. rewrite Hnot.
  destruct (Np.add lo _) as [x|e] eqn:Hx; [|discriminate].
  destruct (Np.add hi _) as [y|e] eqn:Hy; [|discriminate].
  cbn. intros H. inversion H; subst.
  change (zeros_like (zeros (vi_shape vi))) with (zeros (vi_shape vi)) in Hx, Hy.
  split.
  - exact (add_zeros_shape lo lo' a _ Ha Hsa Hx).
  - exact (add_zeros_shape hi hi' b _ Hb Hsb Hy).
Qed.

(** C7, at the input that shows the defect: the minimum bound is an array of
    the declared shape [(2,)], the maximum bound is the scalar [1].
    [promote_range_shape] returns the pair unchanged, so the maximum bound
    is not of the declared shape. *)
Theorem promote_range_shape_checks_min_only :
  promote_range_shape (Some (VArray (zeros [2%nat]), VScalar 1)) (Some (mk_vi "t" [2%nat]))
  = Ok (VArray (zeros [2%nat]), VScalar 1)
  /\ shape_of (VScalar 1) <> Some [2%nat]
  /\ promote_range_shape (Some (VScalar 1, VArray (zeros [2%nat]))) (Some (mk_vi "t" [2%nat]))
     = Ok (VArray (mk_ndarray [2%nat] [1%Q; 1%Q]), VArray (mk_ndarray [2%nat] [0%Q; 0%Q])).
Proof.
  split; [reflexivity|]. split; [discriminate|]. vm_compute. reflexivity.
Qed.

(** ** Concrete runs *)

Section Runs.
Import Fixture.

(** C1, at the input that shows the defect: two graph inputs, [a] annotated
    [INT8] and [b] annotated [UINT4], and [irange] the empty string. The
    bounds derived for [a] stay in [range_min] and [range_max], so [b] is
    seeded with the bounds of [INT8] and not with those of its own
    datatype. *)
Theorem second_input_seeded_with_first_datatype :
  exists rep st' r,
    run (inr two_inputs) (opts "range" false) st0 = (Ok rep, st')
    /\ get_tensor_datatype two_inputs "b" = Some UINT4
    /\ dict_get "b" (range_dict st') = Some r
    /\ range r = Some (VScalar (dt_min INT8), VScalar (dt_max INT8))
    /\ range r <> Some (VScalar (dt_min UINT4), VScalar (dt_max UINT4)).
Proof.
  do 3 eexists. split; [vm_compute; reflexivity|].
  split; [vm_compute; reflexivity|]. split; [vm_compute; reflexivity|].
  split; [reflexivity|]. discriminate.
Qed.

(** C3 does not hold as stated: the all-constant quantizer node of
    [small_graph] yields the all-integral value [[2, 4]]; its record is
    flagged [is_initializer] and has a point range, but carries no integer
    information. *)
Lemma constant_node_output_without_integer_info :
  exists rep st' r c,
    run (inr small_graph) (opts "range" false) st0 = (Ok rep, st')
    /\ dict_get "g" (range_dict st') = Some r
    /\ is_initializer r = true
    /\ range r = Some (VArray c, VArray c)
    /\ all_integral c = true
    /\ int_range r = None
    /\ has_integer_info r = false.
Proof.
  do 4 eexists. split; [vm_compute; reflexivity|].
  split; [vm_compute; reflexivity|]. repeat split.
Qed.

Lemma calc_range_corners_witness :
  let node := add_node in
  let model := small_graph in
  let dyn_inps := filter (fun x => is_dyn_input x model = true) (input node) in
  exists st',
    (1 <= length dyn_inps)%nat
    /\ calc_monotonic_range semantics node model seeded = (Ok tt, st')
    /\ exists (proto_vectors : list (value * value)) (ctxs : list (gmap string value)),
         Forall2 (fun inp p =>
                    exists r, dict_get inp (range_dict seeded) = Some r
                              /\ promote_range_shape (range r)
                                   (get_tensor_valueinfo model inp) = Ok p)
                 dyn_inps proto_vectors
         /\ events st' = (events seeded ++ map (EvExecuteNode node) ctxs)%list
         /\ length ctxs = 2 ^ length dyn_inps
         /\ Forall2 (fun corner c => constants_fixed node model c
                                     /\ corner_substituted dyn_inps corner c)
                    (product proto_vectors) ctxs
         /\ forall oname, oname ∈ output node ->
              exists r outs lo hi,
                Forall2 (fun c out => output_value semantics node model c oname = Some out)
                        ctxs outs
                /\ elementwise_min outs = Ok lo
                /\ elementwise_max outs = Ok hi
                /\ dict_get oname (range_dict st') = Some r
                /\ range r = Some (lo, hi).
Proof.
  intros node model dyn_inps.
  assert (Hk : (1 <= length dyn_inps)%nat) by (vm_compute; lia).
  eexists. split; [exact Hk|]. split; [vm_compute; reflexivity|].
  apply (monotonic_range_over_corners semantics node model seeded); [exact Hk|].
  vm_compute; reflexivity.
Defined.

Lemma all_constant_node_witness :
  let node := quant_node in
  let model := small_graph in
  exists st',
    filter (fun x => is_dyn_input x model = true) (input node) = []
    /\ calc_monotonic_range semantics node model seeded = (Ok tt, st')
    /\ exists ctx outs,
         events st' = (events seeded ++ [EvExecuteNode node ctx])%list
         /\ (forall x, x ∈ input node -> x ∉ output node ->
                       ctx !! x = Some (init_value model x))
         /\ semantics node ctx model (opset_version model) = Ok outs
         /\ forall oname, oname ∈ output node ->
              exists r v,
                write_outputs ctx (output node) outs !! oname = Some v
                /\ dict_get oname (range_dict st') = Some r
                /\ range r = Some (v, v)
                /\ is_initializer r = true.
Proof.
  intros node model.
  assert (Hdyn : filter (fun x => is_dyn_input x model = true) (input node) = [])
    by (vm_compute; reflexivity).
  eexists. split; [exact Hdyn|]. split; [vm_compute; reflexivity|].
  apply (all_constant_node_evaluated_once semantics node model seeded); [exact Hdyn|].
  vm_compute; reflexivity.
Defined.

Lemma initializer_seeding_witness :
  let c := mk_ndarray [] [1%Q] in
  exists st' r,
    "s" ∈ all_tensor_names small_graph
    /\ get_initializer small_graph "s" = Some c
    /\ Forall (fun q => exists z : Z, (q == inject_Z z)%Q) (data c)
    /\ calc_range_all_initializers small_graph st0 = (Ok tt, st')
    /\ dict_get "s" (range_dict st') = Some r
    /\ range r = Some (VArray c, VArray c)
    /\ is_initializer r = true
    /\ int_range r = Some (VArray c, VArray c)
    /\ scale r = Some (mk_ndarray [1%nat] [1%Q])
    /\ bias r = Some (mk_ndarray [1%nat] [0%Q])
    /\ has_integer_info r = true.
Proof.
  intros c.
  assert (Hin : "s" ∈ all_tensor_names small_graph)
    by (vm_compute; repeat constructor).
  assert (Hc : get_initializer small_graph "s" = Some c) by (vm_compute; reflexivity).
  assert (Hint : Forall (fun q => exists z : Z, (q == inject_Z z)%Q) (data c)).
  { repeat constructor. exists 1%Z. reflexivity. }
  destruct (initializer_seeding small_graph st0) as (st' & Hrun & _ & Hall).
  destruct (Hall "s" c Hin Hc) as (r & Hr & Hrange & Hflag & Hyes & _).
  destruct (Hyes Hint) as (Hi & Hs & Hb & Hinfo & _).
  exists st', r. auto 12.
Defined.

Lemma skipped_node_witness :
  let model := small_graph in
  let node := foo_node in
  let rest := [relu_node] in
  let dyn_inputs := filter (fun x => is_dyn_input x model = true) (input node) in
  let inprange_ok := forallb (fun x => dict_mem x (range_dict seeded)) dyn_inputs in
  let op_ok := dict_mem (op_type node) optype_to_range_calc in
  let st' := mk_state (range_dict seeded)
               (events seeded ++ [EvWarn ("Skipping " ++ name node ++ " : inp_range? "
                                            ++ str_bool inprange_ok ++ " op_ok? ("
                                            ++ op_type node ++ ") " ++ str_bool op_ok)]) in
  (dict_get (op_type node) optype_to_range_calc = None
   \/ exists x, x ∈ input node /\ is_dyn_input x model = true
                /\ dict_get x (range_dict seeded) = None)
  /\ walk_node semantics model node seeded = (Ok tt, st')
  /\ (inprange_ok = false \/ op_ok = false)
  /\ (inprange_ok = true <->
      forall x, x ∈ input node -> is_dyn_input x model = true ->
                is_Some (dict_get x (range_dict seeded)))
  /\ (op_ok = true <-> is_Some (dict_get (op_type node) optype_to_range_calc))
  /\ (forall o, o ∈ output node ->
        dict_get o (range_dict st') = dict_get o (range_dict seeded))
  /\ for_each (walk_node semantics model) (node :: rest) seeded
     = for_each (walk_node semantics model) rest st'.
Proof.
  intros model node rest dyn_inputs inprange_ok op_ok st'.
  assert (Hskip : dict_get (op_type node) optype_to_range_calc = None
                  \/ exists x, x ∈ input node /\ is_dyn_input x model = true
                               /\ dict_get x (range_dict seeded) = None)
    by (left; vm_compute; reflexivity).
  split; [exact Hskip|].
  exact (skipped_node_is_not_fatal semantics model node rest seeded Hskip).
Defined.

Lemma stuck_channel_report_witness :
  let o := opts "stuck_channel" true in
  exists rep st',
    (report_mode o = REPORT_MODE_STUCKCHANNEL \/ report_mode o = REPORT_MODE_ZEROSTUCKCHANNEL)
    /\ run (inr small_graph) o st0 = (Ok rep, st')
    /\ rep = if prettyprint o then RText (show []) else RDict [].
Proof.
  intros o.
  assert (Hmode : report_mode o = REPORT_MODE_STUCKCHANNEL
                  \/ report_mode o = REPORT_MODE_ZEROSTUCKCHANNEL) by (left; reflexivity).
  do 2 eexists. split; [exact Hmode|]. split; [vm_compute; reflexivity|].
  eapply (stuck_channel_report_empty semantics no_transform no_load no_eval show modes_text
            (inr small_graph) o st0); [exact Hmode|].
  vm_compute; reflexivity.
Defined.

Lemma report_mode_check_witness :
  let bad := opts "bogus" false in
  let good := opts "range" false in
  ("bogus" ∉ report_modes) /\ ("range" ∈ report_modes)
  /\ run (inr small_graph) bad st0
     = (Raise (AssertionError ("Unrecognized report_mode, must be " ++ modes_text)), st0)
  /\ py_assert (bool_decide (report_mode good ∈ report_modes))
               (report_mode_message modes_text) st0 = (Ok tt, st0)
  /\ run (inr small_graph) good st0
     = range_analysis_body semantics no_transform no_load no_eval show (inr small_graph) good st0.
Proof.
  intros bad good.
  assert (Hbad : "bogus" ∉ report_modes).
  { unfold report_modes. rewrite !not_elem_of_cons. repeat split; try discriminate.
    apply not_elem_of_nil. }
  assert (Hgood : "range" ∈ report_modes) by (vm_compute; repeat constructor).
  split; [exact Hbad|]. split; [exact Hgood|].
  destruct (report_mode_checked_at_entry semantics no_transform no_load no_eval show modes_text
              (inr small_graph) bad st0) as [Hfail _].
  destruct (report_mode_checked_at_entry semantics no_transform no_load no_eval show modes_text
              (inr small_graph) good st0) as [_ Hpass].
  split; [exact (Hfail Hbad)|]. exact (Hpass Hgood).
Defined.

Lemma initializer_flag_witness :
  let o := opts "range" false in
  exists rep st',
    (forall r0, irange o = IRangeInfo r0 -> is_initializer r0 = false)
    /\ run (inr small_graph) o st0 = (Ok rep, st')
    /\ (forall k r,
          dict_get k (range_dict st') = Some r -> is_initializer r = true ->
          (exists v, range r = Some (v, v))
          /\ ((exists c, r = seeded_record c
                         /\ (all_integral c = true ->
                             int_range r = Some (VArray c, VArray c)
                             /\ scale r = Some (mk_ndarray [1%nat] [1%Q])
                             /\ bias r = Some (mk_ndarray [1%nat] [0%Q])
                             /\ has_integer_info r = true))
              \/ (int_range r = None /\ scale r = None /\ bias r = None
                  /\ has_integer_info r = false)))
    /\ exists r v,
         dict_get "g" (range_dict (snd (walk_node semantics small_graph quant_node seeded)))
         = Some r
         /\ range r = Some (v, v) /\ is_initializer r = true
         /\ int_range r = None /\ scale r = None /\ bias r = None
         /\ has_integer_info r = false.
Proof.
  intros o.
  assert (Hir : forall r0, irange o = IRangeInfo r0 -> is_initializer r0 = false)
    by (intros r0 Hr0; discriminate Hr0).
  do 2 eexists. split; [exact Hir|]. split; [vm_compute; reflexivity|].
  destruct (initializer_flag_invariant semantics no_transform no_load no_eval show modes_text
              (inr small_graph) o st0 _ _ Hir ltac:(vm_compute; reflexivity)) as [Htable Hnode].
  split; [exact Htable|].
  apply (Hnode small_graph quant_node seeded
           (snd (walk_node semantics small_graph quant_node seeded))).
  - vm_compute; reflexivity.
  - vm_compute; reflexivity.
  - vm_compute; reflexivity.
  - vm_compute; repeat constructor.
Defined.

End Runs.

(** * Further properties *)

(** ** Elementwise operations on arrays of one shape *)

Section Elementwise.
Import Np.


Lemma broadcast_shapes_nil_l (s : list nat) : broadcast_shapes [] s = Some s.
Proof.
  unfold broadcast_shapes. cbn [rev]. cbn [broadcast_rev].
  rewrite rev_involutive. reflexivity.
Qed.

Lemma broadcast_to_scalar (q : Q) (s : list nat) :
  broadcast_to (mk_ndarray [] [q]) s = replicate (size s) q.
Proof.
  unfold broadcast_to. cbn [shape data]. rewrite <- length_indices.
  induction (indices s) as [|idx l IH]; [reflexivity|].
  cbn [map length replicate]. f_equal; [|exact IH].
  unfold offset. cbn [length]. rewrite Nat.sub_0_r, drop_all. reflexivity.
Qed.

Lemma as_array_wrap (a : ndarray) : well_formed a -> as_array (wrap a) = Ok a.
Proof.
  unfold well_formed, wrap. destruct a as [s d]. cbn. destruct s as [|n s]; [|reflexivity].
  cbn. destruct d as [|q [|q' d]]; intros H; try discriminate H. reflexivity.
Qed.

Lemma ufunc2_same_shape (f : Q -> Q -> Q) (x y : value) (a b : ndarray) :
  as_array x = Ok a -> as_array y = Ok b -> shape b = shape a ->
  well_formed a -> well_formed b ->
  ufunc2 f x y = Ok (wrap (mk_ndarray (shape a) (zip_with f (data a) (data b)))).
Proof.
  intros Hx Hy Hs Ha Hb. unfold ufunc2. rewrite Hx, Hy. cbn [mbind result_bind].
  rewrite (map2_same_shape f a b Hs Ha Hb). reflexivity.
Qed.

Lemma ufunc2_scalar_l (f : Q -> Q -> Q) (c : Q) (y : value) (b : ndarray) :
  as_array y = Ok b -> well_formed b ->
  ufunc2 f (VScalar c) y
  = Ok (wrap (mk_ndarray (shape b) (zip_with f (replicate (size (shape b)) c) (data b)))).
Proof.
  intros Hy Hb. unfold ufunc2. rewrite Hy. cbn [as_array mbind result_bind].
  unfold map2. cbn [shape]. rewrite broadcast_shapes_nil_l, broadcast_to_scalar.
  rewrite (broadcast_to_self b Hb). reflexivity.
Qed.

Lemma well_formed_zip (f : Q -> Q -> Q) (s : list nat) (d1 d2 : list Q) :
  length d1 = size s -> length d2 = size s ->
  well_formed (mk_ndarray s (zip_with f d1 d2)).
Proof.
  intros H1 H2. unfold well_formed. cbn [data shape].
  rewrite length_zip_with, H1, H2. apply Nat.min_id.
Qed.

End Elementwise.

(** ** Shape promotion, further *)

Section Promotion.
Import Np.

(** X1. Shape promotion is idempotent on a range whose minimum bound
    broadcasts to a declared shape of rank at least one: promoting the result
    again returns it unchanged. *)
Theorem promote_range_shape_idempotent (lo hi : value) (a : ndarray) (vi : ValueInfo)
    (p : value * value) :
  as_array lo = Ok a ->
  broadcast_shapes (shape a) (vi_shape vi) = Some (vi_shape vi) ->
  vi_shape vi <> [] ->
  promote_range_shape (Some (lo, hi)) (Some vi) = Ok p ->
  promote_range_shape (Some p) (Some vi) = Ok p.
Proof.
  intros Ha Hs Hne H. unfold promote_range_shape in *. cbn in *.
  destruct (is_ndarray_of_shape lo (vi_shape vi)) eqn:Hlo.
  - inversion H; subst p. rewrite Hlo. reflexivity.
  - destruct (Np.add lo _) as [lo'|e] eqn:Hadd; [|discriminate H].
    destruct (Np.add hi _) as [hi'|e] eqn:Hadd'; [|discriminate H].
    cbn in H. inversion H; subst p. clear H.
    assert (Hshape : is_ndarray_of_shape lo' (vi_shape vi) = true).
    { unfold Np.add, ufunc2, map2 in Hadd. rewrite Ha in Hadd. cbn in Hadd.
      rewrite Hs in Hadd. cbn in Hadd. inversion Hadd. unfold wrap. cbn.
      destruct (vi_shape vi) as [|n s] eqn:Hvs; [contradiction|].
      cbn. apply bool_decide_eq_true. reflexivity. }
    rewrite Hshape. reflexivity.
Qed.



(** X3. Shape promotion keeps a point range a point range: when both bounds
    are the same value, both promoted bounds are the same value. *)
Theorem promote_range_shape_point (v : value) (vi : option ValueInfo) (p : value * value) :
  promote_range_shape (Some (v, v)) vi = Ok p -> fst p = snd p.
Proof.
  intros H. destruct p as [a b]. exact (promote_degenerate v a b vi H).
Qed.

Lemma promote_range_shape_idempotent_witness :
  let vi := mk_vi "t" [2%nat; 3%nat] in
  let lo := VList [1%Q; 2%Q; 3%Q] in
  exists p,
    as_array lo = Ok (mk_ndarray [3%nat] [1%Q; 2%Q; 3%Q])
    /\ broadcast_shapes [3%nat] (vi_shape vi) = Some (vi_shape vi)
    /\ vi_shape vi <> []
    /\ promote_range_shape (Some (lo, VScalar 7)) (Some vi) = Ok p
    /\ promote_range_shape (Some p) (Some vi) = Ok p.
Proof.
  intros vi lo.
  assert (Ha : as_array lo = Ok (mk_ndarray [3%nat] [1%Q; 2%Q; 3%Q])) by reflexivity.
  assert (Hs : broadcast_shapes (shape (mk_ndarray [3%nat] [1%Q; 2%Q; 3%Q])) (vi_shape vi)
               = Some (vi_shape vi)) by reflexivity.
  assert (Hne : vi_shape vi <> []) by discriminate.
  eexists. split; [exact Ha|]. split; [exact Hs|]. split; [exact Hne|].
  split; [vm_compute; reflexivity|].
  apply (promote_range_shape_idempotent lo (VScalar 7) _ vi _ Ha Hs Hne).
  vm_compute; reflexivity.
Defined.

Lemma promote_range_shape_point_witness :
  exists p,
    promote_range_shape (Some (VScalar 5, VScalar 5)) (Some (mk_vi "t" [2%nat])) = Ok p
    /\ fst p = snd p.
Proof.
  eexists. split; [vm_compute; reflexivity|].
  apply (promote_range_shape_point (VScalar 5) (Some (mk_vi "t" [2%nat]))).
  vm_compute; reflexivity.
Defined.

End Promotion.

(** ** Midpoint and radius of a range *)

Section MidpointRadius.
Import Np.
Open Scope Q_scope.

Lemma midpoints_cons (l h : Q) (dlo dhi : list Q) :
  midpoints (l :: dlo) (h :: dhi) = (l + (1 # 2) * (h - l)) :: midpoints dlo dhi.
Proof. reflexivity. Qed.

Lemma radii_cons (l h : Q) (dlo dhi : list Q) :
  radii (l :: dlo) (h :: dhi) = (l + (1 # 2) * (h - l) - l) :: radii dlo dhi.
Proof. reflexivity. Qed.

Lemma length_midpoints (dlo dhi : list Q) :
  length dhi = length dlo -> length (midpoints dlo dhi) = length dlo.
Proof.
  intros H. unfold midpoints.
  rewrite !length_zip_with, length_replicate, H, !Nat.min_id. reflexivity.
Qed.

Lemma length_radii (dlo dhi : list Q) :
  length dhi = length dlo -> length (radii dlo dhi) = length dlo.
Proof.
  intros H. unfold radii. rewrite length_zip_with, length_midpoints by exact H.
  apply Nat.min_id.
Qed.


(** What [range_to_midpoint_radius] computes on two arrays of one shape. *)
Lemma range_to_midpoint_radius_arrays (lo hi : ndarray) :
  shape hi = shape lo -> well_formed lo -> well_formed hi ->
  range_to_midpoint_radius (Some (VArray lo, VArray hi))
  = Ok (wrap (mk_ndarray (shape lo) (midpoints (data lo) (data hi))),
        wrap (mk_ndarray (shape lo) (radii (data lo) (data hi)))).
Proof.
  intros Hs Hlo Hhi. set (s := shape lo) in *.
  assert (Hn : length (data lo) = size s) by exact Hlo.
  assert (Hlen : length (data hi) = length (data lo)).
  { transitivity (size s); [rewrite <- Hs; exact Hhi | symmetry; exact Hlo]. }
  pose proof (length_midpoints _ _ Hlen) as Hm. pose proof (length_radii _ _ Hlen) as Hr.
  unfold radii. unfold midpoints in *.
  set (dd := zip_with Qminus (data hi) (data lo)) in *.
  set (dh := zip_with Qmult (replicate (length (data lo)) (1 # 2)) dd) in *.
  set (dm := zip_with Qplus (data lo) dh) in *.
  assert (Hdd : length dd = size s).
  { unfold dd. rewrite length_zip_with, Hlen, Nat.min_id. exact Hn. }
  assert (Hdh : length dh = size s).
  { unfold dh. rewrite length_zip_with, length_replicate, Hdd, Hn, Nat.min_id. reflexivity. }
  assert (Wd : well_formed (mk_ndarray s dd)) by exact Hdd.
  assert (Wh : well_formed (mk_ndarray s dh)) by exact Hdh.
  assert (Wm : well_formed (mk_ndarray s dm)).
  { unfold well_formed. cbn [data shape]. rewrite <- Hn. exact Hm. }
  unfold range_to_midpoint_radius, Np.sub, Np.mul, Np.add.
  assert (E1 : ufunc2 Qminus (VArray hi) (VArray lo) = Ok (wrap (mk_ndarray s dd))).
  { rewrite (ufunc2_same_shape Qminus (VArray hi) (VArray lo) hi lo eq_refl eq_refl
               (eq_sym Hs) Hhi Hlo). rewrite Hs. reflexivity. }
  rewrite E1. cbn [mbind result_bind].
  assert (E2 : ufunc2 Qmult (VScalar (1 # 2)) (wrap (mk_ndarray s dd))
               = Ok (wrap (mk_ndarray s dh))).
  { rewrite (ufunc2_scalar_l Qmult (1 # 2) _ _ (as_array_wrap _ Wd) Wd).
    cbn [shape data]. unfold dh. rewrite Hn. reflexivity. }
  rewrite E2. cbn [mbind result_bind].
  assert (E3 : ufunc2 Qplus (VArray lo) (wrap (mk_ndarray s dh))
               = Ok (wrap (mk_ndarray s dm))).
  { rewrite (ufunc2_same_shape Qplus (VArray lo) _ lo _ eq_refl (as_array_wrap _ Wh)
               eq_refl Hlo Wh). reflexivity. }
  rewrite E3. cbn [mbind result_bind].
  assert (E4 : ufunc2 Qminus (wrap (mk_ndarray s dm)) (VArray lo)
               = Ok (wrap (mk_ndarray s (zip_with Qminus dm (data lo))))).
  { rewrite (ufunc2_same_shape Qminus _ (VArray lo) _ lo (as_array_wrap _ Wm) eq_refl
               eq_refl Wm Hlo). reflexivity. }
  rewrite E4. reflexivity.
Qed.



End MidpointRadius.

(** ** Interval matrix multiplication of a row by a column *)

Section RowByColumn.
Import Np.
Open Scope Q_scope.

Lemma fold_left_Qplus (l : list Q) (acc : Q) :
  fold_left Qplus l acc == acc + fold_left Qplus l 0.
Proof.
  revert acc. induction l as [|x l IH]; intros acc; cbn [fold_left].
  - ring.
  - rewrite (IH (acc + x)), (IH (0 + x)). ring.
Qed.

Lemma dot_cons (x y : Q) (u v : list Q) : dot (x :: u) (y :: v) == x * y + dot u v.
Proof.
  unfold dot. cbn [zip_with fold_left]. rewrite fold_left_Qplus. ring.
Qed.

Lemma row_all (d : list Q) : row (length d) d 0 = d.
Proof. unfold row. cbn [Nat.mul drop]. apply firstn_all. Qed.

Lemma col_all (d : list Q) : col (length d) 1 d 0 = d.
Proof.
  unfold col. transitivity (map (fun i => nth i d 0) (seq 0 (length d))).
  - apply map_ext. intros l. f_equal. lia.
  - apply map_nth_seq.
Qed.

Lemma matmul_row_col (da db : list Q) :
  length db = length da ->
  Np.matmul (row_vec da) (col_vec db) = Ok (mat11 (dot da db)).
Proof.
  intros Hlen. unfold Np.matmul, row_vec, col_vec. cbn [as_array mbind result_bind shape data].
  rewrite Hlen, Nat.eqb_refl. cbn [seq flat_map map app].
  rewrite row_all. rewrite <- Hlen, col_all. reflexivity.
Qed.

(** The dot product of two vectors within their boxes stays within the
    radius that [calc_matmul_range] computes around the dot product of the
    midpoints. *)
Lemma dot_within_radius (alo : list Q) :
  forall ahi a blo bhi b,
    length ahi = length alo -> length blo = length alo -> length bhi = length alo ->
    Forall2 within a (zip alo ahi) -> Forall2 within b (zip blo bhi) ->
    let mA := midpoints alo ahi in
    let rA := radii alo ahi in
    let mB := midpoints blo bhi in
    let rB := radii blo bhi in
    let radius := dot rA (zip_with Qplus (map Qabs mB) rB) + dot (map Qabs mA) rB in
    dot mA mB - radius <= dot a b <= dot mA mB + radius.
Proof.
  induction alo as [|l1 alo IH]; intros ahi a blo bhi b Ha Hb Hb' Hina Hinb.
  - destruct ahi; [|discriminate Ha]. destruct blo; [|discriminate Hb].
    destruct bhi; [|discriminate Hb']. inversion Hina; subst. inversion Hinb; subst.
    cbn. split; discriminate.
  - destruct ahi as [|h1 ahi]; [discriminate Ha|].
    destruct blo as [|l2 blo]; [discriminate Hb|].
    destruct bhi as [|h2 bhi]; [discriminate Hb'|].
    cbn [zip zip_with] in Hina, Hinb.
    inversion Hina as [|x ? a' ? [Hx1 Hx2] Hina']; subst.
    inversion Hinb as [|y ? b' ? [Hy1 Hy2] Hinb']; subst.
    cbn [fst snd] in *.
    cbn in Ha, Hb, Hb'.
    specialize (IH ahi a' blo bhi b' ltac:(congruence) ltac:(congruence) ltac:(congruence)
                   Hina' Hinb').
    cbv zeta in IH |- *.
    rewrite !midpoints_cons, !radii_cons. cbn [map zip_with].
    set (m1 := l1 + (1 # 2) * (h1 - l1)). set (m2 := l2 + (1 # 2) * (h2 - l2)).
    set (r1 := m1 - l1). set (r2 := m2 - l2).
    pose proof (dot_cons x y a' b') as E0.
    pose proof (dot_cons m1 m2 (midpoints alo ahi) (midpoints blo bhi)) as E1.
    pose proof (dot_cons r1 (Qabs m2 + r2) (radii alo ahi)
                  (zip_with Qplus (map Qabs (midpoints blo bhi)) (radii blo bhi))) as E2.
    pose proof (dot_cons (Qabs m1) r2 (map Qabs (midpoints alo ahi)) (radii blo bhi)) as E3.
    assert (Hr1 : 0 <= r1) by (unfold r1, m1; lra).
    assert (Hr2 : 0 <= r2) by (unfold r2, m2; lra).
    assert (Hbx : m1 - r1 <= x <= m1 + r1) by (unfold r1, m1; lra).
    assert (Hby : m2 - r2 <= y <= m2 + r2) by (unfold r2, m2; lra).
    pose proof (product_within_radius m1 r1 m2 r2 x y Hr1 Hr2 Hbx Hby) as Hxy.
    apply Qabs_Qle_condition in Hxy.
    set (P := x * y) in *. set (M := m1 * m2) in *.
    set (R1 := r1 * (Qabs m2 + r2)) in *. set (R2 := Qabs m1 * r2) in *.
    lra.
Qed.

(** X5. For a row vector and a column vector with elementwise ranges,
    [calc_matmul_range] returns a 1x1 range that contains the product of
    every row vector and column vector that lie within the ranges. *)
Theorem calc_matmul_range_encloses_row_by_column (alo ahi blo bhi a b : list Q) :
  length ahi = length alo -> length blo = length alo -> length bhi = length alo ->
  Forall2 within a (zip alo ahi) -> Forall2 within b (zip blo bhi) ->
  exists lo hi,
    calc_matmul_range (Some (row_vec alo, row_vec ahi)) (Some (col_vec blo, col_vec bhi))
    = Ok (mat11 lo, mat11 hi)
    /\ Np.matmul (row_vec a) (col_vec b) = Ok (mat11 (dot a b))
    /\ lo <= dot a b <= hi.
Proof.
  intros Ha Hb Hb' Hina Hinb.
  pose proof (dot_within_radius alo ahi a blo bhi b Ha Hb Hb' Hina Hinb) as Hdot.
  cbv zeta in Hdot.
  assert (Hla : length a = length alo).
  { apply Forall2_length in Hina. rewrite length_zip_with, Ha, Nat.min_id in Hina. exact Hina. }
  assert (Hlb : length b = length alo).
  { apply Forall2_length in Hinb. rewrite length_zip_with, Hb, Hb', Nat.min_id in Hinb.
    exact Hinb. }
  set (mA := midpoints alo ahi) in *. set (rA := radii alo ahi) in *.
  set (mB := midpoints blo bhi) in *. set (rB := radii blo bhi) in *.
  assert (LmA : length mA = length alo) by (apply length_midpoints; exact Ha).
  assert (LrA : length rA = length alo) by (apply length_radii; exact Ha).
  assert (LmB : length mB = length alo).
  { unfold mB. rewrite length_midpoints by congruence. exact Hb. }
  assert (LrB : length rB = length alo).
  { unfold rB. rewrite length_radii by congruence. exact Hb. }
  eexists _, _. split; [|split; [apply matmul_row_col; congruence | exact Hdot]].
  unfold calc_matmul_range.
  assert (EA : range_to_midpoint_radius (Some (row_vec alo, row_vec ahi))
               = Ok (row_vec mA, row_vec rA)).
  { unfold row_vec.
    rewrite range_to_midpoint_radius_arrays;
      [|cbn [shape]; congruence
       |unfold well_formed; cbn; lia|unfold well_formed; cbn; lia].
    cbn [shape data]. unfold wrap. cbn [shape]. fold mA rA. rewrite LmA, LrA. reflexivity. }
  assert (EB : range_to_midpoint_radius (Some (col_vec blo, col_vec bhi))
               = Ok (col_vec mB, col_vec rB)).
  { unfold col_vec.
    rewrite range_to_midpoint_radius_arrays;
      [|cbn [shape]; congruence
       |unfold well_formed; cbn; lia|unfold well_formed; cbn; lia].
    cbn [shape data]. unfold wrap. cbn [shape]. fold mB rB.
    rewrite LmB, LrB, Hb. reflexivity. }
  rewrite EA, EB. cbn [mbind result_bind].
  assert (EabsB : Np.abs (col_vec mB) = Ok (col_vec (map Qabs mB))).
  { unfold Np.abs, map1, col_vec, wrap. cbn. rewrite length_map. reflexivity. }
  assert (EabsA : Np.abs (row_vec mA) = Ok (row_vec (map Qabs mA))).
  { unfold Np.abs, map1, row_vec, wrap. cbn. rewrite length_map. reflexivity. }
  rewrite EabsB. cbn [mbind result_bind].
  assert (Es : Np.add (col_vec (map Qabs mB)) (col_vec rB)
               = Ok (col_vec (zip_with Qplus (map Qabs mB) rB))).
  { unfold Np.add, col_vec.
    erewrite ufunc2_same_shape;
      [|reflexivity|reflexivity
       |cbn [shape]; rewrite length_map; congruence
       |unfold well_formed; cbn; lia|unfold well_formed; cbn; lia].
    cbn [shape data]. unfold wrap. cbn [shape].
    assert (Hl : length (zip_with Qplus (map Qabs mB) rB) = length (map Qabs mB)).
    { rewrite length_zip_with, length_map, LmB, LrB. apply Nat.min_id. }
    rewrite Hl. reflexivity. }
  rewrite Es. cbn [mbind result_bind].
  assert (Ls : length (zip_with Qplus (map Qabs mB) rB) = length rA).
  { rewrite length_zip_with, length_map, LmB, LrB, LrA. apply Nat.min_id. }
  rewrite (matmul_row_col rA _ Ls).
  cbn [mbind result_bind]. rewrite EabsA. cbn [mbind result_bind].
  assert (La : length rB = length (map Qabs mA)) by (rewrite length_map; congruence).
  rewrite (matmul_row_col (map Qabs mA) rB La).
  cbn [mbind result_bind]. rewrite add_mat11. cbn [mbind result_bind].
  assert (Lm : length mB = length mA) by congruence.
  rewrite (matmul_row_col mA mB Lm).
  cbn [mbind result_bind]. rewrite add_mat11, sub_mat11. reflexivity.
Qed.

Lemma calc_matmul_range_encloses_witness :
  let alo := [1; -2] in let ahi := [3; 0] in
  let blo := [0; 1] in let bhi := [4; 1] in
  let a := [2; -1] in let b := [3; 1] in
  length ahi = length alo /\ length blo = length alo /\ length bhi = length alo
  /\ Forall2 within a (zip alo ahi) /\ Forall2 within b (zip blo bhi)
  /\ exists lo hi,
       calc_matmul_range (Some (row_vec alo, row_vec ahi)) (Some (col_vec blo, col_vec bhi))
       = Ok (mat11 lo, mat11 hi)
       /\ Np.matmul (row_vec a) (col_vec b) = Ok (mat11 (dot a b))
       /\ lo <= dot a b <= hi.
Proof.
  intros alo ahi blo bhi a b.
  assert (Hina : Forall2 within a (zip alo ahi)).
  { repeat constructor; cbn; discriminate. }
  assert (Hinb : Forall2 within b (zip blo bhi)).
  { repeat constructor; cbn; discriminate. }
  split; [reflexivity|]. split; [reflexivity|]. split; [reflexivity|].
  split; [exact Hina|]. split; [exact Hinb|].
  exact (calc_matmul_range_encloses_row_by_column alo ahi blo bhi a b
           eq_refl eq_refl eq_refl Hina Hinb).
Defined.

End RowByColumn.

(** ** The propagation strategies and the seeding steps, further *)

Section Strategies.

#[local] Set Default Proof Using "Type".

Context (op_semantics : Node -> gmap string value -> ModelWrapper -> Z -> result (list value)).

(** X6. MatMul propagation reads the ranges of its two operands from the
    range table (constant operands included), never invokes the executor, and
    its only effect is to set the range of the record of the first output to
    [calc_matmul_range] of the two; every other record and every other field
    stay as they were. *)
Theorem matmul_node_range_effect (node : Node) (model : ModelWrapper) (st st' : state) :
  calc_matmul_node_range node model st = (Ok tt, st') ->
  exists i0 i1 o0 rA rB ro rng,
    input node !! 0%nat = Some i0 /\ input node !! 1%nat = Some i1
    /\ output node !! 0%nat = Some o0
    /\ dict_get i0 (range_dict st) = Some rA /\ dict_get i1 (range_dict st) = Some rB
    /\ dict_get o0 (range_dict st) = Some ro
    /\ calc_matmul_range (range rA) (range rB) = Ok rng
    /\ dict_get o0 (range_dict st') = Some (set_range (Some rng) ro)
    /\ (forall k, k <> o0 -> dict_get k (range_dict st') = dict_get k (range_dict st))
    /\ events st' = events st.
Proof.
  intros H. unfold calc_matmul_node_range in H.
  split_bind H as i0 s1 H1. apply list_get_Ok in H1. destruct H1 as [Hi0 ->].
  split_bind H as rA s2 H2. apply rd_get_Ok in H2. destruct H2 as [HrA ->].
  split_bind H as i1 s3 H3. apply list_get_Ok in H3. destruct H3 as [Hi1 ->].
  split_bind H as rB s4 H4. apply rd_get_Ok in H4. destruct H4 as [HrB ->].
  split_bind H as rng s5 H5. apply lift_Ok in H5. destruct H5 as [Hrng ->].
  split_bind H as o0 s6 H6. apply list_get_Ok in H6. destruct H6 as [Ho ->].
  apply rd_update_Ok in H. destruct H as (ro & Hro & ->).
  exists i0, i1, o0, rA, rB, ro, rng. cbn [range_dict events].
  repeat (split; [assumption|]). split; [apply dict_get_set_eq|].
  split; [|reflexivity]. intros k Hk. apply dict_get_set_ne. congruence.
Qed.

(** X7. No propagation strategy creates a record or writes integer
    information: after a successful strategy run every record of the table
    was there before, with the same [int_range], [scale] and [bias]. *)
Theorem strategies_keep_integer_info (c : range_calc) (node : Node) (model : ModelWrapper)
    (st st' : state) :
  run_range_calc op_semantics c node model st = (Ok tt, st') ->
  forall k r',
    dict_get k (range_dict st') = Some r' ->
    exists r0, dict_get k (range_dict st) = Some r0
               /\ int_range r' = int_range r0 /\ scale r' = scale r0 /\ bias r' = bias r0.
Proof.
  intros H k r' Hr'.
  assert (Hset : forall o0 r0 rng,
            dict_get o0 (range_dict st) = Some r0 ->
            range_dict st' = dict_set o0 (set_range (Some rng) r0) (range_dict st) ->
            exists r1, dict_get k (range_dict st) = Some r1
                       /\ int_range r' = int_range r1 /\ scale r' = scale r1
                       /\ bias r' = bias r1).
  { intros o0 r0 rng Hr0 Hrd. rewrite Hrd in Hr'. destruct (decide (o0 = k)) as [->|Hne].
    - rewrite dict_get_set_eq in Hr'. inversion Hr'; subst r'. exists r0. auto.
    - rewrite dict_get_set_ne in Hr' by exact Hne. exists r'. auto. }
  destruct c; cbn [run_range_calc] in H.
  - destruct (filter (fun x => is_dyn_input x model = true) (input node)) as [|x l] eqn:Hdyn.
    + destruct (calc_monotonic_range_degenerate op_semantics node model st st' Hdyn H)
        as (ctx & outs & _ & _ & _ & Hk).
      specialize (Hk k). destruct (bool_decide (k ∈ output node)).
      * destruct Hk as (r0 & v & Hr0 & _ & Hfin). rewrite Hfin in Hr'.
        inversion Hr'; subst r'. exists r0. auto.
      * exists r'. rewrite <- Hk. auto.
    + destruct (calc_monotonic_range_general op_semantics node model st st')
        as (ps & cs & _ & _ & _ & Hk).
      { rewrite Hdyn. cbn. lia. }
      { exact H. }
      specialize (Hk k). destruct (bool_decide (k ∈ output node)).
      * destruct Hk as (r0 & outs & lo & hi & _ & _ & _ & Hr0 & Hfin). rewrite Hfin in Hr'.
        inversion Hr'; subst r'. exists r0. auto.
      * exists r'. rewrite <- Hk. auto.
  - apply calc_matmul_node_range_Ok in H. destruct H as (_ & o0 & r0 & rng & _ & Hr0 & Hrd).
    eapply Hset; eassumption.
  - apply calc_range_outdtype_Ok in H. destruct H as (_ & o0 & r0 & rng & _ & Hr0 & Hrd).
    eapply Hset; eassumption.
Qed.

(** X8. Initializer seeding leaves alone every record of a tensor that has
    no registered constant or is not among the graph's tensor names, and it
    replaces whatever record a tensor with a constant had before (one seeded
    as a graph input, for instance). *)
Theorem initializer_seeding_frame (model : ModelWrapper) (st st' : state) :
  calc_range_all_initializers model st = (Ok tt, st') ->
  forall k,
    (get_initializer model k = None \/ k ∉ all_tensor_names model ->
     dict_get k (range_dict st') = dict_get k (range_dict st))
    /\ (forall c, get_initializer model k = Some c -> k ∈ all_tensor_names model ->
                  dict_get k (range_dict st') = Some (seeded_record c)).
Proof.
  intros H k. unfold calc_range_all_initializers in H.
  destruct (calc_range_all_initializers_run model (all_tensor_names model) st)
    as (st1 & Hrun & _ & Hget).
  rewrite Hrun in H. inversion H; subst st1. rewrite Hget. split.
  - intros [Hnone|Hnot].
    + rewrite Hnone. reflexivity.
    + destruct (get_initializer model k); [|reflexivity].
      rewrite bool_decide_eq_false_2 by exact Hnot. reflexivity.
  - intros c Hc Hin. rewrite Hc, bool_decide_eq_true_2 by exact Hin. reflexivity.
Qed.

Lemma dict_set_same {V} (k : string) (v : V) (d : list (string * V)) :
  dict_get k d = Some v -> dict_set k v d = d.
Proof.
  induction d as [|[k' v'] d IH]; cbn; [discriminate|].
  destruct (decide (k = k')) as [->|Hne].
  - intros Hv. inversion Hv. reflexivity.
  - intros Hv. rewrite IH by exact Hv. reflexivity.
Qed.

Lemma seeding_fixpoint (model : ModelWrapper) (names : list string) (st : state) :
  (forall k c, k ∈ names -> get_initializer model k = Some c ->
               dict_get k (range_dict st) = Some (seeded_record c)) ->
  for_each (seed_initializer model) names st = (Ok tt, st).
Proof.
  induction names as [|x names IH]; intros Hall; [reflexivity|].
  cbn [for_each]. unfold mbind at 1, M_bind at 1. rewrite seed_initializer_run.
  assert (Hst : match get_initializer model x with
                | Some c => mk_state (dict_set x (seeded_record c) (range_dict st)) (events st)
                | None => st
                end = st).
  { destruct (get_initializer model x) as [c|] eqn:Hx; [|reflexivity].
    rewrite dict_set_same by (apply Hall; [left|exact Hx]). destruct st; reflexivity. }
  rewrite Hst. apply IH. intros k c Hk. apply Hall. right. exact Hk.
Qed.

(** X9. Initializer seeding is idempotent: seeding the table it produced
    again changes nothing. *)
Theorem initializer_seeding_idempotent (model : ModelWrapper) (st st' : state) :
  calc_range_all_initializers model st = (Ok tt, st') ->
  calc_range_all_initializers model st' = (Ok tt, st').
Proof.
  intros H. unfold calc_range_all_initializers in *.
  destruct (calc_range_all_initializers_run model (all_tensor_names model) st)
    as (st1 & Hrun & _ & Hget).
  rewrite Hrun in H. inversion H; subst st1.
  apply seeding_fixpoint. intros k c Hk Hc.
  rewrite Hget, Hc, bool_decide_eq_true_2 by exact Hk. reflexivity.
Qed.

End Strategies.

(** ** The graph walk, further *)

Section Walk.

#[local] Set Default Proof Using "Type".

Context (op_semantics : Node -> gmap string value -> ModelWrapper -> Z -> result (list value)).

Lemma promote_outputs_ranges (model : ModelWrapper) (onames : list string) (st st' : state) :
  for_each (fun node_out =>
              r ← rd_get node_out;
              p ← lift (promote_range_shape (range r) (get_tensor_valueinfo model node_out));
              rd_update node_out (set_range (Some p))) onames st = (Ok tt, st') ->
  forall k, k ∈ onames ->
    exists r', dict_get k (range_dict st') = Some r' /\ is_Some (range r').
Proof.
  intros H k Hk.
  eapply (for_each_records _ (fun _ r' => is_Some (range r'))) in H.
  - destruct H as [_ H]. specialize (H k). rewrite bool_decide_eq_true_2 in H by exact Hk.
    destruct H as (r0 & r' & _ & Hr' & Hsome). exists r'. split; assumption.
  - intros r1 r2 r3 _ H3. exact H3.
  - clear. intros o st st' H.
    split_bind H as r s1 Hr. apply rd_get_Ok in Hr. destruct Hr as [Hr ->].
    split_bind H as p s2 Hp. apply lift_Ok in Hp. destruct Hp as [Hp ->].
    apply rd_update_Ok in H. destruct H as (r0 & Hr0 & ->). cbn [events range_dict].
    split; [reflexivity|]. exists r0, (set_range (Some p) r0).
    split; [exact Hr0|]. split; [|reflexivity]. cbn. eexists. reflexivity.
Qed.

Lemma walk_node_cases (model : ModelWrapper) (node : Node) (st st' : state) :
  walk_node op_semantics model node st = (Ok tt, st') ->
  range_dict st' = range_dict st
  \/ ((forall k, k ∉ output node ->
                 dict_get k (range_dict st') = dict_get k (range_dict st))
      /\ (forall k, k ∈ output node ->
                    exists r', dict_get k (range_dict st') = Some r' /\ is_Some (range r'))).
Proof.
  intros H. apply walk_node_Ok in H.
  destruct H as [[_ Hrd] | (c & s1 & s2 & _ & _ & Hs1 & _ & Hcalc & Hprom)].
  - left. exact Hrd.
  - right. split.
    + intros k Hk.
      assert (Hfresh : forall o, o ∈ output node ->
                                 dict_get o (range_dict s1) = Some RangeInfo_default).
      { intros o Ho. rewrite Hs1, bool_decide_eq_true_2 by exact Ho. reflexivity. }
      pose proof (run_range_calc_fresh op_semantics c node model s1 s2 Hfresh Hcalc k) as H2.
      apply promote_outputs in Hprom. destruct Hprom as [_ H3]. specialize (H3 k).
      rewrite bool_decide_eq_false_2 in H2 by exact Hk.
      rewrite bool_decide_eq_false_2 in H3 by exact Hk.
      rewrite H3, H2, Hs1, bool_decide_eq_false_2 by exact Hk. reflexivity.
    + intros k Hk. exact (promote_outputs_ranges model (output node) s2 st' Hprom k Hk).
Qed.

(** X10. The graph walk only ever changes the records of tensors that are
    outputs of some node (graph inputs and constants keep what seeding gave
    them), and it never removes a record from the range table. *)
Theorem walk_frame (model : ModelWrapper) (nodes : list Node) (st st' : state) :
  for_each (walk_node op_semantics model) nodes st = (Ok tt, st') ->
  forall k,
    ((forall node, node ∈ nodes -> k ∉ output node) ->
     dict_get k (range_dict st') = dict_get k (range_dict st))
    /\ (is_Some (dict_get k (range_dict st)) -> is_Some (dict_get k (range_dict st'))).
Proof.
  revert st. induction nodes as [|node nodes IH]; intros st H k.
  - apply ret_Ok in H. destruct H as [_ ->]. split; [reflexivity|]. intros Hs. exact Hs.
  - cbn [for_each] in H. split_bind H as u s1 Hstep. destruct u.
    destruct (IH s1 H k) as [IHframe IHkeep]. apply walk_node_cases in Hstep. split.
    + intros Hout. rewrite IHframe by (intros n Hn; apply Hout; right; exact Hn).
      destruct Hstep as [Hrd | [Hframe _]]; [rewrite Hrd; reflexivity|].
      apply Hframe, Hout. left.
    + intros Hs. apply IHkeep. destruct Hstep as [Hrd | [Hframe Hnew]].
      * rewrite Hrd. exact Hs.
      * destruct (decide (k ∈ output node)) as [Hin|Hnin].
        -- destruct (Hnew k Hin) as (r' & Hr' & _). rewrite Hr'. eexists. reflexivity.
        -- rewrite Hframe by exact Hnin. exact Hs.
Qed.

Lemma walk_ranges (model : ModelWrapper) (nodes : list Node) :
  forall st st',
    (forall k r, dict_get k (range_dict st) = Some r -> is_Some (range r)) ->
    for_each (walk_node op_semantics model) nodes st = (Ok tt, st') ->
    forall k r, dict_get k (range_dict st') = Some r -> is_Some (range r).
Proof.
  induction nodes as [|node nodes IH]; intros st st' Hinv H.
  - apply ret_Ok in H. destruct H as [_ ->]. exact Hinv.
  - cbn [for_each] in H. split_bind H as u s1 Hstep. destruct u.
    apply (IH s1 st'); [|exact H]. clear H IH.
    apply walk_node_cases in Hstep. intros k r Hr.
    destruct Hstep as [Hrd | [Hframe Hnew]].
    + rewrite Hrd in Hr. exact (Hinv k r Hr).
    + destruct (decide (k ∈ output node)) as [Hin|Hnin].
      * destruct (Hnew k Hin) as (r' & Hr' & Hsome). rewrite Hr in Hr'.
        inversion Hr'; subst r'. exact Hsome.
      * rewrite Hframe in Hr by exact Hnin. exact (Hinv k r Hr).
Qed.

Lemma walk_node_skip (model : ModelWrapper) (node : Node) (st : state) :
  (dict_get (op_type node) optype_to_range_calc = None
   \/ exists x, x ∈ input node /\ is_dyn_input x model = true
                /\ dict_get x (range_dict st) = None) ->
  exists msg, walk_node op_semantics model node st
              = (Ok tt, mk_state (range_dict st) (events st ++ [EvWarn msg])).
Proof.
  intros Hskip.
  set (inprange_ok := forallb (fun x => dict_mem x (range_dict st))
                        (filter (fun x => is_dyn_input x model = true) (input node))).
  set (op_ok := dict_mem (op_type node) optype_to_range_calc).
  assert (Hflags : inprange_ok = false \/ op_ok = false).
  { destruct Hskip as [Hop | (x & Hin & Hdyn & Hx)].
    - right. apply dict_mem_false. exact Hop.
    - left. apply not_true_is_false. intros Hok.
      pose proof (proj1 (inprange_ok_true model node (range_dict st)) Hok x Hin Hdyn)
        as [r Hr].
      congruence. }
  exists (skip_message node inprange_ok op_ok).
  unfold walk_node, mbind, M_bind, get_range_dict.
  fold inprange_ok. fold op_ok. clearbody inprange_ok op_ok.
  destruct Hflags as [-> | ->]; [|rewrite andb_false_r]; reflexivity.
Qed.

(** X11. Skipping propagates downstream: when a node is skipped and a later
    node reads a tensor that has no record and that no node in between
    produces, the later node is skipped as well; the range table after both
    is the one before the first, so neither node's outputs get a record. *)
Theorem skip_propagates_downstream (model : ModelWrapper) (producer consumer : Node)
    (between : list Node) (x : string) (st st' : state) :
  (dict_get (op_type producer) optype_to_range_calc = None
   \/ exists i, i ∈ input producer /\ is_dyn_input i model = true
                /\ dict_get i (range_dict st) = None) ->
  x ∈ output producer -> x ∈ input consumer -> is_dyn_input x model = true ->
  dict_get x (range_dict st) = None ->
  (forall node, node ∈ between -> x ∉ output node) ->
  for_each (walk_node op_semantics model) (producer :: between) st = (Ok tt, st') ->
  exists msg,
    walk_node op_semantics model consumer st'
    = (Ok tt, mk_state (range_dict st') (events st' ++ [EvWarn msg]))
    /\ dict_get x (range_dict st') = None.
Proof.
  intros Hskip _ Hin Hdyn Hx Hbetween H.
  cbn [for_each] in H. split_bind H as u s1 Hstep. destruct u.
  destruct (walk_node_skip model producer st Hskip) as [msg0 Hrun].
  rewrite Hrun in Hstep. inversion Hstep; subst s1. clear Hstep Hrun.
  assert (Hx' : dict_get x (range_dict st') = None).
  { assert (Hframe : forall nodes s s',
              (forall node, node ∈ nodes -> x ∉ output node) ->
              for_each (walk_node op_semantics model) nodes s = (Ok tt, s') ->
              dict_get x (range_dict s') = dict_get x (range_dict s)).
    { clear. induction nodes as [|n nodes IH]; intros s s' Hout H.
      - apply ret_Ok in H. destruct H as [_ ->]. reflexivity.
      - cbn [for_each] in H. split_bind H as u s1 Hstep. destruct u.
        rewrite (IH s1 s') by (try exact H; intros n' Hn'; apply Hout; right; exact Hn').
        apply walk_node_cases in Hstep. destruct Hstep as [Hrd | [Hfr _]].
        + rewrite Hrd. reflexivity.
        + apply Hfr, Hout. left. }
    rewrite (Hframe between _ st' Hbetween H). exact Hx. }
  destruct (walk_node_skip model consumer st') as [msg Hmsg].
  { right. exists x. auto. }
  exists msg. split; [exact Hmsg|exact Hx'].
Qed.

(** X12. Monotonic propagation with [n] dynamic inputs invokes the executor
    exactly [2^n] times, on the one node, and does nothing else observable
    besides updating the range table. *)
Theorem monotonic_range_evaluation_count (node : Node) (model : ModelWrapper) (st st' : state) :
  calc_monotonic_range op_semantics node model st = (Ok tt, st') ->
  exists ctxs : list (gmap string value),
    events st' = (events st ++ map (EvExecuteNode node) ctxs)%list
    /\ length ctxs
       = (2 ^ length (filter (fun x => is_dyn_input x model = true) (input node)))%nat.
Proof.
  intros H.
  destruct (filter (fun x => is_dyn_input x model = true) (input node)) as [|x l] eqn:Hdyn.
  - destruct (calc_monotonic_range_degenerate op_semantics node model st st' Hdyn H)
      as (ctx & outs & Hev & _).
    exists [ctx]. split; [exact Hev|reflexivity].
  - destruct (calc_monotonic_range_general op_semantics node model st st')
      as (ps & cs & Hps & Hev & Hcs & _).
    { rewrite Hdyn. cbn. lia. }
    { exact H. }
    exists cs. split; [exact Hev|].
    apply Forall2_length in Hps. apply Forall2_length in Hcs.
    rewrite <- Hcs, length_product, <- Hps, Hdyn. reflexivity.
Qed.

End Walk.

(** ** Input seeding *)

Section InputSeeding.

#[local] Set Default Proof Using "Type".

Lemma dict_get_fold_set {V} (names : list string) (v : V) :
  forall (d : list (string * V)) (k : string),
    dict_get k (fold_left (fun d n => dict_set n v d) names d)
    = if bool_decide (k ∈ names) then Some v else dict_get k d.
Proof.
  induction names as [|n names IH]; intros d k; cbn [fold_left].
  - rewrite bool_decide_eq_false_2 by (intros Hk; inversion Hk). reflexivity.
  - rewrite IH. destruct (decide (k = n)) as [->|Hne].
    + rewrite (bool_decide_eq_true_2 (n ∈ n :: names)) by left.
      rewrite dict_get_set_eq. destruct (bool_decide (n ∈ names)); reflexivity.
    + rewrite dict_get_set_ne by congruence.
      assert (Hin : bool_decide (k ∈ n :: names) = bool_decide (k ∈ names)).
      { apply bool_decide_ext. rewrite elem_of_cons.
        split; [intros [Heq|Hk']; [congruence|exact Hk'] | intros Hk'; right; exact Hk']. }
      rewrite Hin. reflexivity.
Qed.

(** The loop over the graph inputs when every pass stores the record [rec]
    and leaves the loop-carried bounds as they are. *)
Lemma seed_inputs_fixed (model : ModelWrapper) (ir : option RangeInfo)
    (bounds : value * value) (rec : RangeInfo) (inputs : list ValueInfo) :
  (forall inp st,
     seed_input model ir bounds inp st
     = (Ok bounds, mk_state (dict_set (vi_name inp) rec (range_dict st)) (events st))) ->
  forall st,
    foldM (seed_input model ir) bounds inputs st
    = (Ok bounds,
       mk_state (fold_left (fun d n => dict_set n rec d) (map vi_name inputs) (range_dict st))
                (events st)).
Proof.
  intros Hstep. induction inputs as [|inp inputs IH]; intros st.
  - destruct st; reflexivity.
  - cbn [foldM]. unfold mbind at 1, M_bind at 1. rewrite Hstep, IH. reflexivity.
Qed.

Lemma seed_input_record (model : ModelWrapper) (r : RangeInfo) (bounds : value * value)
    (inp : ValueInfo) (st : state) :
  seed_input model (Some r) bounds inp st
  = (Ok bounds, mk_state (dict_set (vi_name inp) r (range_dict st)) (events st)).
Proof. reflexivity. Qed.

Lemma seed_input_bounds (model : ModelWrapper) (lo hi : value) (inp : ValueInfo) (st : state) :
  is_none lo = false -> is_none hi = false ->
  seed_input model None (lo, hi) inp st
  = (Ok (lo, hi),
     mk_state (dict_set (vi_name inp) (mk_ri (Some (lo, hi)) None None None false)
                        (range_dict st)) (events st)).
Proof. intros Hlo Hhi. unfold seed_input. rewrite Hlo, Hhi. reflexivity. Qed.

Lemma seed_input_datatype (model : ModelWrapper) (lo hi : value) (inp : ValueInfo)
    (st : state) :
  is_none lo || is_none hi = true ->
  seed_input model None (lo, hi) inp st
  = match get_tensor_datatype model (vi_name inp) with
    | None => (Raise (AssertionError "Could not infer irange, please specify"), st)
    | Some idt =>
        let b := (VScalar (dt_min idt), VScalar (dt_max idt)) in
        (Ok b, mk_state (dict_set (vi_name inp) (mk_ri (Some b) None None None false)
                                  (range_dict st)) (events st))
    end.
Proof.
  intros Hnone. unfold seed_input. rewrite Hnone.
  destruct (get_tensor_datatype model (vi_name inp)); reflexivity.
Qed.

(** X13. The loop that seeds the graph inputs from datatype annotations
    consults the annotation of the first input only: without one it fails
    with the assertion that asks for an [irange], the state untouched; with
    one, every graph input (and no other tensor) gets the bounds of that
    datatype, whatever its own annotation says or whether it has one. *)
Theorem datatype_seeding_uses_first_input (model : ModelWrapper) (lo hi : value)
    (inp : ValueInfo) (rest : list ValueInfo) (st : state) :
  is_none lo || is_none hi = true ->
  match get_tensor_datatype model (vi_name inp) with
  | None =>
      foldM (seed_input model None) (lo, hi) (inp :: rest) st
      = (Raise (AssertionError "Could not infer irange, please specify"), st)
  | Some idt =>
      let b := (VScalar (dt_min idt), VScalar (dt_max idt)) in
      exists st',
        foldM (seed_input model None) (lo, hi) (inp :: rest) st = (Ok b, st')
        /\ events st' = events st
        /\ forall k,
             dict_get k (range_dict st')
             = if bool_decide (k ∈ map vi_name (inp :: rest))
               then Some (mk_ri (Some b) None None None false)
               else dict_get k (range_dict st)
  end.
Proof.
  intros Hnone. pose proof (seed_input_datatype model lo hi inp st Hnone) as Hfirst.
  destruct (get_tensor_datatype model (vi_name inp)) as [idt|].
  2: { cbn [foldM]. unfold mbind, M_bind. rewrite Hfirst. reflexivity. }
  cbv zeta in *. eexists. split.
  { cbn [foldM]. unfold mbind at 1, M_bind at 1. rewrite Hfirst.
    apply (seed_inputs_fixed model None _
             (mk_ri (Some (VScalar (dt_min idt), VScalar (dt_max idt))) None None None false)).
    intros inp' s. apply seed_input_bounds; reflexivity. }
  cbn [events range_dict]. split; [reflexivity|]. intros k.
  exact (dict_get_fold_set (map vi_name (inp :: rest)) _ (range_dict st) k).
Qed.

End InputSeeding.

(** ** The orchestrator, further *)

Section Orchestration.

#[local] Set Default Proof Using "Type".

Context (op_semantics : Node -> gmap string value -> ModelWrapper -> Z -> result (list value))
        (transform : Transformation -> ModelWrapper -> result ModelWrapper)
        (load_model : string -> result ModelWrapper)
        (py_eval : string -> result (value * value))
        (pformat : list (string * entry) -> string)
        (str_report_modes : string).

Local Notation "'analysis'" := (range_analysis op_semantics transform load_model py_eval pformat
                        str_report_modes).

Lemma apply_transform_Ok (t : Transformation) (m m' : ModelWrapper) (st st' : state) :
  apply_transform transform t m st = (Ok m', st') ->
  transform t m = Ok m' /\ st' = mk_state (range_dict st) (events st ++ [EvTransform t]).
Proof.
  intros H. unfold apply_transform in H. split_bind H as u s1 Hemit.
  unfold emit in Hemit. inversion Hemit; subst s1.
  apply lift_Ok in H. destruct H as [Ht ->]. auto.
Qed.

Lemma run_range_calc_events (c : range_calc) (node : Node) (model : ModelWrapper)
    (st st' : state) :
  run_range_calc op_semantics c node model st = (Ok tt, st') ->
  exists ctxs, events st' = (events st ++ map (EvExecuteNode node) ctxs)%list.
Proof.
  intros H. destruct c; cbn [run_range_calc] in H.
  - destruct (filter (fun x => is_dyn_input x model = true) (input node)) as [|x l] eqn:Hdyn.
    + destruct (calc_monotonic_range_degenerate op_semantics node model st st' Hdyn H)
        as (ctx & outs & Hev & _).
      exists [ctx]. exact Hev.
    + destruct (calc_monotonic_range_general op_semantics node model st st')
        as (ps & cs & _ & Hev & _).
      { rewrite Hdyn. cbn. lia. }
      { exact H. }
      exists cs. exact Hev.
  - apply calc_matmul_node_range_Ok in H. destruct H as [Hev _].
    exists []. rewrite Hev, app_nil_r. reflexivity.
  - apply calc_range_outdtype_Ok in H. destruct H as [Hev _].
    exists []. rewrite Hev, app_nil_r. reflexivity.
Qed.

Lemma walk_events (model : ModelWrapper) (nodes : list Node) :
  forall st st',
    for_each (walk_node op_semantics model) nodes st = (Ok tt, st') ->
    exists evs, events st' = (events st ++ evs)%list /\ Forall is_walk_event evs.
Proof.
  induction nodes as [|node nodes IH]; intros st st' H.
  - apply ret_Ok in H. destruct H as [_ ->]. exists []. rewrite app_nil_r. split; constructor.
  - cbn [for_each] in H. split_bind H as u s1 Hstep. destruct u.
    destruct (IH s1 st' H) as (evs & Hev & Hall). clear IH H.
    assert (Hone : exists evs1, events s1 = (events st ++ evs1)%list
                                /\ Forall is_walk_event evs1).
    { destruct (forallb (fun x => dict_mem x (range_dict st))
                  (filter (fun x => is_dyn_input x model = true) (input node))
                && dict_mem (op_type node) optype_to_range_calc) eqn:Hflags.
      - apply walk_node_Ok in Hstep.
        destruct Hstep as [[Hf _] | (c & t1 & t2 & _ & _ & _ & Hev1 & Hcalc & Hprom)];
          [congruence|].
        apply promote_outputs in Hprom. destruct Hprom as [Hev3 _].
        apply run_range_calc_events in Hcalc. destruct Hcalc as [ctxs Hev2].
        exists (map (EvExecuteNode node) ctxs). split; [congruence|].
        apply Forall_forall. intros e He. apply list_elem_of_fmap in He.
        destruct He as (ctx & -> & _). exact I.
      - unfold walk_node, mbind, M_bind, get_range_dict in Hstep. rewrite Hflags in Hstep.
        unfold emit in Hstep. inversion Hstep. cbn [events].
        eexists. split; [reflexivity|]. repeat constructor. }
    destruct Hone as (evs1 & Hev1 & Hall1).
    exists (evs1 ++ evs)%list. split.
    + rewrite Hev, Hev1, app_assoc. reflexivity.
    + apply Forall_app. split; assumption.
Qed.

(** A successful run of [range_analysis], cut at every step. *)
Lemma range_analysis_steps (mw : string + ModelWrapper) (o : options) (st st' : state)
    (rep : report) :
  analysis mw o st = (Ok rep, st') ->
  exists m0 model lo hi ir bounds' s2 s3,
    report_mode o ∈ report_modes
    /\ match mw with inr w => m0 = w | inl path => load_model path = Ok m0 end
    /\ (forall s, resolve_irange py_eval (irange o) s = (Ok (lo, hi, ir), s))
    /\ run_passes transform (preparation_passes o) m0 = Ok model
    /\ foldM (seed_input model ir) (lo, hi) (graph_input model)
         (mk_state [] (events st ++ loading_events mw
                         ++ map EvTransform (preparation_passes o)
                         ++ saving_events o model)%list)
       = (Ok bounds', s2)
    /\ calc_range_all_initializers model s2 = (Ok tt, s3)
    /\ for_each (walk_node op_semantics model) (graph_node model) s3 = (Ok tt, st')
    /\ make_report pformat o (range_dict st') [] = Ok rep.
Proof.
  intros H. unfold range_analysis in H.
  split_bind H as u0 s0 Hmode. unfold py_assert in Hmode.
  destruct (bool_decide (report_mode o ∈ report_modes)) eqn:Hin; [|discriminate Hmode].
  apply bool_decide_eq_true in Hin. apply ret_Ok in Hmode. destruct Hmode as [_ ->].
  unfold range_analysis_body in H.
  split_bind H as m0 t0 Hload. split_bind H as res t1 Hres.
  destruct res as [[range_min range_max] ir].
  split_bind H as m1 t2 H1. split_bind H as m2 t3 H2. split_bind H as m3 t4 H3.
  split_bind H as m4 t5 H4. split_bind H as model t6 H5. split_bind H as u1 t7 Hsave.
  split_bind H as u2 s1 Hnew. split_bind H as bounds' s2 Hseed.
  split_bind H as u3 s3 Hinit. split_bind H as u4 s4 Hwalk. split_bind H as rd s5 Hrd.
  destruct u3, u4. unfold get_range_dict in Hrd. inversion Hrd; subst rd s5.
  apply lift_Ok in H. destruct H as [Hrep ->].
  unfold new_range_dict in Hnew. inversion Hnew; subst s1. clear Hnew.
  assert (Hm0 : match mw with inr w => m0 = w | inl path => load_model path = Ok m0 end
                /\ events t0 = (events st ++ loading_events mw)%list).
  { destruct mw as [path|w].
    - split_bind Hload as u s Hemit. unfold emit in Hemit. inversion Hemit; subst s.
      apply lift_Ok in Hload. destruct Hload as [Hl ->]. split; [exact Hl|reflexivity].
    - apply ret_Ok in Hload. destruct Hload as [-> ->]. cbn. rewrite app_nil_r. auto. }
  destruct Hm0 as [Hm0 Hev0].
  assert (Hres' : (forall s, resolve_irange py_eval (irange o) s
                             = (Ok (range_min, range_max, ir), s)) /\ t1 = t0).
  { unfold resolve_irange in *. destruct (irange o) as [str| | |].
    - destruct (decide (str = "")).
      + apply ret_Ok in Hres. destruct Hres as [Heq ->]. inversion Heq. auto.
      + split_bind Hres as pr t8 Hev. destruct pr as [a b].
        apply lift_Ok in Hev. destruct Hev as [Hev ->].
        apply ret_Ok in Hres. destruct Hres as [Heq ->]. inversion Heq. split; [|reflexivity].
        intros s. unfold mbind, M_bind, lift. rewrite Hev. reflexivity.
    - apply ret_Ok in Hres. destruct Hres as [Heq ->]. inversion Heq. auto.
    - apply ret_Ok in Hres. destruct Hres as [Heq ->]. inversion Heq. auto.
    - discriminate Hres. }
  destruct Hres' as [Hres' ->]. clear Hres.
  assert (Hprep : run_passes transform (preparation_passes o) m0 = Ok model
                  /\ events t6 = (events t0 ++ map EvTransform (preparation_passes o))%list).
  { unfold preparation_passes, run_passes, when_model in *.
    apply apply_transform_Ok in H3. destruct H3 as [T3 ->].
    apply apply_transform_Ok in H4. destruct H4 as [T4 ->].
    apply apply_transform_Ok in H5. destruct H5 as [T5 ->].
    destruct (do_cleanup o), (lower_ops o).
    - apply apply_transform_Ok in H1. destruct H1 as [T1 ->].
      split_bind H2 as ma ta Ha. split_bind H2 as mb tb Hb.
      apply apply_transform_Ok in Ha. destruct Ha as [Ta ->].
      apply apply_transform_Ok in Hb. destruct Hb as [Tb ->].
      apply apply_transform_Ok in H2. destruct H2 as [Tc ->].
      cbn. rewrite T1, Ta, Tb, Tc, T3, T4, T5. split; [exact eq_refl|].
      rewrite <- !app_assoc. reflexivity.
    - apply apply_transform_Ok in H1. destruct H1 as [T1 ->].
      apply ret_Ok in H2. destruct H2 as [-> ->].
      cbn. rewrite T1, T3, T4, T5. split; [exact eq_refl|].
      rewrite <- !app_assoc. reflexivity.
    - apply ret_Ok in H1. destruct H1 as [-> ->].
      split_bind H2 as ma ta Ha. split_bind H2 as mb tb Hb.
      apply apply_transform_Ok in Ha. destruct Ha as [Ta ->].
      apply apply_transform_Ok in Hb. destruct Hb as [Tb ->].
      apply apply_transform_Ok in H2. destruct H2 as [Tc ->].
      cbn. rewrite Ta, Tb, Tc, T3, T4, T5. split; [exact eq_refl|].
      rewrite <- !app_assoc. reflexivity.
    - apply ret_Ok in H1. destruct H1 as [-> ->].
      apply ret_Ok in H2. destruct H2 as [-> ->].
      cbn. rewrite T3, T4, T5. split; [exact eq_refl|].
      rewrite <- !app_assoc. reflexivity. }
  destruct Hprep as [Hprep Hev6].
  assert (Hev7 : events t7 = (events t6 ++ saving_events o model)%list).
  { unfold saving_events. destruct (decide (save_modified_model o = "")).
    - apply ret_Ok in Hsave. destruct Hsave as [_ ->]. rewrite app_nil_r. reflexivity.
    - unfold emit in Hsave. inversion Hsave. reflexivity. }
  exists m0, model, range_min, range_max, ir, bounds', s2, s3.
  split; [exact Hin|]. split; [exact Hm0|]. split; [exact Hres'|]. split; [exact Hprep|].
  split; [|auto].
  rewrite <- Hseed. f_equal. f_equal. rewrite Hev7, Hev6, Hev0, <- !app_assoc. reflexivity.
Qed.

Lemma seed_input_Ok (model : ModelWrapper) (ir : option RangeInfo) (bounds b' : value * value)
    (inp : ValueInfo) (st st' : state) :
  seed_input model ir bounds inp st = (Ok b', st') ->
  exists rec,
    st' = mk_state (dict_set (vi_name inp) rec (range_dict st)) (events st)
    /\ (rec = mk_ri (Some b') None None None false \/ ir = Some rec).
Proof.
  intros H. unfold seed_input in H. destruct ir as [r0|].
  - split_bind H as u s2 Hset. unfold rd_set in Hset. inversion Hset; subst.
    apply ret_Ok in H. destruct H as [_ ->]. exists r0. auto.
  - destruct bounds as [range_min range_max].
    split_bind H as b2 s2 Hb. destruct b2 as [lo hi].
    assert (s2 = st) as ->.
    { destruct (is_none range_min || is_none range_max).
      - destruct (get_tensor_datatype model (vi_name inp)); [|discriminate Hb].
        apply ret_Ok in Hb. exact (proj2 Hb).
      - apply ret_Ok in Hb. exact (proj2 Hb). }
    split_bind H as u s3 Hset. unfold rd_set in Hset. inversion Hset; subst.
    apply ret_Ok in H. destruct H as [-> ->]. eexists. split; [reflexivity|]. left. reflexivity.
Qed.

Lemma seed_inputs_Ok (model : ModelWrapper) (ir : option RangeInfo) (inputs : list ValueInfo) :
  (forall r0, ir = Some r0 -> is_Some (range r0)) ->
  forall bounds bounds' st st',
    (forall k r, dict_get k (range_dict st) = Some r -> is_Some (range r)) ->
    foldM (seed_input model ir) bounds inputs st = (Ok bounds', st') ->
    events st' = events st
    /\ forall k r, dict_get k (range_dict st') = Some r -> is_Some (range r).
Proof.
  intros Hir. induction inputs as [|inp inputs IH]; intros bounds bounds' st st' Hinv H.
  - apply ret_Ok in H. destruct H as [_ ->]. auto.
  - cbn [foldM] in H. split_bind H as b1 s1 Hseed.
    apply seed_input_Ok in Hseed. destruct Hseed as (rec & -> & Hrec).
    apply IH in H.
    + exact H.
    + cbn [range_dict]. intros k r Hr. destruct (decide (vi_name inp = k)) as [<-|Hne].
      * rewrite dict_get_set_eq in Hr. inversion Hr; subst r.
        destruct Hrec as [-> | Hrec]; [eexists; reflexivity | exact (Hir rec Hrec)].
      * rewrite dict_get_set_ne in Hr by exact Hne. exact (Hinv k r Hr).
Qed.

Lemma resolve_irange_record (ia : irange_arg) (lo hi : value) (ir : option RangeInfo) :
  (forall s, resolve_irange py_eval ia s = (Ok (lo, hi, ir), s)) ->
  ir = match ia with IRangeInfo r => Some r | _ => None end.
Proof.
  intros H. specialize (H (mk_state [] [])). unfold resolve_irange in H.
  destruct ia as [str| | |].
  - destruct (decide (str = "")).
    + apply ret_Ok in H. destruct H as [Heq _]. inversion Heq. reflexivity.
    + split_bind H as pr t8 Hev. destruct pr.
      apply ret_Ok in H. destruct H as [Heq _]. inversion Heq. reflexivity.
  - apply ret_Ok in H. destruct H as [Heq _]. inversion Heq. reflexivity.
  - apply ret_Ok in H. destruct H as [Heq _]. inversion Heq. reflexivity.
  - discriminate H.
Qed.

(** A tensor that has no registered constant and is no node's output keeps,
    through initializer seeding and the graph walk, the record it had. *)
Lemma pure_input_survives (model : ModelWrapper) (s2 s3 st' : state) (k : string) :
  calc_range_all_initializers model s2 = (Ok tt, s3) ->
  for_each (walk_node op_semantics model) (graph_node model) s3 = (Ok tt, st') ->
  get_initializer model k = None ->
  (forall node, node ∈ graph_node model -> k ∉ output node) ->
  dict_get k (range_dict st') = dict_get k (range_dict s2).
Proof.
  intros Hinit Hwalk Hk Hout. unfold calc_range_all_initializers in Hinit.
  destruct (calc_range_all_initializers_run model (all_tensor_names model) s2)
    as (s3' & Hrun & _ & Hget).
  rewrite Hrun in Hinit. inversion Hinit; subst s3'.
  assert (H32 : dict_get k (range_dict s3) = dict_get k (range_dict s2))
    by (rewrite Hget, Hk; reflexivity).
  rewrite <- H32. clear H32 Hget Hrun Hinit Hk.
  revert s3 Hwalk. induction (graph_node model) as [|n nodes IH]; intros s Hwalk.
  - apply ret_Ok in Hwalk. destruct Hwalk as [_ ->]. reflexivity.
  - cbn [for_each] in Hwalk. split_bind Hwalk as u s1 Hstep. destruct u.
    assert (Hs1 : dict_get k (range_dict s1) = dict_get k (range_dict s)).
    { apply walk_node_cases in Hstep. destruct Hstep as [Hrd | [Hfr _]].
      - rewrite Hrd. reflexivity.
      - apply Hfr, Hout. left. }
    rewrite (IH (fun n' Hn' => Hout n' (list_elem_of_further _ _ _ Hn')) s1 Hwalk).
    exact Hs1.
Qed.

(** X14. In the range table that a completed run of [range_analysis]
    leaves, every record carries a range (the caller not having passed a
    range record without one): no tensor is reported with an empty range. *)
Theorem every_record_has_a_range (mw : string + ModelWrapper) (o : options)
    (st st' : state) (rep : report) :
  (forall r0, irange o = IRangeInfo r0 -> is_Some (range r0)) ->
  analysis mw o st = (Ok rep, st') ->
  forall k r, dict_get k (range_dict st') = Some r -> is_Some (range r).
Proof.
  intros Hir H. apply range_analysis_steps in H.
  destruct H as (m0 & model & lo & hi & ir & bounds' & s2 & s3
                 & _ & _ & Hres & _ & Hseed & Hinit & Hwalk & _).
  apply resolve_irange_record in Hres. subst ir.
  apply seed_inputs_Ok in Hseed.
  - destruct Hseed as [_ Hinv2].
    apply (walk_ranges op_semantics model (graph_node model) s3 st'); [|exact Hwalk].
    unfold calc_range_all_initializers in Hinit.
    destruct (calc_range_all_initializers_run model (all_tensor_names model) s2)
      as (s3' & Hrun & _ & Hget).
    rewrite Hrun in Hinit. inversion Hinit; subst s3'.
    intros k r Hr. rewrite Hget in Hr.
    destruct (get_initializer model k) as [c|]; [|exact (Hinv2 k r Hr)].
    destruct (bool_decide (k ∈ all_tensor_names model)); [|exact (Hinv2 k r Hr)].
    inversion Hr. unfold seeded_record. destruct (all_integral c); eexists; reflexivity.
  - intros r0 Hr0. destruct (irange o); try discriminate Hr0.
    inversion Hr0; subst. apply Hir. reflexivity.
  - intros k r Hr. discriminate Hr.
Qed.

(** X15. The events of a completed run come in a fixed order: loading the
    model when a file name was passed; then the graph rewrites, namely the
    optional cleanup, the optional lowering (convolutions, Gemm, cleanup),
    shape inference, constant folding and datatype inference; then saving the
    rewritten model when asked to; and only then node executions and skip
    warnings. The model that is saved is the one the rewrites produced, in
    that order. *)
Theorem preparation_order (mw : string + ModelWrapper) (o : options)
    (st st' : state) (rep : report) :
  analysis mw o st = (Ok rep, st') ->
  exists m0 model walk_evs,
    match mw with inr w => m0 = w | inl path => load_model path = Ok m0 end
    /\ run_passes transform (preparation_passes o) m0 = Ok model
    /\ events st' = (events st ++ loading_events mw
                       ++ map EvTransform (preparation_passes o)
                       ++ saving_events o model ++ walk_evs)%list
    /\ Forall is_walk_event walk_evs.
Proof.
  intros H. apply range_analysis_steps in H.
  destruct H as (m0 & model & lo & hi & ir & bounds' & s2 & s3
                 & _ & Hm0 & Hres & Hprep & Hseed & Hinit & Hwalk & _).
  assert (Hev2 : events s2 = (events st ++ loading_events mw
                                ++ map EvTransform (preparation_passes o)
                                ++ saving_events o model)%list).
  { clear Hinit Hwalk. revert Hseed.
    generalize (events st ++ loading_events mw ++ map EvTransform (preparation_passes o)
                  ++ saving_events o model)%list.
    generalize (@nil (string * RangeInfo)). generalize (lo, hi).
    induction (graph_input model) as [|inp inputs IH]; intros b rd evs Hseed.
    - apply ret_Ok in Hseed. destruct Hseed as [_ ->]. reflexivity.
    - cbn [foldM] in Hseed. split_bind Hseed as b1 s1 Hone.
      apply seed_input_Ok in Hone. destruct Hone as (rec & -> & _).
      cbn [range_dict events] in Hseed. exact (IH _ _ _ Hseed). }
  assert (Hev3 : events s3 = events s2).
  { unfold calc_range_all_initializers in Hinit.
    destruct (calc_range_all_initializers_run model (all_tensor_names model) s2)
      as (s3' & Hrun & Hev & _).
    rewrite Hrun in Hinit. inversion Hinit; subst s3'. exact Hev. }
  apply walk_events in Hwalk. destruct Hwalk as (evs & Hev & Hall).
  exists m0, model, evs. split; [exact Hm0|]. split; [exact Hprep|]. split; [|exact Hall].
  rewrite Hev, Hev3, Hev2, <- !app_assoc. reflexivity.
Qed.

(** X16. An [irange] that is neither a string, a pair nor a range record is
    rejected with the assertion [Unknown irange type] before any graph
    rewrite: when the model was passed as an object nothing has happened at
    all, when it was passed as a file name only loading it has. *)
Theorem unknown_irange_type_rejected (mw : string + ModelWrapper) (o : options) (st : state) :
  irange o = IOther ->
  report_mode o ∈ report_modes ->
  analysis mw o st
  = match mw with
    | inr _ => (Raise (AssertionError "Unknown irange type"), st)
    | inl path =>
        (match load_model path with
         | Ok _ => Raise (AssertionError "Unknown irange type")
         | Raise e => Raise e
         end,
         mk_state (range_dict st) (events st ++ [EvLoadModel path]))
    end.
Proof.
  intros Hir Hmode. unfold range_analysis, py_assert.
  rewrite bool_decide_eq_true_2 by exact Hmode.
  unfold range_analysis_body, resolve_irange. rewrite Hir.
  destruct mw as [path|w].
  - unfold mbind, M_bind, mret, M_ret, emit, lift, raise, lift.
    destruct (load_model path); reflexivity.
  - reflexivity.
Qed.

(** X17. With an explicit pair of bounds as [irange], every graph input of
    the prepared model that is neither a constant nor the output of a node
    ends the run with exactly that pair as its range and nothing else set;
    no datatype annotation is needed. *)
Theorem explicit_range_reaches_every_input (mw : string + ModelWrapper) (o : options)
    (lo hi : value) (st st' : state) (rep : report) :
  irange o = ITuple lo hi -> is_none lo = false -> is_none hi = false ->
  analysis mw o st = (Ok rep, st') ->
  exists m0 model,
    match mw with inr w => m0 = w | inl path => load_model path = Ok m0 end
    /\ run_passes transform (preparation_passes o) m0 = Ok model
    /\ forall inp, inp ∈ graph_input model ->
         get_initializer model (vi_name inp) = None ->
         (forall node, node ∈ graph_node model -> vi_name inp ∉ output node) ->
         dict_get (vi_name inp) (range_dict st')
         = Some (mk_ri (Some (lo, hi)) None None None false).
Proof.
  intros Hir Hlo Hhi H. apply range_analysis_steps in H.
  destruct H as (m0 & model & lo' & hi' & ir & bounds' & s2 & s3
                 & _ & Hm0 & Hres & Hprep & Hseed & Hinit & Hwalk & _).
  specialize (Hres st). unfold resolve_irange in Hres. rewrite Hir in Hres.
  apply ret_Ok in Hres. destruct Hres as [Heq _]. inversion Heq; subst lo' hi' ir. clear Heq.
  exists m0, model. split; [exact Hm0|]. split; [exact Hprep|].
  intros inp Hin Hconst Hout.
  rewrite (pure_input_survives model s2 s3 st' _ Hinit Hwalk Hconst Hout).
  rewrite (seed_inputs_fixed model None (lo, hi) (mk_ri (Some (lo, hi)) None None None false))
    in Hseed by (intros inp' s; apply seed_input_bounds; assumption).
  inversion Hseed; subst s2. cbn [range_dict].
  rewrite dict_get_fold_set, bool_decide_eq_true_2; [reflexivity|].
  apply list_elem_of_fmap. exists inp. auto.
Qed.

(** X18. With a range record as [irange], every graph input of the
    prepared model that is neither a constant nor the output of a node ends
    the run with that very record, integer information and flag included. *)
Theorem range_record_reaches_every_input (mw : string + ModelWrapper) (o : options)
    (r : RangeInfo) (st st' : state) (rep : report) :
  irange o = IRangeInfo r ->
  analysis mw o st = (Ok rep, st') ->
  exists m0 model,
    match mw with inr w => m0 = w | inl path => load_model path = Ok m0 end
    /\ run_passes transform (preparation_passes o) m0 = Ok model
    /\ forall inp, inp ∈ graph_input model ->
         get_initializer model (vi_name inp) = None ->
         (forall node, node ∈ graph_node model -> vi_name inp ∉ output node) ->
         dict_get (vi_name inp) (range_dict st') = Some r.
Proof.
  intros Hir H. apply range_analysis_steps in H.
  destruct H as (m0 & model & lo' & hi' & ir & bounds' & s2 & s3
                 & _ & Hm0 & Hres & Hprep & Hseed & Hinit & Hwalk & _).
  apply resolve_irange_record in Hres. rewrite Hir in Hres. subst ir.
  exists m0, model. split; [exact Hm0|]. split; [exact Hprep|].
  intros inp Hin Hconst Hout.
  rewrite (pure_input_survives model s2 s3 st' _ Hinit Hwalk Hconst Hout).
  rewrite (seed_inputs_fixed model (Some r) (lo', hi') r) in Hseed
    by (intros inp' s; apply seed_input_record).
  inversion Hseed; subst s2. cbn [range_dict].
  rewrite dict_get_fold_set, bool_decide_eq_true_2; [reflexivity|].
  apply list_elem_of_fmap. exists inp. auto.
Qed.

End Orchestration.

(** ** Report assembly *)

Section Report.

#[local] Set Default Proof Using "Type".

Context (op_semantics : Node -> gmap string value -> ModelWrapper -> Z -> result (list value))
        (transform : Transformation -> ModelWrapper -> result ModelWrapper)
        (load_model : string -> result ModelWrapper)
        (py_eval : string -> result (value * value))
        (pformat : list (string * entry) -> string)
        (str_report_modes : string).

Local Notation "'analysis'" := (range_analysis op_semantics transform load_model py_eval pformat
                        str_report_modes).

Lemma filter_tagged {V E} (tag : V -> E) (P : string * E -> Prop) (Q : string * V -> Prop)
    `{forall x, Decision (P x)} `{forall x, Decision (Q x)} (l : list (string * V)) :
  (forall kv, P (fst kv, tag (snd kv)) <-> Q kv) ->
  filter P (map (fun kv => (fst kv, tag (snd kv))) l)
  = map (fun kv => (fst kv, tag (snd kv))) (filter Q l).
Proof.
  intros HPQ. induction l as [|kv l IH]; [reflexivity|].
  cbn [map]. rewrite !filter_cons.
  destruct (decide (P (fst kv, tag (snd kv)))) as [HP|HP], (decide (Q kv)) as [HQ|HQ].
  - cbn [map]. rewrite IH. reflexivity.
  - exfalso. apply HQ, HPQ, HP.
  - exfalso. apply HP, HPQ, HQ.
  - exact IH.
Qed.

Lemma filter_all {A} (P : A -> Prop) `{forall x, Decision (P x)} (l : list A) :
  (forall x, P x) -> filter P l = l.
Proof.
  intros HP. induction l as [|x l IH]; [reflexivity|].
  rewrite filter_cons, decide_True by apply HP. rewrite IH. reflexivity.
Qed.

Lemma filter_keys_twice {V} (kf : string) (d : list (string * V)) :
  filter_keys kf (filter_keys kf d) = filter_keys kf d.
Proof.
  unfold filter_keys. destruct (decide (kf = "")); [reflexivity|].
  apply list_filter_filter_l. intros x Hx. exact Hx.
Qed.

Lemma filter_keys_tagged {V E} (tag : V -> E) (kf : string) (l : list (string * V)) :
  filter_keys kf (map (fun kv => (fst kv, tag (snd kv))) l)
  = map (fun kv => (fst kv, tag (snd kv))) (filter_keys kf l).
Proof.
  unfold filter_keys. destruct (decide (kf = "")); [reflexivity|].
  apply (filter_tagged tag). intros kv. reflexivity.
Qed.

Lemma range_report (o : options) (range_table : list (string * RangeInfo))
    (stuck_chans : list (string * list (Z * Q))) :
  report_mode o = REPORT_MODE_RANGE ->
  make_report pformat o range_table stuck_chans
  = Ok (let ret := map (fun kv => (fst kv, ERange (snd kv)))
                     (filter (fun kv => keep_in_report o kv = true) range_table) in
        if prettyprint o then RText (pformat ret) else RDict ret).
Proof.
  intros Hmode. unfold make_report. rewrite Hmode.
  rewrite bool_decide_eq_false_2.
  2: { unfold REPORT_MODE_RANGE, REPORT_MODE_ZEROSTUCKCHANNEL, REPORT_MODE_STUCKCHANNEL.
       rewrite !not_elem_of_cons. repeat split; try discriminate. apply not_elem_of_nil. }
  rewrite filter_keys_twice. rewrite decide_True by reflexivity. cbn [mbind result_bind].
  assert (Hret :
    filter_keys (key_filter o)
      (if strip_initializers_from_report o
       then filter (fun kv : string * entry => entry_is_initializer (snd kv) = false)
              (map (fun kv : string * RangeInfo => (fst kv, ERange (snd kv))) range_table)
       else map (fun kv : string * RangeInfo => (fst kv, ERange (snd kv))) range_table)
    = map (fun kv => (fst kv, ERange (snd kv)))
        (filter (fun kv => keep_in_report o kv = true) range_table)).
  { unfold keep_in_report. destruct (strip_initializers_from_report o).
    - rewrite (filter_tagged ERange _ (fun kv => is_initializer (snd kv) = false))
        by (intros kv; reflexivity).
      rewrite filter_keys_tagged. f_equal. unfold filter_keys.
      destruct (decide (key_filter o = "")) as [He|Hne].
      + apply list_filter_iff. intros kv. rewrite bool_decide_eq_true_2 by exact He.
        cbn. destruct (is_initializer (snd kv)); cbn; split; congruence.
      + rewrite list_filter_filter. apply list_filter_iff. intros kv.
        rewrite bool_decide_eq_false_2 by exact Hne. cbn.
        destruct (is_initializer (snd kv)), (contains (key_filter o) (fst kv)); cbn;
          split; try (intros [? ?]); try split; congruence.
    - rewrite filter_keys_tagged. f_equal. unfold filter_keys.
      destruct (decide (key_filter o = "")) as [He|Hne].
      + symmetry. apply filter_all. intros kv. rewrite bool_decide_eq_true_2 by exact He.
        reflexivity.
      + apply list_filter_iff. intros kv. rewrite bool_decide_eq_false_2 by exact Hne.
        cbn. reflexivity. }
  rewrite Hret. cbv zeta. destruct (prettyprint o); reflexivity.
Qed.

(** X19. In [range] mode the report of a completed run is the final range
    table, in table order, restricted to the tensors whose name contains
    [key_filter] (all of them when it is empty) and, when
    [strip_initializers_from_report] is set, to the records not flagged
    [is_initializer]; applying the key filter twice, as the code does, is the
    same as applying it once. *)
Theorem range_report_is_filtered_table (mw : string + ModelWrapper) (o : options)
    (st st' : state) (rep : report) :
  report_mode o = REPORT_MODE_RANGE ->
  analysis mw o st = (Ok rep, st') ->
  rep = (let ret := map (fun kv => (fst kv, ERange (snd kv)))
                      (filter (fun kv => keep_in_report o kv = true) (range_dict st')) in
         if prettyprint o then RText (pformat ret) else RDict ret).
Proof.
  intros Hmode H. apply range_analysis_steps in H.
  destruct H as (m0 & model & lo & hi & ir & bounds' & s2 & s3
                 & _ & _ & _ & _ & _ & _ & _ & Hrep).
  rewrite (range_report o (range_dict st') [] Hmode) in Hrep. inversion Hrep. reflexivity.
Qed.

Lemma dict_set_fresh {V} (k : string) (v : V) (d : list (string * V)) :
  dict_get k d = None -> dict_set k v d = (d ++ [(k, v)])%list.
Proof.
  induction d as [|[k' v'] d IH]; cbn; [reflexivity|].
  destruct (decide (k = k')); [discriminate|]. intros Hd. rewrite IH by exact Hd. reflexivity.
Qed.

Lemma dict_get_snoc_ne {V} (k k' : string) (v : V) (d : list (string * V)) :
  k <> k' -> dict_get k' (d ++ [(k, v)])%list = dict_get k' d.
Proof.
  intros Hne. induction d as [|[k0 v0] d IH]; cbn.
  - rewrite decide_False by congruence. reflexivity.
  - destruct (decide (k' = k0)); [reflexivity|exact IH].
Qed.

Lemma zero_stuck_loop (stuck : list (string * list (Z * Q))) :
  forall acc : list (string * entry),
    NoDup (map fst stuck) ->
    (forall kv, kv ∈ stuck -> dict_get (fst kv) acc = None) ->
    foldM_result (fun new_ret '(tname, e) =>
                    match e with
                    | EStuck schans =>
                        let schans_only_zero := only_zero schans in
                        if (0 <? length schans_only_zero)%nat
                        then Ok (dict_set tname (EZero schans_only_zero) new_ret)
                        else Ok new_ret
                    | _ => Raise TypeError
                    end)
                 acc (map (fun kv => (fst kv, EStuck (snd kv))) stuck)
    = Ok (acc ++ zero_entries stuck)%list.
Proof.
  induction stuck as [|[k sch] stuck IH]; intros acc Hnd Hfresh.
  - cbn. rewrite app_nil_r. reflexivity.
  - cbn [map fst snd foldM_result zero_entries flat_map].
    cbn [map] in Hnd. apply NoDup_cons in Hnd. destruct Hnd as [Hk Hnd].
    destruct (0 <? length (only_zero sch))%nat.
    + rewrite dict_set_fresh by (apply (Hfresh (k, sch)); left).
      rewrite IH.
      * rewrite <- app_assoc. reflexivity.
      * exact Hnd.
      * intros kv Hkv. rewrite dict_get_snoc_ne.
        -- apply Hfresh. right. exact Hkv.
        -- intros Heq. apply Hk. rewrite Heq. apply list_elem_of_fmap. exists kv. auto.
    + rewrite IH.
      * reflexivity.
      * exact Hnd.
      * intros kv Hkv. apply Hfresh. right. exact Hkv.
Qed.

(** X20. The [zerostuck_channel] reduction of a table of stuck channels
    (a dictionary, so with distinct keys) keeps, in table order, the tensors
    whose name passes the key filter and that have at least one channel stuck
    at zero, each with the set of those channels; the values are dropped and
    the range table plays no part. *)
Theorem zerostuck_report (o : options) (range_table : list (string * RangeInfo))
    (stuck_chans : list (string * list (Z * Q))) :
  report_mode o = REPORT_MODE_ZEROSTUCKCHANNEL ->
  NoDup (map fst stuck_chans) ->
  make_report pformat o range_table stuck_chans
  = Ok (let ret := zero_entries (filter_keys (key_filter o) stuck_chans) in
        if prettyprint o then RText (pformat ret) else RDict ret).
Proof.
  intros Hmode Hnd. unfold make_report. rewrite Hmode.
  rewrite bool_decide_eq_true_2 by left.
  rewrite filter_keys_twice, filter_keys_tagged.
  rewrite decide_False by discriminate. rewrite decide_True by reflexivity.
  unfold zero_stuck. rewrite zero_stuck_loop.
  - cbn [mbind result_bind app]. cbv zeta. destruct (prettyprint o); reflexivity.
  - unfold filter_keys. destruct (decide (key_filter o = "")); [exact Hnd|].
    apply (sublist_NoDup _ (map fst stuck_chans)); [exact Hnd|].
    apply (fmap_sublist fst), sublist_filter.
  - intros kv _. reflexivity.
Qed.

End Report.

(** ** Nodes bounded by their output datatype *)

Section DatatypeBounded.

#[local] Set Default Proof Using "Type".

Context (op_semantics : Node -> gmap string value -> ModelWrapper -> Z -> result (list value)).


End DatatypeBounded.

(** ** Further concrete runs *)

Section FurtherRuns.
Import Fixture.

Lemma matmul_node_range_effect_witness :
  let st' := snd (calc_matmul_node_range Layer.matmul_node Layer.graph Layer.table) in
  calc_matmul_node_range Layer.matmul_node Layer.graph Layer.table = (Ok tt, st')
  /\ exists i0 i1 o0 rA rB ro rng,
       input Layer.matmul_node !! 0%nat = Some i0 /\ input Layer.matmul_node !! 1%nat = Some i1
       /\ output Layer.matmul_node !! 0%nat = Some o0
       /\ dict_get i0 (range_dict Layer.table) = Some rA
       /\ dict_get i1 (range_dict Layer.table) = Some rB
       /\ dict_get o0 (range_dict Layer.table) = Some ro
       /\ calc_matmul_range (range rA) (range rB) = Ok rng
       /\ dict_get o0 (range_dict st') = Some (set_range (Some rng) ro)
       /\ (forall k, k <> o0 ->
                     dict_get k (range_dict st') = dict_get k (range_dict Layer.table))
       /\ events st' = events Layer.table.
Proof.
  intros st'.
  assert (H : calc_matmul_node_range Layer.matmul_node Layer.graph Layer.table = (Ok tt, st'))
    by (vm_compute; reflexivity).
  split; [exact H|].
  exact (matmul_node_range_effect Layer.matmul_node Layer.graph Layer.table st' H).
Defined.

Lemma strategies_keep_integer_info_witness :
  let st' := snd (run_range_calc semantics Monotonic add_node small_graph seeded) in
  run_range_calc semantics Monotonic add_node small_graph seeded = (Ok tt, st')
  /\ forall k r',
       dict_get k (range_dict st') = Some r' ->
       exists r0, dict_get k (range_dict seeded) = Some r0
                  /\ int_range r' = int_range r0 /\ scale r' = scale r0 /\ bias r' = bias r0.
Proof.
  intros st'.
  assert (H : run_range_calc semantics Monotonic add_node small_graph seeded = (Ok tt, st'))
    by (vm_compute; reflexivity).
  split; [exact H|].
  exact (strategies_keep_integer_info semantics Monotonic add_node small_graph seeded st' H).
Defined.

Lemma initializer_seeding_frame_witness :
  let st' := snd (calc_range_all_initializers small_graph seeded) in
  calc_range_all_initializers small_graph seeded = (Ok tt, st')
  /\ forall k,
       (get_initializer small_graph k = None \/ k ∉ all_tensor_names small_graph ->
        dict_get k (range_dict st') = dict_get k (range_dict seeded))
       /\ (forall c, get_initializer small_graph k = Some c ->
                     k ∈ all_tensor_names small_graph ->
                     dict_get k (range_dict st') = Some (seeded_record c)).
Proof.
  intros st'.
  assert (H : calc_range_all_initializers small_graph seeded = (Ok tt, st'))
    by (vm_compute; reflexivity).
  split; [exact H|].
  exact (initializer_seeding_frame small_graph seeded st' H).
Defined.

Lemma initializer_seeding_idempotent_witness :
  let st' := snd (calc_range_all_initializers small_graph seeded) in
  calc_range_all_initializers small_graph seeded = (Ok tt, st')
  /\ calc_range_all_initializers small_graph st' = (Ok tt, st').
Proof.
  intros st'.
  assert (H : calc_range_all_initializers small_graph seeded = (Ok tt, st'))
    by (vm_compute; reflexivity).
  split; [exact H|].
  exact (initializer_seeding_idempotent small_graph seeded st' H).
Defined.

Lemma walk_frame_witness :
  let st' := snd (for_each (walk_node semantics small_graph) (graph_node small_graph) seeded) in
  for_each (walk_node semantics small_graph) (graph_node small_graph) seeded = (Ok tt, st')
  /\ forall k,
       ((forall node, node ∈ graph_node small_graph -> k ∉ output node) ->
        dict_get k (range_dict st') = dict_get k (range_dict seeded))
       /\ (is_Some (dict_get k (range_dict seeded)) -> is_Some (dict_get k (range_dict st'))).
Proof.
  intros st'.
  assert (H : for_each (walk_node semantics small_graph) (graph_node small_graph) seeded
              = (Ok tt, st')) by (vm_compute; reflexivity).
  split; [exact H|].
  exact (walk_frame semantics small_graph (graph_node small_graph) seeded st' H).
Defined.

Lemma skip_propagates_downstream_witness :
  let st' := snd (for_each (walk_node semantics small_graph) [foo_node] seeded) in
  dict_get (op_type foo_node) optype_to_range_calc = None
  /\ "d" ∈ output foo_node /\ "d" ∈ input relu_node
  /\ is_dyn_input "d" small_graph = true
  /\ dict_get "d" (range_dict seeded) = None
  /\ for_each (walk_node semantics small_graph) [foo_node] seeded = (Ok tt, st')
  /\ exists msg,
       walk_node semantics small_graph relu_node st'
       = (Ok tt, mk_state (range_dict st') (events st' ++ [EvWarn msg]))
       /\ dict_get "d" (range_dict st') = None.
Proof.
  intros st'.
  assert (Hop : dict_get (op_type foo_node) optype_to_range_calc = None)
    by (vm_compute; reflexivity).
  assert (Hout : "d" ∈ output foo_node) by (vm_compute; repeat constructor).
  assert (Hin : "d" ∈ input relu_node) by (vm_compute; repeat constructor).
  assert (Hdyn : is_dyn_input "d" small_graph = true) by (vm_compute; reflexivity).
  assert (Hd : dict_get "d" (range_dict seeded) = None) by (vm_compute; reflexivity).
  assert (H : for_each (walk_node semantics small_graph) [foo_node] seeded = (Ok tt, st'))
    by (vm_compute; reflexivity).
  repeat (split; [assumption|]).
  apply (skip_propagates_downstream semantics small_graph foo_node relu_node [] "d" seeded st');
    try assumption.
  - left. exact Hop.
  - intros node Hnode. inversion Hnode.
Defined.

Lemma monotonic_range_evaluation_count_witness :
  let st' := snd (calc_monotonic_range semantics add_node small_graph seeded) in
  calc_monotonic_range semantics add_node small_graph seeded = (Ok tt, st')
  /\ exists ctxs : list (gmap string value),
       events st' = (events seeded ++ map (EvExecuteNode add_node) ctxs)%list
       /\ length ctxs
          = (2 ^ length (filter (fun x => is_dyn_input x small_graph = true)
                           (input add_node)))%nat.
Proof.
  intros st'.
  assert (H : calc_monotonic_range semantics add_node small_graph seeded = (Ok tt, st'))
    by (vm_compute; reflexivity).
  split; [exact H|].
  exact (monotonic_range_evaluation_count semantics add_node small_graph seeded st' H).
Defined.

Lemma datatype_seeding_witness :
  is_none VNone || is_none VNone = true
  /\ match get_tensor_datatype two_inputs (vi_name (mk_vi "a" [2%nat])) with
     | None =>
         foldM (seed_input two_inputs None) (VNone, VNone)
           (mk_vi "a" [2%nat] :: [mk_vi "b" [2%nat]]) st0
         = (Raise (AssertionError "Could not infer irange, please specify"), st0)
     | Some idt =>
         let b := (VScalar (dt_min idt), VScalar (dt_max idt)) in
         exists st',
           foldM (seed_input two_inputs None) (VNone, VNone)
             (mk_vi "a" [2%nat] :: [mk_vi "b" [2%nat]]) st0 = (Ok b, st')
           /\ events st' = events st0
           /\ forall k,
                dict_get k (range_dict st')
                = if bool_decide (k ∈ map vi_name (mk_vi "a" [2%nat] :: [mk_vi "b" [2%nat]]))
                  then Some (mk_ri (Some b) None None None false)
                  else dict_get k (range_dict st0)
     end.
Proof.
  split; [reflexivity|].
  apply (datatype_seeding_uses_first_input two_inputs VNone VNone (mk_vi "a" [2%nat])
           [mk_vi "b" [2%nat]] st0).
  reflexivity.
Defined.

Lemma every_record_has_a_range_witness :
  let o := opts "range" false in
  exists rep st',
    (forall r0, irange o = IRangeInfo r0 -> is_Some (range r0))
    /\ run (inr small_graph) o st0 = (Ok rep, st')
    /\ forall k r, dict_get k (range_dict st') = Some r -> is_Some (range r).
Proof.
  intros o.
  assert (Hir : forall r0, irange o = IRangeInfo r0 -> is_Some (range r0))
    by (intros r0 Hr0; discriminate Hr0).
  do 2 eexists. split; [exact Hir|]. split; [vm_compute; reflexivity|].
  eapply (every_record_has_a_range semantics no_transform no_load no_eval show modes_text
            (inr small_graph) o st0); [exact Hir|].
  vm_compute; reflexivity.
Defined.

Lemma preparation_order_witness :
  let o := mk_options (IStr "") "" "out.onnx" "range" true false true false in
  exists rep st',
    run (inr small_graph) o st0 = (Ok rep, st')
    /\ exists m0 model walk_evs,
         m0 = small_graph
         /\ run_passes no_transform (preparation_passes o) m0 = Ok model
         /\ events st' = (events st0 ++ loading_events (inr small_graph)
                            ++ map EvTransform (preparation_passes o)
                            ++ saving_events o model ++ walk_evs)%list
         /\ Forall is_walk_event walk_evs.
Proof.
  intros o. do 2 eexists. split; [vm_compute; reflexivity|].
  eapply (preparation_order semantics no_transform no_load no_eval show modes_text
            (inr small_graph) o st0).
  vm_compute; reflexivity.
Defined.

Lemma unknown_irange_type_witness :
  let o := mk_options IOther "" "" "range" false false false false in
  irange o = IOther /\ report_mode o ∈ report_modes
  /\ run (inr small_graph) o st0 = (Raise (AssertionError "Unknown irange type"), st0).
Proof.
  intros o.
  assert (Hir : irange o = IOther) by reflexivity.
  assert (Hmode : report_mode o ∈ report_modes) by (vm_compute; repeat constructor).
  split; [exact Hir|]. split; [exact Hmode|].
  exact (unknown_irange_type_rejected semantics no_transform no_load no_eval show modes_text
           (inr small_graph) o st0 Hir Hmode).
Defined.

Lemma explicit_range_witness :
  let lo := VScalar (-1) in
  let hi := VScalar 1 in
  let o := mk_options (ITuple lo hi) "" "" "range" false false false false in
  exists rep st',
    irange o = ITuple lo hi /\ is_none lo = false /\ is_none hi = false
    /\ run (inr small_graph) o st0 = (Ok rep, st')
    /\ exists m0 model,
         m0 = small_graph
         /\ run_passes no_transform (preparation_passes o) m0 = Ok model
         /\ forall inp, inp ∈ graph_input model ->
              get_initializer model (vi_name inp) = None ->
              (forall node, node ∈ graph_node model -> vi_name inp ∉ output node) ->
              dict_get (vi_name inp) (range_dict st')
              = Some (mk_ri (Some (lo, hi)) None None None false).
Proof.
  intros lo hi o. do 2 eexists.
  split; [reflexivity|]. split; [reflexivity|]. split; [reflexivity|].
  split; [vm_compute; reflexivity|].
  eapply (explicit_range_reaches_every_input semantics no_transform no_load no_eval show
            modes_text (inr small_graph) o lo hi st0); try reflexivity.
  vm_compute; reflexivity.
Defined.

Lemma range_record_witness :
  let r := input_range (-1) 1 in
  let o := mk_options (IRangeInfo r) "" "" "range" false false false false in
  exists rep st',
    irange o = IRangeInfo r
    /\ run (inr small_graph) o st0 = (Ok rep, st')
    /\ exists m0 model,
         m0 = small_graph
         /\ run_passes no_transform (preparation_passes o) m0 = Ok model
         /\ forall inp, inp ∈ graph_input model ->
              get_initializer model (vi_name inp) = None ->
              (forall node, node ∈ graph_node model -> vi_name inp ∉ output node) ->
              dict_get (vi_name inp) (range_dict st') = Some r.
Proof.
  intros r o. do 2 eexists. split; [reflexivity|].
  split; [vm_compute; reflexivity|].
  eapply (range_record_reaches_every_input semantics no_transform no_load no_eval show
            modes_text (inr small_graph) o r st0); [reflexivity|].
  vm_compute; reflexivity.
Defined.

Lemma range_report_witness :
  let o := mk_options (IStr "") "c" "" "range" false false false true in
  exists rep st',
    report_mode o = REPORT_MODE_RANGE
    /\ run (inr small_graph) o st0 = (Ok rep, st')
    /\ rep = (let ret := map (fun kv => (fst kv, ERange (snd kv)))
                           (filter (fun kv => keep_in_report o kv = true)
                                   (range_dict st')) in
              if prettyprint o then RText (show ret) else RDict ret).
Proof.
  intros o. do 2 eexists. split; [reflexivity|].
  split; [vm_compute; reflexivity|].
  eapply (range_report_is_filtered_table semantics no_transform no_load no_eval show
            modes_text (inr small_graph) o st0); [reflexivity|].
  vm_compute; reflexivity.
Defined.

Lemma zerostuck_report_witness :
  let o := opts "zerostuck_channel" false in
  let stuck := [("t", [(0%Z, 0%Q); (1%Z, 3%Q)]); ("u", [(2%Z, 5%Q)])] in
  report_mode o = REPORT_MODE_ZEROSTUCKCHANNEL
  /\ NoDup (map fst stuck)
  /\ make_report show o [] stuck
     = Ok (let ret := zero_entries (filter_keys (key_filter o) stuck) in
           if prettyprint o then RText (show ret) else RDict ret).
Proof.
  intros o stuck.
  assert (Hmode : report_mode o = REPORT_MODE_ZEROSTUCKCHANNEL) by reflexivity.
  assert (Hnd : NoDup (map fst stuck)).
  { apply NoDup_cons. split.
    - intros Hin. apply list_elem_of_singleton in Hin. discriminate Hin.
    - apply NoDup_singleton. }
  split; [exact Hmode|]. split; [exact Hnd|].
  exact (zerostuck_report show o [] stuck Hmode Hnd).
Defined.


End FurtherRuns.

(** ** Soundness of monotonic propagation, one dynamic input *)

Section Soundness.

#[local] Set Default Proof Using "Type".

Context (op_semantics : Node -> gmap string value -> ModelWrapper -> Z -> result (list value)).

Lemma Forall2_Qle_trans (l1 l2 l3 : list Q) :
  Forall2 Qle l1 l2 -> Forall2 Qle l2 l3 -> Forall2 Qle l1 l3.
Proof.
  intros H12. revert l3. induction H12 as [|x y l1 l2 Hxy _ IH]; intros l3 H23.
  - inversion H23. constructor.
  - inversion H23 as [|y' z l2' l3' Hyz H23']; subst.
    constructor; [exact (Qle_trans _ _ _ Hxy Hyz)|apply IH; exact H23'].
Qed.

Lemma zip_with_bounds (d1 d2 : list Q) :
  length d2 = length d1 ->
  Forall2 Qle (zip_with Qmin d2 d1) d1 /\ Forall2 Qle (zip_with Qmin d2 d1) d2
  /\ Forall2 Qle d1 (zip_with Qmax d2 d1) /\ Forall2 Qle d2 (zip_with Qmax d2 d1).
Proof.
  revert d2. induction d1 as [|x d1 IH]; intros [|y d2] Hlen; try discriminate Hlen.
  - repeat split; constructor.
  - cbn in Hlen. injection Hlen as Hlen. destruct (IH d2 Hlen) as (H1 & H2 & H3 & H4).
    cbn [zip_with]. repeat split; constructor; try assumption.
    + apply Q.le_min_r.
    + apply Q.le_min_l.
    + apply Q.le_max_r.
    + apply Q.le_max_l.
Qed.

Lemma le_value_trans (a b c : value) : le_value a b -> le_value b c -> le_value a c.
Proof.
  intros (x & y & Hx & Hy & Hs & Wx & Wy & Hle) (y' & z & Hy' & Hz & Hs' & _ & Wz & Hle').
  rewrite Hy in Hy'. inversion Hy'; subst y'.
  exists x, z. repeat (split; [assumption || congruence|]).
  exact (Forall2_Qle_trans _ _ _ Hle Hle').
Qed.

(** The running minimum and maximum of two results bound both of them. *)
Lemma extremes_bound (o1 o2 lo hi : value) :
  le_value o1 o2 \/ le_value o2 o1 ->
  minimum o2 o1 = Ok lo -> maximum o2 o1 = Ok hi ->
  le_value lo o1 /\ le_value lo o2 /\ le_value o1 hi /\ le_value o2 hi.
Proof.
  intros Hle Hmin Hmax.
  assert (Harr : exists a1 a2, as_array o1 = Ok a1 /\ as_array o2 = Ok a2
                               /\ shape a1 = shape a2 /\ well_formed a1 /\ well_formed a2).
  { destruct Hle as [(x & y & Hx & Hy & Hs & Wx & Wy & _) | (x & y & Hx & Hy & Hs & Wx & Wy & _)].
    - exists x, y. auto.
    - exists y, x. auto. }
  clear Hle. destruct Harr as (a1 & a2 & H1 & H2 & Hs & W1 & W2).
  assert (Hlen : length (data a2) = length (data a1)).
  { unfold well_formed in W1, W2. rewrite W1, W2, Hs. reflexivity. }
  unfold minimum in Hmin. unfold maximum in Hmax.
  rewrite (ufunc2_same_shape Qmin o2 o1 a2 a1 H2 H1 Hs W2 W1) in Hmin.
  rewrite (ufunc2_same_shape Qmax o2 o1 a2 a1 H2 H1 Hs W2 W1) in Hmax.
  inversion Hmin; subst lo. inversion Hmax; subst hi. clear Hmin Hmax.
  destruct (zip_with_bounds (data a1) (data a2) Hlen) as (B1 & B2 & B3 & B4).
  assert (Wmin : well_formed (mk_ndarray (shape a2) (zip_with Qmin (data a2) (data a1)))).
  { apply well_formed_zip; [exact W2|]. unfold well_formed in W1. rewrite W1, Hs. reflexivity. }
  assert (Wmax : well_formed (mk_ndarray (shape a2) (zip_with Qmax (data a2) (data a1)))).
  { apply well_formed_zip; [exact W2|]. unfold well_formed in W1. rewrite W1, Hs. reflexivity. }
  repeat split.
  - eexists _, a1. split; [apply as_array_wrap; exact Wmin|]. cbn [shape data]. auto 10.
  - eexists _, a2. split; [apply as_array_wrap; exact Wmin|]. cbn [shape data]. auto 10.
  - eexists a1, _. split; [exact H1|]. split; [apply as_array_wrap; exact Wmax|].
    cbn [shape data]. auto 10.
  - eexists a2, _. split; [exact H2|]. split; [apply as_array_wrap; exact Wmax|].
    cbn [shape data]. auto 10.
Qed.

(** X22. Monotonic propagation is sound for a node with one dynamic input
    in which the operator is monotone, increasing or decreasing: the range
    it assigns to an output encloses, elementwise, the value of that output
    for every value of the input between the promoted bounds of the input's
    range. *)
Theorem monotonic_range_encloses (node : Node) (model : ModelWrapper) (st st' : state)
    (x k : string) (r : RangeInfo) (plo phi v ov : value) (c : gmap string value) :
  filter (fun i => is_dyn_input i model = true) (input node) = [x] ->
  increasing_in op_semantics node model x k \/ decreasing_in op_semantics node model x k ->
  dict_get x (range_dict st) = Some r ->
  promote_range_shape (range r) (get_tensor_valueinfo model x) = Ok (plo, phi) ->
  k ∈ output node ->
  calc_monotonic_range op_semantics node model st = (Ok tt, st') ->
  constants_fixed node model c -> c !! x = Some v ->
  le_value plo v -> le_value v phi ->
  output_value op_semantics node model c k = Some ov ->
  exists r' lo hi,
    dict_get k (range_dict st') = Some r' /\ range r' = Some (lo, hi)
    /\ le_value lo ov /\ le_value ov hi.
Proof.
  intros Hdyn Hmono Hr Hp Hk H Hc Hv Hlo Hhi Hov.
  destruct (calc_monotonic_range_general op_semantics node model st st')
    as (ps & cs & Hps & _ & Hcs & Hout).
  { rewrite Hdyn. cbn. lia. }
  { exact H. }
  rewrite Hdyn in Hps, Hcs. specialize (Hout k).
  rewrite bool_decide_eq_true_2 in Hout by exact Hk.
  destruct Hout as (r0 & outs & lo & hi & Houts & Hmin & Hmax & _ & Hfin).
  apply Forall2_cons_inv_l in Hps. destruct Hps as (p & ps' & Hx0 & Hrest & ->).
  apply Forall2_nil_inv_l in Hrest. subst ps'.
  destruct Hx0 as (r1 & Hr1 & Hp1). rewrite Hr in Hr1. inversion Hr1; subst r1.
  rewrite Hp in Hp1. inversion Hp1; subst p. clear Hr1 Hp1.
  cbn [product map app] in Hcs.
  apply Forall2_cons_inv_l in Hcs. destruct Hcs as (c1 & cs1 & [Hf1 Hs1] & Hcs & ->).
  apply Forall2_cons_inv_l in Hcs. destruct Hcs as (c2 & cs2 & [Hf2 Hs2] & Hcs & ->).
  apply Forall2_nil_inv_l in Hcs. subst cs2.
  apply Forall2_cons_inv_l in Houts. destruct Houts as (o1 & os1 & Ho1 & Houts & ->).
  apply Forall2_cons_inv_l in Houts. destruct Houts as (o2 & os2 & Ho2 & Houts & ->).
  apply Forall2_nil_inv_l in Houts. subst os2.
  assert (Hx1 : c1 !! x = Some plo).
  { apply (Hs1 0%nat x plo); [reflexivity|reflexivity|].
    intros j Hj. destruct j as [|j]; [lia|]. destruct j; discriminate. }
  assert (Hx2 : c2 !! x = Some phi).
  { apply (Hs2 0%nat x phi); [reflexivity|reflexivity|].
    intros j Hj. destruct j as [|j]; [lia|]. destruct j; discriminate. }
  assert (Hbetween : (le_value o1 ov /\ le_value ov o2) \/ (le_value o2 ov /\ le_value ov o1)).
  { destruct Hmono as [Hinc|Hdec].
    - left. split.
      + exact (Hinc c1 c plo v o1 ov Hf1 Hc Hx1 Hv Hlo Ho1 Hov).
      + exact (Hinc c c2 v phi ov o2 Hc Hf2 Hv Hx2 Hhi Hov Ho2).
    - right. split.
      + exact (Hdec c c2 v phi ov o2 Hc Hf2 Hv Hx2 Hhi Hov Ho2).
      + exact (Hdec c1 c plo v o1 ov Hf1 Hc Hx1 Hv Hlo Ho1 Hov). }
  assert (Hnn : is_none o1 = false).
  { destruct o1; try reflexivity.
    destruct Hbetween as [[(a & b & Ha & _) _] | [_ (a & b & _ & Hb & _)]]; discriminate. }
  unfold elementwise_min, running_extreme in Hmin. cbn [foldM_result] in Hmin.
  unfold elementwise_max, running_extreme in Hmax. cbn [foldM_result] in Hmax.
  unfold running_step in Hmin, Hmax. cbn [is_none] in Hmin, Hmax. rewrite Hnn in Hmin, Hmax.
  destruct (minimum o2 o1) as [lo'|e] eqn:Emin; [|discriminate Hmin]. inversion Hmin; subst lo'.
  destruct (maximum o2 o1) as [hi'|e] eqn:Emax; [|discriminate Hmax]. inversion Hmax; subst hi'.
  destruct (extremes_bound o1 o2 lo hi) as (B1 & B2 & B3 & B4); [| exact Emin | exact Emax |].
  { destruct Hbetween as [[H1 H2] | [H1 H2]].
    - left. exact (le_value_trans _ _ _ H1 H2).
    - right. exact (le_value_trans _ _ _ H1 H2). }
  exists (set_range (Some (lo, hi)) r0), lo, hi.
  split; [exact Hfin|]. split; [reflexivity|].
  destruct Hbetween as [[H1 H2] | [H1 H2]].
  - split; [exact (le_value_trans _ _ _ B1 H1) | exact (le_value_trans _ _ _ H2 B4)].
  - split; [exact (le_value_trans _ _ _ B2 H1) | exact (le_value_trans _ _ _ H2 B3)].
Qed.

End Soundness.

(** *** [Relu] is increasing in its input *)

Section ReluIncreasing.
Import Fixture.

Lemma broadcast_shapes_nil_r (s : list nat) : broadcast_shapes s [] = Some s.
Proof.
  unfold broadcast_shapes. cbn [rev].
  destruct (rev s) as [|d t] eqn:Hrev.
  - apply (f_equal (@rev nat)) in Hrev. rewrite rev_involutive in Hrev. subst s. reflexivity.
  - cbn [broadcast_rev]. rewrite <- Hrev, rev_involutive. reflexivity.
Qed.

Lemma ufunc2_scalar_r (f : Q -> Q -> Q) (x : value) (a : ndarray) (c : Q) :
  as_array x = Ok a -> well_formed a ->
  ufunc2 f x (VScalar c)
  = Ok (wrap (mk_ndarray (shape a) (zip_with f (data a) (replicate (size (shape a)) c)))).
Proof.
  intros Hx Ha. unfold ufunc2. rewrite Hx. cbn [as_array mbind result_bind].
  unfold map2. cbn [shape]. rewrite broadcast_shapes_nil_r, broadcast_to_scalar.
  rewrite (broadcast_to_self a Ha). reflexivity.
Qed.

Lemma Forall2_max_zero (da db : list Q) :
  Forall2 Qle da db ->
  forall n, Forall2 Qle (zip_with Qmax da (replicate n 0%Q)) (zip_with Qmax db (replicate n 0%Q)).
Proof.
  induction 1 as [|p q da db Hpq _ IH]; intros n.
  - constructor.
  - destruct n as [|n]; [constructor|]. cbn [replicate zip_with].
    constructor; [apply Q.max_le_compat_r; exact Hpq | apply IH].
Qed.

Lemma relu_output (c : gmap string value) (a : value) (o : value) :
  c !! "d" = Some a ->
  output_value semantics relu_node small_graph c "e" = Some o ->
  maximum a (VScalar 0) = Ok o.
Proof.
  intros Ha Ho. unfold output_value in Ho.
  change (semantics relu_node c small_graph (opset_version small_graph))
    with (a ← arg c relu_node 0; r ← maximum a (VScalar 0); mret [r]) in Ho.
  unfold arg in Ho. cbn [input relu_node lookup list_lookup] in Ho. rewrite Ha in Ho.
  cbn [mbind result_bind] in Ho.
  destruct (maximum a (VScalar 0)) as [r|e]; [|discriminate Ho].
  cbn [mbind result_bind mret result_ret output relu_node write_outputs zip zip_with
       fold_left] in Ho.
  rewrite lookup_insert_eq in Ho. inversion Ho. reflexivity.
Qed.

Lemma relu_increasing : increasing_in semantics relu_node small_graph "d" "e".
Proof.
  intros c c' a b oa ob _ _ Ha Hb Hle Hoa Hob.
  apply (relu_output c a oa Ha) in Hoa. apply (relu_output c' b ob Hb) in Hob.
  destruct Hle as (x & y & Hx & Hy & Hs & Wx & Wy & Hle).
  unfold maximum in Hoa, Hob.
  rewrite (ufunc2_scalar_r Qmax a x 0 Hx Wx) in Hoa.
  rewrite (ufunc2_scalar_r Qmax b y 0 Hy Wy) in Hob.
  inversion Hoa; subst oa. inversion Hob; subst ob. clear Hoa Hob.
  assert (Wa : well_formed (mk_ndarray (shape x)
                              (zip_with Qmax (data x) (replicate (size (shape x)) 0%Q)))).
  { apply well_formed_zip; [exact Wx|apply length_replicate]. }
  assert (Wb : well_formed (mk_ndarray (shape y)
                              (zip_with Qmax (data y) (replicate (size (shape y)) 0%Q)))).
  { apply well_formed_zip; [exact Wy|apply length_replicate]. }
  eexists _, _. split; [apply as_array_wrap; exact Wa|].
  split; [apply as_array_wrap; exact Wb|]. cbn [shape data].
  split; [exact Hs|]. split; [exact Wa|]. split; [exact Wb|].
  rewrite Hs. apply Forall2_max_zero. exact Hle.
Qed.

Lemma monotonic_range_encloses_witness :
  let plo := VArray (mk_ndarray [2%nat] [(-2)%Q; (-2)%Q]) in
  let phi := VArray (mk_ndarray [2%nat] [3%Q; 3%Q]) in
  let v := VArray (mk_ndarray [2%nat] [0%Q; 1%Q]) in
  let c : gmap string value := {["d" := v]} in
  let st' := snd (calc_monotonic_range semantics relu_node small_graph relu_table) in
  filter (fun i => is_dyn_input i small_graph = true) (input relu_node) = ["d"]
  /\ promote_range_shape (range (input_range (-2) 3)) (get_tensor_valueinfo small_graph "d")
     = Ok (plo, phi)
  /\ calc_monotonic_range semantics relu_node small_graph relu_table = (Ok tt, st')
  /\ le_value plo v /\ le_value v phi
  /\ output_value semantics relu_node small_graph c "e" = Some v
  /\ exists r' lo hi,
       dict_get "e" (range_dict st') = Some r' /\ range r' = Some (lo, hi)
       /\ le_value lo v /\ le_value v hi.
Proof.
  intros plo phi v c st'.
  assert (Hdyn : filter (fun i => is_dyn_input i small_graph = true) (input relu_node)
                 = ["d"]) by (vm_compute; reflexivity).
  assert (Hp : promote_range_shape (range (input_range (-2) 3))
                 (get_tensor_valueinfo small_graph "d") = Ok (plo, phi))
    by (vm_compute; reflexivity).
  assert (H : calc_monotonic_range semantics relu_node small_graph relu_table = (Ok tt, st'))
    by (vm_compute; reflexivity).
  assert (Hlo : le_value plo v).
  { exists (mk_ndarray [2%nat] [(-2)%Q; (-2)%Q]), (mk_ndarray [2%nat] [0%Q; 1%Q]).
    repeat split; repeat constructor; discriminate. }
  assert (Hhi : le_value v phi).
  { exists (mk_ndarray [2%nat] [0%Q; 1%Q]), (mk_ndarray [2%nat] [3%Q; 3%Q]).
    repeat split; repeat constructor; discriminate. }
  assert (Hov : output_value semantics relu_node small_graph c "e" = Some v)
    by (vm_compute; reflexivity).
  assert (Hc : constants_fixed relu_node small_graph c).
  { intros i Hi Hconst _. apply list_elem_of_singleton in Hi. subst i. discriminate Hconst. }
  repeat (split; [assumption|]).
  apply (monotonic_range_encloses semantics relu_node small_graph relu_table st' "d" "e"
           (input_range (-2) 3) plo phi v v c); try assumption.
  - left. exact relu_increasing.
  - reflexivity.
  - vm_compute; repeat constructor.
Defined.

End ReluIncreasing.
